(** * pushsync: the push-forwarding and replication protocol

    A shallow embedding of package [pushsync] (the origin push loop
    [pushToClosest], its public wrapper [PushChunkToClosest] and the relay
    [handler]) and of the [protobuf] helpers it is built on.

    The collaborators of the package (pricer, accounting, streamer, storer,
    topology driver, tagger, signer) are Go interfaces.  They are embedded as
    records of functions over an abstract world [W]: a call takes the world
    and returns its result with the next world.  Every call is also written
    to a log of events, so that properties such as "every reservation is
    released" are statements about the log of a run.  All theorems hold for
    every world type and every behaviour of the collaborators. *)

From Stdlib Require Import String ZArith Bool Lia PeanoNat List.
From Stdlib.Strings Require Import Byte.
Import ListNotations.

Local Open Scope string_scope.
Local Open Scope list_scope.
Local Open Scope Z_scope.

Set Implicit Arguments.

(* ================================================================== *)
(** ** Data model *)

(** [bytes.Equal]: two byte slices are equal when they have the same length
    and the same bytes (a nil slice equals an empty one: both are [[]]). *)
Fixpoint bytes_Equal (a b : list byte) : bool :=
  match a, b with
  | [], [] => true
  | x :: a', y :: b' => Byte.eqb x y && bytes_Equal a' b'
  | _, _ => false
  end.

Module swarm.

(** [swarm.Address] wraps a byte slice. *)
Record Address : Type := NewAddress { Bytes : list byte }.

(** [func (a Address) Equal(b Address) bool] compares the bytes. *)
Definition Equal (a b : Address) : bool := bytes_Equal (Bytes a) (Bytes b).

(** [swarm.Chunk]: address, data and the tag the chunk was uploaded under. *)
Record Chunk : Type := NewChunk' {
  chunk_Address : Address;
  chunk_Data : list byte;
  chunk_TagID : Z
}.

(** [swarm.NewChunk(addr, data)]: a chunk with the zero tag. *)
Definition NewChunk (addr : Address) (data : list byte) : Chunk :=
  {| chunk_Address := addr; chunk_Data := data; chunk_TagID := 0 |}.

End swarm.

(** Arguments of a formatted error message. *)
Inductive Arg : Type :=
| ArgAddress (a : swarm.Address)   (* %s of an address or a peer *)
| ArgUint (n : Z).                 (* %d *)

(** A package-level error variable, [var ErrX = errors.New(text)].  Its
    value is a pointer made once, when the package is initialised: it is
    identified by the variable and not by its text. *)
Record Sentinel : Type := package_var { var_name : string; var_text : string }.

(** Go [error] values: the value of a package-level variable, an error made
    by [errors.New] at run time, and [fmt.Errorf] messages that wrap their
    cause ([%w]), print it ([%v]) or have none. *)
Inductive error : Type :=
| sentinel (v : Sentinel)
| errors_New (text : string)
| fmt_Errorf (format : string) (args : list Arg)
| fmt_Errorf_v (format : string) (args : list Arg) (cause : error)
| fmt_Errorf_w (format : string) (args : list Arg) (cause : error).

Definition byte_list_eq_dec (a b : list byte) : {a = b} + {a <> b}.
Proof. apply list_eq_dec, Byte.byte_eq_dec. Defined.

Definition Address_eq_dec (a b : swarm.Address) : {a = b} + {a <> b}.
Proof.
  destruct a as [x], b as [y].
  destruct (byte_list_eq_dec x y) as [e | n].
  - left. now rewrite e.
  - right. intros H. apply n. now inversion H.
Defined.

Definition Arg_eq_dec (a b : Arg) : {a = b} + {a <> b}.
Proof. decide equality. apply Address_eq_dec. apply Z.eq_dec. Defined.

Definition Sentinel_eq_dec (a b : Sentinel) : {a = b} + {a <> b}.
Proof. decide equality; apply string_dec. Defined.

Definition error_eq_dec (a b : error) : {a = b} + {a <> b}.
Proof.
  decide equality; try apply string_dec; try apply Sentinel_eq_dec;
    apply list_eq_dec, Arg_eq_dec.
Defined.

(** A package-level variable is used as the error it holds, also where
    the error is returned ([inl]) or optional ([Some]). *)
Coercion sentinel : Sentinel >-> error.
Arguments inl {A B} & a.
Arguments Some {A} & a.

(** [errors.Is(err, target)], for a target that is a package-level
    variable, as in every call the code makes.  Go compares these errors by
    identity: [err] matches when it, or an error it wraps with [%w], is the
    value of that variable.  An error made at run time, by [errors.New] or
    [fmt.Errorf], is another value and does not match, whatever its
    text. *)
Fixpoint errors_Is (err : error) (target : Sentinel) : bool :=
  match err with
  | sentinel v => if Sentinel_eq_dec v target then true else false
  | fmt_Errorf_w _ _ cause => errors_Is cause target
  | _ => false
  end.

(** [swarm.ErrInvalidChunk]. *)
Definition swarm_ErrInvalidChunk : Sentinel :=
  package_var "swarm.ErrInvalidChunk" "invalid chunk".

Module topology.
(** The sentinels of package [topology]. *)
Definition ErrWantSelf : Sentinel :=
  package_var "topology.ErrWantSelf" "node wants self".
Definition ErrNotFound : Sentinel :=
  package_var "topology.ErrNotFound" "no peer found".
End topology.

Module pb.
(** The two wire messages of the protocol. *)
Record Delivery : Type := { Delivery_Address : list byte; Data : list byte }.
Record Receipt : Type := { Receipt_Address : list byte; Signature : list byte }.
End pb.

Module p2p.
(** [p2p.Headers] is a [map[string][]byte]. *)
Definition Headers : Type := list (string * list byte).

(** A stream is a handle, together with the headers exchanged when it was
    opened: [Headers()] on a stream this node opened, [ResponseHeaders()]
    on a stream it accepted. *)
Record Stream : Type := {
  stream_id : nat;
  stream_Headers : Headers;
  stream_ResponseHeaders : Headers
}.

Record Peer : Type := { Address : swarm.Address }.
End p2p.

Module tags.
(** A tag handle. *)
Record Tag : Type := { Uid : Z }.
End tags.

(** [pushsync.Receipt]. *)
Record Receipt : Type := {
  Address : swarm.Address;
  Signature : list byte
}.

Definition protocolName : string := "pushsync".
Definition protocolVersion : string := "1.0.0".
Definition streamName : string := "pushsync".

Definition maxPeers : nat := 5.

Definition ErrOutOfDepthReplication : Sentinel :=
  package_var "pushsync.ErrOutOfDepthReplication"
    "replication outside of the neighborhood".

(** Seconds. *)
Definition timeToLive : Z := 5.
Definition timeToWaitForPushsyncToNeighbor : Z := 3.
Definition nPeersToPushsync : nat := 3.

(* ================================================================== *)
(** ** package protobuf *)

Module protobuf.

Definition delimitedReaderMaxSize : Z := 128 * 1024.

(** A delimited reader or writer on a stream. *)
Record Reader : Type := { reader_stream : p2p.Stream; reader_maxSize : Z }.
Record Writer : Type := { writer_stream : p2p.Stream }.

Definition NewReader (r : p2p.Stream) : Reader :=
  {| reader_stream := r; reader_maxSize := delimitedReaderMaxSize |}.

Definition NewWriter (w : p2p.Stream) : Writer := {| writer_stream := w |}.

Definition NewWriterAndReader (s : p2p.Stream) : Writer * Reader :=
  let r := {| reader_stream := s; reader_maxSize := delimitedReaderMaxSize |} in
  let w := {| writer_stream := s |} in
  (w, r).

(** [ReadMessages]: read messages until [io.EOF]; any other error drops
    what was read.  [ReadMsg] is the reader's next result ([None] is
    [io.EOF]); the fuel bounds the number of reads. *)
Fixpoint ReadMessages {S Msg : Type} (ReadMsg : S -> (error + option Msg) * S)
    (fuel : nat) (s : S) (m : list Msg) : option (error + list Msg) :=
  match fuel with
  | O => None
  | S fuel' =>
      match ReadMsg s with
      | (inl err, _) => Some (inl err)
      | (inr None, _) => Some (inr m)
      | (inr (Some msg), s') => ReadMessages ReadMsg fuel' s' (m ++ [msg])
      end
  end.

End protobuf.

(* ================================================================== *)
(** ** The log of a run *)

Inductive Event : Type :=
(* context *)
| EvCtxDone (err : option error)
| EvWithTimeout (seconds : Z)
| EvCancel
(* pricer *)
| EvCheapestPeer (addr : swarm.Address) (skipPeers : list swarm.Address)
    (allowUpstream : bool) (r : error + swarm.Address)
| EvPeerPrice (peer addr : swarm.Address) (price : Z)
| EvPriceForPeer (peer addr : swarm.Address) (price : Z)
| EvNotifyPeerPrice (peer : swarm.Address) (price index : Z) (err : option error)
(* streamer and streams *)
| EvNewStream (peer : swarm.Address) (headers : p2p.Headers) (r : error + p2p.Stream)
| EvGoFullClose (s : p2p.Stream)
| EvFullClose (s : p2p.Stream)
| EvReset (s : p2p.Stream)
(* message codec *)
| EvWriteDelivery (s : p2p.Stream) (d : pb.Delivery) (err : option error)
| EvReadDelivery (s : p2p.Stream) (r : error + pb.Delivery)
| EvWriteReceipt (s : p2p.Stream) (rc : pb.Receipt) (err : option error)
| EvReadReceipt (s : p2p.Stream) (r : error + pb.Receipt)
(* pricing headers *)
| EvMakePricingHeaders (price : Z) (addr : swarm.Address) (r : error + p2p.Headers)
| EvParsePricingResponseHeaders (headers : p2p.Headers)
    (r : error + (swarm.Address * Z * Z))
| EvParsePriceHeader (headers : p2p.Headers) (r : error + Z)
(* accounting *)
| EvReserve (peer : swarm.Address) (price : Z) (err : option error)
| EvRelease (peer : swarm.Address) (price : Z)
| EvCredit (peer : swarm.Address) (price : Z) (err : option error)
| EvDebit (peer : swarm.Address) (price : Z) (err : option error)
(* storer, topology, tags, signer *)
| EvPut (ch : swarm.Chunk) (err : option error)
| EvIsWithinDepth (addr : swarm.Address) (within : bool)
| EvEachNeighbor (peers : list (swarm.Address * Z))
| EvTagGet (id : Z) (r : option tags.Tag * option error)
| EvTagInc (t : tags.Tag) (err : option error)
| EvSign (data : list byte) (r : error + list byte)
(* goroutines started and not awaited *)
| EvGoUnwrap (ch : swarm.Chunk)
| EvGoReplicate (peer : swarm.Address)
(* the handler's inner call of pushToClosest returned *)
| EvForwarded (ch : swarm.Chunk) (r : error + pb.Receipt)
(* metrics, logging, tracing *)
| EvMetricInc (name : string)
| EvLog (level format : string)
| EvSpanStart (name : string)
| EvSpanFinish.

(* ================================================================== *)
(** ** The collaborators *)

(** Each Go interface is a record of its methods.  The context a method is
    given is not an argument here: what a deadline or a cancellation does
    to the answer of a call is part of what the world decides. *)

Module pricer.
Record Interface (W : Type) : Type := {
  CheapestPeer : swarm.Address -> list swarm.Address -> bool -> W ->
                 (error + swarm.Address) * W;
  PeerPrice : swarm.Address -> swarm.Address -> W -> Z * W;
  PriceForPeer : swarm.Address -> swarm.Address -> W -> Z * W;
  NotifyPeerPrice : swarm.Address -> Z -> Z -> W -> option error * W
}.
End pricer.

Module accounting.
Record Interface (W : Type) : Type := {
  Reserve : swarm.Address -> Z -> W -> option error * W;
  Release : swarm.Address -> Z -> W -> W;
  Credit : swarm.Address -> Z -> W -> option error * W;
  Debit : swarm.Address -> Z -> W -> option error * W
}.
End accounting.

Module streamer.
(** [p2p.StreamerDisconnecter], with the methods of the streams it hands
    out and of the delimited readers and writers built on them. *)
Record Interface (W : Type) : Type := {
  NewStream : swarm.Address -> p2p.Headers -> string -> string -> string -> W ->
              (error + p2p.Stream) * W;
  Reset : p2p.Stream -> W -> W;
  FullClose : p2p.Stream -> W -> W;
  WriteDelivery : protobuf.Writer -> pb.Delivery -> W -> option error * W;
  ReadDelivery : protobuf.Reader -> W -> (error + pb.Delivery) * W;
  WriteReceipt : protobuf.Writer -> pb.Receipt -> W -> option error * W;
  ReadReceipt : protobuf.Reader -> W -> (error + pb.Receipt) * W
}.
End streamer.

Module storage.
Record Putter (W : Type) : Type := {
  Put : swarm.Chunk -> W -> option error * W
}.
End storage.

Module driver.
(** [topology.Driver]: the neighbours are enumerated in the order
    [Neighbors] gives, each with its proximity order. *)
Record Interface (W : Type) : Type := {
  IsWithinDepth : swarm.Address -> W -> bool * W;
  Neighbors : W -> list (swarm.Address * Z) * W
}.
End driver.

Module tagger.
Record Interface (W : Type) : Type := {
  Get : Z -> W -> (option tags.Tag * option error) * W;
  Inc : tags.Tag -> W -> option error * W
}.
End tagger.

Module crypto.
Record Signer (W : Type) : Type := {
  Sign : list byte -> W -> (error + list byte) * W
}.
End crypto.

Module context.
(** A context is polled: [Done] gives [ctx.Err()] once the context is
    cancelled or past its deadline. *)
Record Context (W : Type) : Type := {
  Done : W -> option error * W
}.
End context.

(** The package-level functions the code calls: pricing headers
    ([headerutils]), chunk validity ([cac], [soc]), distance comparison
    ([swarm.DistanceCmp], of which the handler drops the error), deriving a
    context with a timeout. *)
Record Externals (W : Type) : Type := {
  MakePricingHeaders : Z -> swarm.Address -> error + p2p.Headers;
  ParsePricingResponseHeaders : p2p.Headers -> error + (swarm.Address * Z * Z);
  ParsePriceHeader : p2p.Headers -> error + Z;
  cac_Valid : swarm.Chunk -> bool;
  soc_Valid : swarm.Chunk -> bool;
  DistanceCmp : list byte -> list byte -> list byte -> Z;
  WithTimeout : context.Context W -> Z -> context.Context W
}.

(** [type PushSync struct]. *)
Record PushSync (W : Type) : Type := {
  address : swarm.Address;
  streamer : streamer.Interface W;
  storer : storage.Putter W;
  topologyDriver : driver.Interface W;
  tagger : tagger.Interface W;
  unwrap : bool;                       (* whether an unwrap function is set *)
  accounting : accounting.Interface W;
  pricer : pricer.Interface W;
  signer : crypto.Signer W
}.

(* ================================================================== *)
(** ** Computations: world passing with a log *)

Section Computations.

Variable W : Type.

(** A computation takes the world and gives its result, the next world
    and the events it logged, oldest first. *)
Definition M (A : Type) : Type := W -> A * W * list Event.

Definition ret {A : Type} (a : A) : M A := fun w => (a, w, []).

Definition bind {A B : Type} (m : M A) (k : A -> M B) : M B :=
  fun w =>
    let '(a, w1, l1) := m w in
    let '(b, w2, l2) := k a w1 in
    (b, w2, l1 ++ l2).

(** A call of a collaborator, logged with its result. *)
Definition call {A : Type} (f : W -> A * W) (ev : A -> Event) : M A :=
  fun w => let '(a, w1) := f w in (a, w1, [ev a]).

(** A call of a function that does not touch the world, logged with its
    result. *)
Definition eval {A : Type} (a : A) (ev : A -> Event) : M A :=
  fun w => (a, w, [ev a]).

(** A call that returns nothing. *)
Definition exec (f : W -> W) (ev : Event) : M unit :=
  fun w => (tt, f w, [ev]).

(** An event with no effect on the world. *)
Definition emit (ev : Event) : M unit := fun w => (tt, w, [ev]).

End Computations.

Arguments ret {W A} & a.
Arguments bind {W A B} m k.
Arguments call {W A} f ev.
Arguments eval {W A} a ev.
Arguments exec {W} f ev.
Arguments emit {W} ev.

Declare Scope comp_scope.
Delimit Scope comp_scope with comp.
Notation "x <- m ;; k" := (bind m (fun x => k))
  (at level 100, m at next level, right associativity) : comp_scope.
Notation "m ;;; k" := (bind m (fun _ => k))
  (at level 100, right associativity) : comp_scope.
Local Open Scope comp_scope.

(* ================================================================== *)
(** ** The origin push loop *)

(** The cleanup closures [pushToClosest] appends to [deferFuncs]. *)
Inductive Deferred : Type :=
| DeferLogLastErr                                       (* lines 331-336 *)
| DeferFullClose (streamer : p2p.Stream)                (* line 352 *)
| DeferRelease (peer : swarm.Address) (receiptPrice : Z) (* line 388 *)
| DeferCancel.                                          (* line 392 *)

(** The variables of [pushToClosest] that live across iterations. *)
Record Locals : Type := {
  skipPeers : list swarm.Address;
  lastErr : option error;
  deferFuncs : list Deferred
}.

Definition append_defer (d : Deferred) (l : Locals) : Locals :=
  {| skipPeers := skipPeers l; lastErr := lastErr l;
     deferFuncs := deferFuncs l ++ [d] |}.

Definition set_lastErr (e : error) (l : Locals) : Locals :=
  {| skipPeers := skipPeers l; lastErr := Some e; deferFuncs := deferFuncs l |}.

Definition append_skipPeers (peer : swarm.Address) (l : Locals) : Locals :=
  {| skipPeers := skipPeers l ++ [peer]; lastErr := lastErr l;
     deferFuncs := deferFuncs l |}.

Definition clear_defers (l : Locals) : Locals :=
  {| skipPeers := skipPeers l; lastErr := lastErr l; deferFuncs := [] |}.

(** How an iteration of the loop ends: [continue], or [return]. *)
Inductive Control : Type :=
| Continue
| Return (r : error + pb.Receipt).

(** How the loop ends: the budget is spent, or an iteration returned. *)
Inductive LoopExit : Type :=
| Exhausted
| Returned (r : error + pb.Receipt).

(** The log of a call of [pushToClosest]: what was logged before the loop,
    by each iteration, and after the loop (with the deferred calls). *)
Record RunLog : Type := {
  prologue : list Event;
  iterations : list (list Event);
  epilogue : list Event
}.

(** The whole log of a call, in order. *)
Definition trace (r : RunLog) : list Event :=
  prologue r ++ List.concat (iterations r) ++ epilogue r.

Section PushToClosest.

Variable W : Type.
Variable ext : Externals W.
Variable ps : PushSync W.

(** One closure of [deferFuncs].  The first one reads [lastErr] when it
    runs, not when it was appended. *)
Definition run_deferred (lastErr : option error) (d : Deferred) : M W unit :=
  match d with
  | DeferLogLastErr =>
      match lastErr with
      | Some _ => emit (EvMetricInc "TotalErrors") ;;;
                  emit (EvLog "error" "pushsync: %v")
      | None => ret tt
      end
  | DeferFullClose streamer => emit (EvGoFullClose streamer)
  | DeferRelease peer receiptPrice =>
      exec (accounting.Release (accounting ps) peer receiptPrice)
           (EvRelease peer receiptPrice)
  | DeferCancel => emit EvCancel
  end.

Fixpoint run_all (lastErr : option error) (ds : list Deferred) : M W unit :=
  match ds with
  | [] => ret tt
  | d :: ds' => run_deferred lastErr d ;;; run_all lastErr ds'
  end.

(** [defersFn] (lines 303-310): run the closures in the order they were
    appended, then empty the list. *)
Definition defersFn (l : Locals) : M W Locals :=
  run_all (lastErr l) (deferFuncs l) ;;; ret (clear_defers l).

(** Lines 362-378: the price the peer returned against the price proposed.
    [None] is [continue]; otherwise the price the attempt goes on with. *)
Definition reconcile_price (ch : swarm.Chunk) (l : Locals) (peer : swarm.Address)
    (receiptPrice returnedPrice returnedIndex : Z) : M W (option Z) :=
  if negb (returnedPrice =? receiptPrice) then
    err <- call (pricer.NotifyPeerPrice (pricer ps) peer returnedPrice returnedIndex)
                (EvNotifyPeerPrice peer returnedPrice returnedIndex) ;;
    match err with
    | Some _ => ret None
    | None =>
        r <- call (pricer.CheapestPeer (pricer ps) (swarm.chunk_Address ch)
                     (skipPeers l) false)
                  (EvCheapestPeer (swarm.chunk_Address ch) (skipPeers l) false) ;;
        match r with
        | inr currentCheapestPeer =>
            if negb (swarm.Equal currentCheapestPeer peer) then ret None
            else ret (Some returnedPrice)
        | inl _ => ret (Some returnedPrice)
        end
    end
  else ret (Some receiptPrice).

(** Lines 380-433: the peer is put on the skip list, the price reserved,
    the chunk delivered and the receipt awaited. *)
Definition deliver (ch : swarm.Chunk) (l : Locals) (peer : swarm.Address)
    (streamer_ : p2p.Stream) (receiptPrice : Z) : M W (Control * Locals) :=
  let l := append_skipPeers peer l in
  err <- call (accounting.Reserve (accounting ps) peer receiptPrice)
              (EvReserve peer receiptPrice) ;;
  match err with
  | Some err =>
      ret (Return (inl (fmt_Errorf_w "reserve balance for peer %s: %w"
                          [ArgAddress peer] err)), l)
  | None =>
      let l := append_defer (DeferRelease peer receiptPrice) l in
      let '(w, r) := protobuf.NewWriterAndReader streamer_ in
      emit (EvWithTimeout timeToLive) ;;;
      let l := append_defer DeferCancel l in
      let delivery := {| pb.Delivery_Address := swarm.Bytes (swarm.chunk_Address ch);
                         pb.Data := swarm.chunk_Data ch |} in
      err <- call (streamer.WriteDelivery (streamer ps) w delivery)
                  (EvWriteDelivery streamer_ delivery) ;;
      match err with
      | Some err =>
          exec (streamer.Reset (streamer ps) streamer_) (EvReset streamer_) ;;;
          ret (Continue,
               set_lastErr (fmt_Errorf_w "chunk %s deliver to peer %s: %w"
                              [ArgAddress (swarm.chunk_Address ch); ArgAddress peer] err) l)
      | None =>
          emit (EvMetricInc "TotalSent") ;;;
          t <- call (tagger.Get (tagger ps) (swarm.chunk_TagID ch))
                    (EvTagGet (swarm.chunk_TagID ch)) ;;
          tagErr <- match t with
                    | (Some t, None) =>
                        call (tagger.Inc (tagger ps) t) (EvTagInc t)
                    | _ => ret None
                    end ;;
          match tagErr with
          | Some err =>
              let lastErr := fmt_Errorf_v "tag %d increment: %v"
                               [ArgUint (swarm.chunk_TagID ch)] err in
              ret (Return (inl lastErr), set_lastErr lastErr l)
          | None =>
              rc <- call (streamer.ReadReceipt (streamer ps) r)
                         (EvReadReceipt streamer_) ;;
              match rc with
              | inl err =>
                  exec (streamer.Reset (streamer ps) streamer_) (EvReset streamer_) ;;;
                  ret (Continue,
                       set_lastErr
                         (fmt_Errorf_w "chunk %s receive receipt from peer %s: %w"
                            [ArgAddress (swarm.chunk_Address ch); ArgAddress peer] err) l)
              | inr receipt =>
                  if negb (swarm.Equal (swarm.chunk_Address ch)
                             (swarm.NewAddress (pb.Receipt_Address receipt)))
                  then
                    ret (Continue,
                         set_lastErr (fmt_Errorf "invalid receipt. chunk %s, peer %s"
                                        [ArgAddress (swarm.chunk_Address ch);
                                         ArgAddress peer]) l)
                  else
                    err <- call (accounting.Credit (accounting ps) peer receiptPrice)
                                (EvCredit peer receiptPrice) ;;
                    match err with
                    | Some err => ret (Return (inl err), l)
                    | None => ret (Return (inr receipt), l)
                    end
              end
          end
      end
  end.

(** Lines 322-433: the body of the loop after the cleanup of the previous
    iteration. *)
Definition attempt (ch : swarm.Chunk) (l : Locals) : M W (Control * Locals) :=
  r <- call (pricer.CheapestPeer (pricer ps) (swarm.chunk_Address ch) (skipPeers l) false)
            (EvCheapestPeer (swarm.chunk_Address ch) (skipPeers l) false) ;;
  match r with
  | inl err => ret (Return (inl (fmt_Errorf_w "closest peer: %w" [] err)), l)
  | inr peer =>
      let l := append_defer DeferLogLastErr l in
      receiptPrice <- call (pricer.PeerPrice (pricer ps) peer (swarm.chunk_Address ch))
                           (EvPeerPrice peer (swarm.chunk_Address ch)) ;;
      h <- eval (MakePricingHeaders ext receiptPrice (swarm.chunk_Address ch))
                (EvMakePricingHeaders receiptPrice (swarm.chunk_Address ch)) ;;
      match h with
      | inl _ => ret (Continue, l)
      | inr headers =>
          s <- call (streamer.NewStream (streamer ps) peer headers
                       protocolName protocolVersion streamName)
                    (EvNewStream peer headers) ;;
          match s with
          | inl err =>
              ret (Continue,
                   set_lastErr (fmt_Errorf_w "new stream for peer %s: %w"
                                  [ArgAddress peer] err) l)
          | inr streamer_ =>
              let l := append_defer (DeferFullClose streamer_) l in
              let returnedHeaders := p2p.stream_Headers streamer_ in
              parsed <- eval (ParsePricingResponseHeaders ext returnedHeaders)
                             (EvParsePricingResponseHeaders returnedHeaders) ;;
              match parsed with
              | inl _ => ret (Continue, l)
              | inr (_, returnedPrice, returnedIndex) =>
                  p <- reconcile_price ch l peer receiptPrice returnedPrice returnedIndex ;;
                  match p with
                  | None => ret (Continue, l)
                  | Some receiptPrice => deliver ch l peer streamer_ receiptPrice
                  end
              end
          end
      end
  end.

(** One iteration (lines 313-434): poll the context, run the cleanup of
    the previous iteration, attempt the next peer. *)
Definition iteration (ctx : context.Context W) (ch : swarm.Chunk) (l : Locals)
    : M W (Control * Locals) :=
  done <- call (context.Done ctx) EvCtxDone ;;
  match done with
  | Some err => ret (Return (inl err), l)
  | None =>
      l <- defersFn l ;;
      attempt ch l
  end.

(** The loop, with [n] iterations left; it gives the log of each
    iteration it ran. *)
Fixpoint loop (ctx : context.Context W) (ch : swarm.Chunk) (n : nat) (l : Locals)
    (w : W) : LoopExit * Locals * W * list (list Event) :=
  match n with
  | O => (Exhausted, l, w, [])
  | S n' =>
      let '(ctl, l1, w1, evs) := iteration ctx ch l w in
      match ctl with
      | Return r => (Returned r, l1, w1, [evs])
      | Continue =>
          let '(x, l2, w2, its) := loop ctx ch n' l1 w1 in
          (x, l2, w2, evs :: its)
      end
  end.

Definition initial : Locals :=
  {| skipPeers := []; lastErr := None; deferFuncs := [] |}.

(** What the code after the loop returns (lines 436-442). *)
Definition exhausted_result (l : Locals) : error + pb.Receipt :=
  match lastErr l with
  | Some e => inl e
  | None => inl topology.ErrNotFound
  end.

(** [pushToClosest].  The value returned is fixed first; then the deferred
    [defersFn] runs, then the deferred [span.Finish]. *)
Definition pushToClosest (ctx : context.Context W) (ch : swarm.Chunk) (w : W)
    : (error + pb.Receipt) * W * RunLog :=
  let '(x, l, w1, its) := loop ctx ch maxPeers initial w in
  let '(res, after) :=
    match x with
    | Returned r => (r, [])
    | Exhausted =>
        (exhausted_result l, [EvLog "trace" "pushsync: chunk %s: reached %v peers"])
    end in
  let '(_, w2, cleanup) := (defersFn l ;;; emit EvSpanFinish) w1 in
  (res, w2, {| prologue := [EvSpanStart "push-closest"];
               iterations := its;
               epilogue := after ++ cleanup |}).

(** [PushChunkToClosest]. *)
Definition PushChunkToClosest (ctx : context.Context W) (ch : swarm.Chunk) (w : W)
    : (error + Receipt) * W * RunLog :=
  let '(r, w1, log) := pushToClosest ctx ch w in
  match r with
  | inl err => (inl err, w1, log)
  | inr r => (inr {| Address := swarm.NewAddress (pb.Receipt_Address r);
                     Signature := pb.Signature r |}, w1, log)
  end.

End PushToClosest.

(* ================================================================== *)
(** ** The relay handler *)

Section Handler.

Variable W : Type.
Variable ext : Externals W.
Variable ps : PushSync W.

(** The inner call of [pushToClosest]: its log flattened, then what it
    returned. *)
Definition pushToClosest_call (ctx : context.Context W) (ch : swarm.Chunk)
    : M W (error + pb.Receipt) :=
  fun w =>
    let '(r, w1, log) := pushToClosest ext ps ctx ch w in
    (r, w1, trace log ++ [EvForwarded ch r]).

(** The function given to [EachNeighbor] (lines 182-251), with the
    counter [count] it closes over.  The goroutine it starts is not
    awaited: starting it is an event, and what it does is no part of the
    handler's control flow. *)
Definition visit_neighbor (p : p2p.Peer) (count : nat) (peer : swarm.Address) (po : Z)
    : M W ((bool * bool * option error) * nat) :=
  if swarm.Equal peer (p2p.Address p) then ret ((false, false, None), count)
  else if Nat.eqb count nPeersToPushsync then ret ((true, false, None), count)
  else emit (EvGoReplicate peer) ;;; ret ((false, false, None), S count).

(** Modelled from the spec: [EachNeighbor] of the topology driver, which
    is not among the sources.  It "enumerates neighbor peers with
    early-stop support": the neighbours are visited in order until the
    visitor asks to stop or fails. *)
Fixpoint each_peer {S : Type}
    (visit : S -> swarm.Address -> Z -> M W ((bool * bool * option error) * S))
    (peers : list (swarm.Address * Z)) (s : S) : M W (option error * S) :=
  match peers with
  | [] => ret (None, s)
  | (peer, po) :: rest =>
      r <- visit s peer po ;;
      let '((stop, _, err), s1) := r in
      match err with
      | Some e => ret (Some e, s1)
      | None => if (stop : bool) then ret (None, s1) else each_peer visit rest s1
      end
  end.

Definition EachNeighbor {S : Type}
    (visit : S -> swarm.Address -> Z -> M W ((bool * bool * option error) * S))
    (s : S) : M W (option error * S) :=
  peers <- call (driver.Neighbors (topologyDriver ps)) EvEachNeighbor ;;
  each_peer visit peers s.

(** Lines 174-267: this node is the closest one. *)
Definition terminal (p : p2p.Peer) (w : protobuf.Writer) (ch : pb.Delivery)
    (chunk : swarm.Chunk) (price : Z) : M W (option error) :=
  err <- call (storage.Put (storer ps) chunk) (EvPut chunk) ;;
  match err with
  | Some err => ret (Some (fmt_Errorf_w "chunk store: %w" [] err))
  | None =>
      r <- EachNeighbor (visit_neighbor p) O ;;
      (match fst r with
       | Some _ => emit (EvLog "trace" "pushsync replication closest peer: %w")
       | None => ret tt
       end) ;;;
      sig <- call (crypto.Sign (signer ps) (pb.Delivery_Address ch))
                  (EvSign (pb.Delivery_Address ch)) ;;
      match sig with
      | inl err => ret (Some (fmt_Errorf_w "receipt signature: %w" [] err))
      | inr signature =>
          let receipt := {| pb.Receipt_Address := swarm.Bytes (swarm.chunk_Address chunk);
                            pb.Signature := signature |} in
          err <- call (streamer.WriteReceipt (streamer ps) w receipt)
                      (EvWriteReceipt (protobuf.writer_stream w) receipt) ;;
          match err with
          | Some err =>
              ret (Some (fmt_Errorf_w "send receipt to peer %s: %w"
                           [ArgAddress (p2p.Address p)] err))
          | None =>
              call (accounting.Debit (accounting ps) (p2p.Address p) price)
                   (EvDebit (p2p.Address p) price)
          end
      end
  end.

(** Lines 160-278: this node forwards the chunk. *)
Definition forward (ctx : context.Context W) (p : p2p.Peer) (w : protobuf.Writer)
    (ch : pb.Delivery) (chunk : swarm.Chunk) (price : Z) : M W (option error) :=
  within <- call (driver.IsWithinDepth (topologyDriver ps) (swarm.chunk_Address chunk))
                 (EvIsWithinDepth (swarm.chunk_Address chunk)) ;;
  (if (within : bool) then
     err <- call (storage.Put (storer ps) chunk) (EvPut chunk) ;;
     match err with
     | Some _ => emit (EvLog "warning"
                   "pushsync: within depth peer's attempt to store chunk failed: %v")
     | None => ret tt
     end
   else ret tt) ;;;
  emit (EvSpanStart "pushsync-handler") ;;;
  res <- (r <- pushToClosest_call ctx chunk ;;
          match r with
          | inl err =>
              if errors_Is err topology.ErrWantSelf
              then terminal p w ch chunk price
              else ret (Some (fmt_Errorf_w "handler: push to closest: %w" [] err))
          | inr receipt =>
              err <- call (streamer.WriteReceipt (streamer ps) w receipt)
                          (EvWriteReceipt (protobuf.writer_stream w) receipt) ;;
              match err with
              | Some err =>
                  ret (Some (fmt_Errorf_w "send receipt to peer %s: %w"
                               [ArgAddress (p2p.Address p)] err))
              | None =>
                  call (accounting.Debit (accounting ps) (p2p.Address p) price)
                       (EvDebit (p2p.Address p) price)
              end
          end) ;;
  emit EvSpanFinish ;;;
  ret res.

(** Lines 146-158: the upstream peer is closer to the chunk than this
    node, which was chosen for replication. *)
Definition replicated (p : p2p.Peer) (chunk : swarm.Chunk) (price : Z)
    : M W (option error) :=
  within <- call (driver.IsWithinDepth (topologyDriver ps) (swarm.chunk_Address chunk))
                 (EvIsWithinDepth (swarm.chunk_Address chunk)) ;;
  if (within : bool) then
    err <- call (storage.Put (storer ps) chunk) (EvPut chunk) ;;
    (match err with
     | Some _ => emit (EvLog "error" "pushsync: chunk store: %v")
     | None => ret tt
     end) ;;;
    call (accounting.Debit (accounting ps) (p2p.Address p) price)
         (EvDebit (p2p.Address p) price)
  else ret (Some ErrOutOfDepthReplication).

(** Lines 121-278: the handler between its deferred calls. *)
Definition handle (ctx : context.Context W) (p : p2p.Peer) (stream : p2p.Stream)
    (w : protobuf.Writer) (r : protobuf.Reader) : M W (option error) :=
  d <- call (streamer.ReadDelivery (streamer ps) r) (EvReadDelivery stream) ;;
  match d with
  | inl err => ret (Some (fmt_Errorf_w "pushsync read delivery: %w" [] err))
  | inr ch =>
      emit (EvMetricInc "TotalReceived") ;;;
      let chunk := swarm.NewChunk (swarm.NewAddress (pb.Delivery_Address ch)) (pb.Data ch) in
      valid <- (if cac_Valid ext chunk then
                  (if unwrap ps then emit (EvGoUnwrap chunk) else ret tt) ;;; ret true
                else if negb (soc_Valid ext chunk) then ret false
                else ret true) ;;
      if (valid : bool) then
        let responseHeaders := p2p.stream_ResponseHeaders stream in
        parsed <- eval (ParsePriceHeader ext responseHeaders)
                       (EvParsePriceHeader responseHeaders) ;;
        price <- match parsed with
                 | inr price => ret price
                 | inl _ =>
                     emit (EvLog "warning"
                       "pushsync: peer %v no price in previously issued response headers: %v") ;;;
                     call (pricer.PriceForPeer (pricer ps) (p2p.Address p)
                             (swarm.chunk_Address chunk))
                          (EvPriceForPeer (p2p.Address p) (swarm.chunk_Address chunk))
                 end ;;
        if DistanceCmp ext (swarm.Bytes (swarm.chunk_Address chunk))
                       (swarm.Bytes (p2p.Address p)) (swarm.Bytes (address ps)) =? 1
        then replicated p chunk price
        else forward ctx p w ch chunk price
      else ret (Some swarm_ErrInvalidChunk)
  end.

(** [handler].  The deferred calls run in reverse: the stream is reset
    when an error is returned and closed otherwise, then the timeout is
    cancelled. *)
Definition handler (ctx : context.Context W) (p : p2p.Peer) (stream : p2p.Stream)
    : M W (option error) :=
  let '(w, r) := protobuf.NewWriterAndReader stream in
  let ctx := WithTimeout ext ctx timeToLive in
  emit (EvWithTimeout timeToLive) ;;;
  err <- handle ctx p stream w r ;;
  (match err with
   | Some _ => emit (EvMetricInc "TotalErrors") ;;;
               exec (streamer.Reset (streamer ps) stream) (EvReset stream)
   | None => exec (streamer.FullClose (streamer ps) stream) (EvFullClose stream)
   end) ;;;
  emit EvCancel ;;;
  ret err.

End Handler.

(* ================================================================== *)
(** ** Reading a log *)

(** The values [f] picks out of a log, in order. *)
Fixpoint collect {A : Type} (f : Event -> option A) (evs : list Event) : list A :=
  match evs with
  | [] => []
  | e :: evs' =>
      match f e with
      | Some a => a :: collect f evs'
      | None => collect f evs'
      end
  end.

(** Reservations made: the calls of [Reserve] that returned no error. *)
Definition reserved (e : Event) : option (swarm.Address * Z) :=
  match e with EvReserve peer price None => Some (peer, price) | _ => None end.

(** Every call of [Reserve], made or refused. *)
Definition reserve_call (e : Event) : option (swarm.Address * Z * option error) :=
  match e with EvReserve peer price err => Some (peer, price, err) | _ => None end.

Definition released (e : Event) : option (swarm.Address * Z) :=
  match e with EvRelease peer price => Some (peer, price) | _ => None end.

Definition credit_call (e : Event) : option (swarm.Address * Z * option error) :=
  match e with EvCredit peer price err => Some (peer, price, err) | _ => None end.

(** The skip list of every [CheapestPeer] query. *)
Definition queried (e : Event) : option (list swarm.Address) :=
  match e with EvCheapestPeer _ skip _ _ => Some skip | _ => None end.

(** The result of every [CheapestPeer] query. *)
Definition selected (e : Event) : option (error + swarm.Address) :=
  match e with EvCheapestPeer _ _ _ r => Some r | _ => None end.

(** The peers a stream was requested to. *)
Definition dialed (e : Event) : option swarm.Address :=
  match e with EvNewStream peer _ _ => Some peer | _ => None end.

Definition delivered (e : Event) : option pb.Delivery :=
  match e with EvWriteDelivery _ d _ => Some d | _ => None end.

Definition polled (e : Event) : option (option error) :=
  match e with EvCtxDone err => Some err | _ => None end.

Definition replicated_to (e : Event) : option swarm.Address :=
  match e with EvGoReplicate peer => Some peer | _ => None end.

Definition stored (e : Event) : option swarm.Chunk :=
  match e with EvPut ch _ => Some ch | _ => None end.

Definition debit_call (e : Event) : option (swarm.Address * Z * option error) :=
  match e with EvDebit peer price err => Some (peer, price, err) | _ => None end.

Definition forwarded (e : Event) : option (swarm.Chunk * (error + pb.Receipt)) :=
  match e with EvForwarded ch r => Some (ch, r) | _ => None end.

Definition depth_checked (e : Event) : option (swarm.Address * bool) :=
  match e with EvIsWithinDepth addr within => Some (addr, within) | _ => None end.

(** The pricing headers could not be built, or those the peer answered
    could not be parsed. *)
Definition header_failure (e : Event) : bool :=
  match e with
  | EvMakePricingHeaders _ _ (inl _) => true
  | EvParsePricingResponseHeaders _ (inl _) => true
  | _ => false
  end.

(** The events [pushToClosest] logs. *)
Definition is_push_event (e : Event) : bool :=
  match e with
  | EvCtxDone _ | EvWithTimeout _ | EvCancel
  | EvCheapestPeer _ _ _ _ | EvPeerPrice _ _ _ | EvNotifyPeerPrice _ _ _ _
  | EvMakePricingHeaders _ _ _ | EvParsePricingResponseHeaders _ _
  | EvNewStream _ _ _ | EvGoFullClose _ | EvReset _
  | EvWriteDelivery _ _ _ | EvReadReceipt _ _
  | EvReserve _ _ _ | EvRelease _ _ | EvCredit _ _ _
  | EvTagGet _ _ | EvTagInc _ _
  | EvMetricInc _ | EvLog _ _ | EvSpanStart _ | EvSpanFinish => true
  | _ => false
  end.

(** The events of cleanup: what the closures of [deferFuncs] and the
    deferred [span.Finish] log, and the trace line after the loop. *)
Definition is_cleanup (e : Event) : bool :=
  match e with
  | EvMetricInc _ | EvLog _ _ | EvGoFullClose _ | EvRelease _ _ | EvCancel
  | EvSpanFinish => true
  | _ => false
  end.

(** The reservations the closures of [deferFuncs] will release. *)
Fixpoint pending (ds : list Deferred) : list (swarm.Address * Z) :=
  match ds with
  | [] => []
  | DeferRelease peer price :: ds' => (peer, price) :: pending ds'
  | _ :: ds' => pending ds'
  end.

(** The error an event makes the loop record in [lastErr], for the peer
    of the attempt. *)
Definition recorded_by (ch : swarm.Chunk) (peer : swarm.Address) (e : Event)
    : option error :=
  match e with
  | EvNewStream _ _ (inl err) =>
      Some (fmt_Errorf_w "new stream for peer %s: %w" [ArgAddress peer] err)
  | EvWriteDelivery _ _ (Some err) =>
      Some (fmt_Errorf_w "chunk %s deliver to peer %s: %w"
              [ArgAddress (swarm.chunk_Address ch); ArgAddress peer] err)
  | EvTagInc _ (Some err) =>
      Some (fmt_Errorf_v "tag %d increment: %v" [ArgUint (swarm.chunk_TagID ch)] err)
  | EvReadReceipt _ (inl err) =>
      Some (fmt_Errorf_w "chunk %s receive receipt from peer %s: %w"
              [ArgAddress (swarm.chunk_Address ch); ArgAddress peer] err)
  | EvReadReceipt _ (inr receipt) =>
      if swarm.Equal (swarm.chunk_Address ch) (swarm.NewAddress (pb.Receipt_Address receipt))
      then None
      else Some (fmt_Errorf "invalid receipt. chunk %s, peer %s"
                   [ArgAddress (swarm.chunk_Address ch); ArgAddress peer])
  | _ => None
  end.

(** The error one iteration records, read off its log: the peer is the one
    the iteration dialed. *)
Definition recorded (ch : swarm.Chunk) (it : list Event) : option error :=
  match collect dialed it with
  | peer :: _ => hd_error (collect (recorded_by ch peer) it)
  | [] => None
  end.

(** The last error recorded by a sequence of iterations, after [start]. *)
Fixpoint last_recorded (ch : swarm.Chunk) (start : option error)
    (its : list (list Event)) : option error :=
  match its with
  | [] => start
  | it :: its' =>
      last_recorded ch (match recorded ch it with Some e => Some e | None => start end) its'
  end.

(** What the call returns once the budget is spent: the last error the
    iterations recorded, or [ErrNotFound]. *)
Definition budget_spent (ch : swarm.Chunk) (its : list (list Event))
    : error + pb.Receipt :=
  match last_recorded ch None its with
  | Some e => inl e
  | None => inl topology.ErrNotFound
  end.

(** The peer of a call of [Reserve] or [Credit]. *)
Definition peer_of (c : swarm.Address * Z * option error) : swarm.Address :=
  fst (fst c).

Definition signed (e : Event) : option (list byte * (error + list byte)) :=
  match e with EvSign data r => Some (data, r) | _ => None end.

Definition receipt_written (e : Event) : option (p2p.Stream * pb.Receipt * option error) :=
  match e with EvWriteReceipt s rc err => Some (s, rc, err) | _ => None end.

(* ================================================================== *)
(** ** A scripted node, to run the code on *)

Module Mock.

(** The world counts the calls of [CheapestPeer] made so far. *)
Definition World : Type := nat.

Definition self : swarm.Address := swarm.NewAddress [x01].
Definition upstream : swarm.Address := swarm.NewAddress [x02].
Definition peerA : swarm.Address := swarm.NewAddress [x0a].
Definition peerB : swarm.Address := swarm.NewAddress [x0b].
Definition peerC : swarm.Address := swarm.NewAddress [x0c].
Definition peerD : swarm.Address := swarm.NewAddress [x0d].
Definition peerE : swarm.Address := swarm.NewAddress [x0e].

Definition chunkAddress : swarm.Address := swarm.NewAddress [xc0; xc1].
Definition chunk : swarm.Chunk := swarm.NewChunk chunkAddress [x68; x69].
Definition delivery : pb.Delivery :=
  {| pb.Delivery_Address := swarm.Bytes chunkAddress; pb.Data := swarm.chunk_Data chunk |}.

Definition boom : error := errors_New "boom".

(** What the collaborators answer. *)
Record Script : Type := {
  select : nat -> list swarm.Address -> error + swarm.Address;
  headers_ok : bool;       (* MakePricingHeaders succeeds *)
  dial_ok : bool;          (* NewStream succeeds *)
  parse_ok : bool;         (* ParsePricingResponseHeaders succeeds *)
  returned_price : Z;      (* the price the peer answers; 7 is proposed *)
  reserve_ok : bool;
  receipt : error + pb.Receipt;
  closer : bool;           (* the upstream peer is closer than this node *)
  within : bool;           (* the chunk is within depth *)
  neighbors : list (swarm.Address * Z)
}.

(** The first of [peers] that is not on the skip list. *)
Fixpoint pick (peers skip : list swarm.Address) : error + swarm.Address :=
  match peers with
  | [] => inl topology.ErrNotFound
  | p :: peers' => if existsb (swarm.Equal p) skip then pick peers' skip else inr p
  end.

Definition answer (ok : bool) : option error := if ok then None else Some boom.

Definition stream_to (peer : swarm.Address) : p2p.Stream :=
  {| p2p.stream_id := length (swarm.Bytes peer);
     p2p.stream_Headers := [("price", swarm.Bytes peer)];
     p2p.stream_ResponseHeaders := [] |}.

Definition inbound : p2p.Stream :=
  {| p2p.stream_id := 0;
     p2p.stream_Headers := [];
     p2p.stream_ResponseHeaders := [("price", [x03])] |}.

Definition ctx : context.Context World := {| context.Done := fun w => (None, w) |}.

Definition ext (s : Script) : Externals World :=
  {| MakePricingHeaders := fun price addr =>
       if headers_ok s then inr [("price", swarm.Bytes addr)] else inl boom;
     ParsePricingResponseHeaders := fun _ =>
       if parse_ok s then inr (chunkAddress, returned_price s, 0) else inl boom;
     ParsePriceHeader := fun _ => inr 3;
     cac_Valid := fun _ => true;
     soc_Valid := fun _ => false;
     DistanceCmp := fun _ _ _ => if closer s then 1 else (-1);
     WithTimeout := fun c _ => c |}.

Definition ps (s : Script) : PushSync World :=
  {| address := self;
     streamer :=
       {| streamer.NewStream := fun peer _ _ _ _ w =>
            (if dial_ok s then inr (stream_to peer) else inl boom, w);
          streamer.Reset := fun _ w => w;
          streamer.FullClose := fun _ w => w;
          streamer.WriteDelivery := fun _ _ w => (None, w);
          streamer.ReadDelivery := fun _ w => (inr delivery, w);
          streamer.WriteReceipt := fun _ _ w => (None, w);
          streamer.ReadReceipt := fun _ w => (receipt s, w) |};
     storer := {| storage.Put := fun _ w => (None, w) |};
     topologyDriver :=
       {| driver.IsWithinDepth := fun _ w => (within s, w);
          driver.Neighbors := fun w => (neighbors s, w) |};
     tagger :=
       {| tagger.Get := fun _ w => ((None, None), w);
          tagger.Inc := fun _ w => (None, w) |};
     unwrap := false;
     accounting :=
       {| accounting.Reserve := fun _ _ w => (answer (reserve_ok s), w);
          accounting.Release := fun _ _ w => w;
          accounting.Credit := fun _ _ w => (None, w);
          accounting.Debit := fun _ _ w => (None, w) |};
     pricer :=
       {| pricer.CheapestPeer := fun _ skip _ w => (select s w skip, S w);
          pricer.PeerPrice := fun _ _ w => (7, w);
          pricer.PriceForPeer := fun _ _ w => (3, w);
          pricer.NotifyPeerPrice := fun _ _ _ w => (None, w) |};
     signer := {| crypto.Sign := fun _ w => (inr [x51], w) |} |}.

Definition signature : list byte := [x51; x52].

Definition good_receipt : pb.Receipt :=
  {| pb.Receipt_Address := swarm.Bytes chunkAddress; pb.Signature := signature |}.

(** Every call succeeds; peer A is the only peer. *)
Definition happy : Script :=
  {| select := fun _ skip => pick [peerA] skip;
     headers_ok := true; dial_ok := true; parse_ok := true;
     returned_price := 7; reserve_ok := true;
     receipt := inr good_receipt;
     closer := false; within := true;
     neighbors := [] |}.

(** No stream can be opened. *)
Definition unreachable : Script :=
  {| select := fun _ skip => pick [peerA] skip;
     headers_ok := true; dial_ok := false; parse_ok := true;
     returned_price := 7; reserve_ok := true;
     receipt := inr good_receipt;
     closer := false; within := true;
     neighbors := [] |}.


(** As [unreachable], but the stream opens and the peer's pricing headers
    cannot be parsed. *)
Definition no_price : Script :=
  {| select := fun _ skip => pick [peerA] skip;
     headers_ok := true; dial_ok := true; parse_ok := false;
     returned_price := 7; reserve_ok := true;
     receipt := inr good_receipt;
     closer := false; within := true;
     neighbors := [] |}.

(** The pricing headers cannot be built. *)
Definition no_headers : Script :=
  {| select := fun _ skip => pick [peerA] skip;
     headers_ok := false; dial_ok := true; parse_ok := true;
     returned_price := 7; reserve_ok := true;
     receipt := inr good_receipt;
     closer := false; within := true;
     neighbors := [] |}.

(** The balance cannot be reserved. *)
Definition no_balance : Script :=
  {| select := fun _ skip => pick [peerA; peerB] skip;
     headers_ok := true; dial_ok := true; parse_ok := true;
     returned_price := 7; reserve_ok := false;
     receipt := inr good_receipt;
     closer := false; within := true;
     neighbors := [] |}.

(** Every peer answers with a receipt for another chunk. *)
Definition bad_receipts : Script :=
  {| select := fun _ skip => pick [peerA; peerB; peerC; peerD; peerE] skip;
     headers_ok := true; dial_ok := true; parse_ok := true;
     returned_price := 7; reserve_ok := true;
     receipt := inr {| pb.Receipt_Address := [x00]; pb.Signature := signature |};
     closer := false; within := true;
     neighbors := [] |}.

(** The peers answer 9 for the 7 proposed; the cheapest peer is A at the
    first query and B from then on. *)
Definition repriced : Script :=
  {| select := fun n _ => match n with O => inr peerA | _ => inr peerB end;
     headers_ok := true; dial_ok := true; parse_ok := true;
     returned_price := 9; reserve_ok := true;
     receipt := inr good_receipt;
     closer := false; within := true;
     neighbors := [] |}.

(** This node is the closest: there is no peer to forward to.  Its
    neighbours include the upstream peer. *)
Definition closest : Script :=
  {| select := fun _ _ => inl topology.ErrWantSelf;
     headers_ok := true; dial_ok := true; parse_ok := true;
     returned_price := 7; reserve_ok := true;
     receipt := inr good_receipt;
     closer := false; within := true;
     neighbors := [(peerA, 1); (upstream, 1); (peerB, 2); (peerC, 2); (peerD, 3);
                   (peerE, 3)] |}.

(** The upstream peer is closer to the chunk than this node. *)
Definition replica (in_depth : bool) : Script :=
  {| select := fun _ skip => pick [peerA] skip;
     headers_ok := true; dial_ok := true; parse_ok := true;
     returned_price := 7; reserve_ok := true;
     receipt := inr good_receipt;
     closer := true; within := in_depth;
     neighbors := [] |}.

Definition from_upstream : p2p.Peer := {| p2p.Address := upstream |}.

End Mock.

(* ================================================================== *)
(** ** The replication goroutine *)

(** What the goroutine of lines 194-248 logs: events of [Event], and the
    deferred [Close] of the stream it opened. *)
Inductive GoEvent : Type :=
| Go (e : Event)
| GoClose (s : p2p.Stream).

Section Replication.

Variable W : Type.
Variable ext : Externals W.
Variable ps : PushSync W.

(** [Close] of a stream; the error it returns is dropped by [defer]. *)
Variable Close : p2p.Stream -> W -> W.

(** Lines 206-219: the pricing headers are made for the price 0 and the
    stream is opened. *)
Definition replicate_open (chunk : swarm.Chunk) (peer : swarm.Address)
    : M W (error + p2p.Stream) :=
  let receiptPrice := 0 in
  h <- eval (MakePricingHeaders ext receiptPrice (swarm.chunk_Address chunk))
            (EvMakePricingHeaders receiptPrice (swarm.chunk_Address chunk)) ;;
  match h with
  | inl err => ret (inl (fmt_Errorf_w "make pricing headers: %w" [] err))
  | inr headers =>
      s <- call (streamer.NewStream (streamer ps) peer headers
                   protocolName protocolVersion streamName)
                (EvNewStream peer headers) ;;
      match s with
      | inl err =>
          ret (inl (fmt_Errorf_w "new stream for peer %s: %w" [ArgAddress peer] err))
      | inr streamer_ => ret (inr streamer_)
      end
  end.

(** Lines 235-246: the chunk is written under a timeout, whose deferred
    [cancel] runs when the goroutine returns. *)
Definition replicate_send (chunk : swarm.Chunk) (streamer_ : p2p.Stream)
    : M W (option error) :=
  let w := protobuf.NewWriter streamer_ in
  emit (EvWithTimeout timeToWaitForPushsyncToNeighbor) ;;;
  let delivery := {| pb.Delivery_Address := swarm.Bytes (swarm.chunk_Address chunk);
                     pb.Data := swarm.chunk_Data chunk |} in
  err <- call (streamer.WriteDelivery (streamer ps) w delivery)
              (EvWriteDelivery streamer_ delivery) ;;
  (match err with
   | Some _ => exec (streamer.Reset (streamer ps) streamer_) (EvReset streamer_)
   | None => ret tt
   end) ;;;
  emit EvCancel ;;;
  ret err.

(** Lines 222-246: what the goroutine does with the stream it opened; the
    result is its variable [err] when it returns. *)
Definition replicate_priced (chunk : swarm.Chunk) (peer : swarm.Address)
    (streamer_ : p2p.Stream) : M W (option error) :=
  let receiptPrice := 0 in
  let returnedHeaders := p2p.stream_Headers streamer_ in
  parsed <- eval (ParsePricingResponseHeaders ext returnedHeaders)
                 (EvParsePricingResponseHeaders returnedHeaders) ;;
  match parsed with
  | inl err => ret (Some (fmt_Errorf_w "push price headers read returned: %w" [] err))
  | inr (_, returnedPrice, returnedIndex) =>
      if negb (returnedPrice =? receiptPrice) then
        call (pricer.NotifyPeerPrice (pricer ps) peer returnedPrice returnedIndex)
             (EvNotifyPeerPrice peer returnedPrice returnedIndex)
      else replicate_send chunk streamer_
  end.

(** The deferred closure of lines 197-204 reads [err] when the goroutine
    returns. *)
Definition replicate_count (err : option error) : list GoEvent :=
  match err with
  | Some _ => [Go (EvLog "trace" "pushsync replication: %v");
               Go (EvMetricInc "TotalReplicatedError")]
  | None => [Go (EvMetricInc "TotalReplicated")]
  end.

(** The goroutine started for a neighbour (lines 194-248).  It returns
    nothing; the result here is its variable [err] when it ends.  Its
    deferred calls run in reverse: [cancel], [Close], the counters. *)
Definition replicate (chunk : swarm.Chunk) (peer : swarm.Address) (w : W)
    : option error * W * list GoEvent :=
  let '(s, w1, opening) := replicate_open chunk peer w in
  match s with
  | inl err => (Some err, w1, map Go opening ++ replicate_count (Some err))
  | inr streamer_ =>
      let '(err, w2, sending) := replicate_priced chunk peer streamer_ w1 in
      (err, Close streamer_ w2,
       map Go opening ++ map Go sending ++ [GoClose streamer_] ++ replicate_count err)
  end.

End Replication.

(** The events of [Event] in a goroutine's log, and the streams it closed. *)
Fixpoint events (log : list GoEvent) : list Event :=
  match log with
  | [] => []
  | Go e :: log' => e :: events log'
  | GoClose _ :: log' => events log'
  end.

Fixpoint closes (log : list GoEvent) : list p2p.Stream :=
  match log with
  | [] => []
  | Go _ :: log' => closes log'
  | GoClose s :: log' => s :: closes log'
  end.

(* ================================================================== *)
(** ** More readers of a log *)

(** The streams that were opened. *)
Definition opened (e : Event) : option p2p.Stream :=
  match e with EvNewStream _ _ (inr s) => Some s | _ => None end.

(** The streams whose [FullClose] was started by a cleanup closure. *)
Definition closed (e : Event) : option p2p.Stream :=
  match e with EvGoFullClose s => Some s | _ => None end.

(** The streams closed by the handler. *)
Definition full_closed (e : Event) : option p2p.Stream :=
  match e with EvFullClose s => Some s | _ => None end.

Definition reset (e : Event) : option p2p.Stream :=
  match e with EvReset s => Some s | _ => None end.

(** The streams on which writing the delivery or reading the receipt
    failed. *)
Definition failed_io (e : Event) : option p2p.Stream :=
  match e with
  | EvWriteDelivery s _ (Some _) => Some s
  | EvReadReceipt s (inl _) => Some s
  | _ => None
  end.

Definition timeouts (e : Event) : option Z :=
  match e with EvWithTimeout seconds => Some seconds | _ => None end.

Definition cancelled (e : Event) : option unit :=
  match e with EvCancel => Some tt | _ => None end.

Definition receipt_read (e : Event) : option (p2p.Stream * (error + pb.Receipt)) :=
  match e with EvReadReceipt s r => Some (s, r) | _ => None end.

Definition headers_made (e : Event) : option (Z * swarm.Address) :=
  match e with EvMakePricingHeaders price addr _ => Some (price, addr) | _ => None end.

Definition notified (e : Event) : option (swarm.Address * Z * Z * option error) :=
  match e with
  | EvNotifyPeerPrice peer price index err => Some (peer, price, index, err)
  | _ => None
  end.

Definition counted (e : Event) : option string :=
  match e with EvMetricInc name => Some name | _ => None end.

Definition unwrapped (e : Event) : option swarm.Chunk :=
  match e with EvGoUnwrap ch => Some ch | _ => None end.

(** Every call of [Put], with what it returned. *)
Definition store_call (e : Event) : option (swarm.Chunk * option error) :=
  match e with EvPut ch err => Some (ch, err) | _ => None end.

(** The delivery message made of a chunk (lines 393-396 and 239-242). *)
Definition delivery_of (ch : swarm.Chunk) : pb.Delivery :=
  {| pb.Delivery_Address := swarm.Bytes (swarm.chunk_Address ch);
     pb.Data := swarm.chunk_Data ch |}.

(** The streams the closures of [deferFuncs] will close, and the number
    of timeouts they will cancel. *)
Fixpoint to_close (ds : list Deferred) : list p2p.Stream :=
  match ds with
  | [] => []
  | DeferFullClose s :: ds' => s :: to_close ds'
  | _ :: ds' => to_close ds'
  end.

Fixpoint to_cancel (ds : list Deferred) : nat :=
  match ds with
  | [] => O
  | DeferCancel :: ds' => S (to_cancel ds')
  | _ :: ds' => to_cancel ds'
  end.

(** [balanced p evs]: with [p] reservations held when [evs] starts, at
    every point of [evs] none is released that was not made, and at most
    one is held. *)
Definition balanced (p : nat) (evs : list Event) : Prop :=
  forall pre post,
    evs = pre ++ post ->
    (length (collect released pre) <= p + length (collect reserved pre))%nat /\
    (p + length (collect reserved pre) <= length (collect released pre) + 1)%nat.

(* ================================================================== *)
(** ** Readers of messages *)

(** A delimited reader gives [msgs] in this order from state [s], and is
    then in state [s']. *)
Inductive Yields {S Msg : Type} (ReadMsg : S -> (error + option Msg) * S)
    : S -> list Msg -> S -> Prop :=
| Yields_nil (s : S) : Yields ReadMsg s [] s
| Yields_cons (s s1 s2 : S) (msg : Msg) (msgs : list Msg) :
    ReadMsg s = (inr (Some msg), s1) ->
    Yields ReadMsg s1 msgs s2 ->
    Yields ReadMsg s (msg :: msgs) s2.

(** A reader over a script: each read takes the next entry; the end of
    the script is [io.EOF]. *)
Definition scripted {Msg : Type} (s : list (error + Msg))
    : (error + option Msg) * list (error + Msg) :=
  match s with
  | [] => (inr None, [])
  | inl err :: s' => (inl err, s')
  | inr msg :: s' => (inr (Some msg), s')
  end.

(* ================================================================== *)
(** ** Scripted nodes with a failing collaborator *)

Module Faults.

(** [context.Canceled]. *)
Definition context_Canceled : Sentinel :=
  package_var "context.Canceled" "context canceled".

(** A context that is cancelled once [n] peers were queried. *)
Definition cancelled_after (n : nat) : context.Context Mock.World :=
  {| context.Done := fun w =>
       (if Nat.leb n w then Some (sentinel context_Canceled) else None, w) |}.

(** The calls a script of [Mock] lets succeed, made to fail here. *)
Record Faulty : Type := {
  write_ok : bool;       (* WriteMsg of a delivery *)
  tag : option bool;     (* the chunk has a tag; its Inc succeeds *)
  credit_ok : bool;
  notify_ok : bool;      (* NotifyPeerPrice *)
  read_ok : bool;        (* ReadMsg of the delivery, in the handler *)
  send_ok : bool;        (* WriteMsg of a receipt, in the handler *)
  debit_ok : bool;
  valid : bool;          (* the chunk is a valid content-addressed chunk *)
  store_ok : bool        (* Put *)
}.

Definition sound : Faulty :=
  {| write_ok := true; tag := None; credit_ok := true; notify_ok := true;
     read_ok := true; send_ok := true; debit_ok := true; valid := true;
     store_ok := true |}.

Definition no_write : Faulty :=
  {| write_ok := false; tag := None; credit_ok := true; notify_ok := true;
     read_ok := true; send_ok := true; debit_ok := true; valid := true;
     store_ok := true |}.

Definition tagged (inc_ok : bool) : Faulty :=
  {| write_ok := true; tag := Some inc_ok; credit_ok := true; notify_ok := true;
     read_ok := true; send_ok := true; debit_ok := true; valid := true;
     store_ok := true |}.

Definition no_credit : Faulty :=
  {| write_ok := true; tag := None; credit_ok := false; notify_ok := true;
     read_ok := true; send_ok := true; debit_ok := true; valid := true;
     store_ok := true |}.

Definition no_notify : Faulty :=
  {| write_ok := true; tag := None; credit_ok := true; notify_ok := false;
     read_ok := true; send_ok := true; debit_ok := true; valid := true;
     store_ok := true |}.

Definition no_read : Faulty :=
  {| write_ok := true; tag := None; credit_ok := true; notify_ok := true;
     read_ok := false; send_ok := true; debit_ok := true; valid := true;
     store_ok := true |}.

Definition no_send : Faulty :=
  {| write_ok := true; tag := None; credit_ok := true; notify_ok := true;
     read_ok := true; send_ok := false; debit_ok := true; valid := true;
     store_ok := true |}.

Definition no_debit : Faulty :=
  {| write_ok := true; tag := None; credit_ok := true; notify_ok := true;
     read_ok := true; send_ok := true; debit_ok := false; valid := true;
     store_ok := true |}.

Definition no_store : Faulty :=
  {| write_ok := true; tag := None; credit_ok := true; notify_ok := true;
     read_ok := true; send_ok := true; debit_ok := true; valid := true;
     store_ok := false |}.

Definition invalid : Faulty :=
  {| write_ok := true; tag := None; credit_ok := true; notify_ok := true;
     read_ok := true; send_ok := true; debit_ok := true; valid := false;
     store_ok := true |}.

Definition ext (s : Mock.Script) (f : Faulty) : Externals Mock.World :=
  {| MakePricingHeaders := MakePricingHeaders (Mock.ext s);
     ParsePricingResponseHeaders := ParsePricingResponseHeaders (Mock.ext s);
     ParsePriceHeader := ParsePriceHeader (Mock.ext s);
     cac_Valid := fun _ => valid f;
     soc_Valid := fun _ => false;
     DistanceCmp := DistanceCmp (Mock.ext s);
     WithTimeout := fun c _ => c |}.

Definition ps (s : Mock.Script) (f : Faulty) : PushSync Mock.World :=
  {| address := Mock.self;
     streamer :=
       {| streamer.NewStream := streamer.NewStream (streamer (Mock.ps s));
          streamer.Reset := fun _ w => w;
          streamer.FullClose := fun _ w => w;
          streamer.WriteDelivery := fun _ _ w => (Mock.answer (write_ok f), w);
          streamer.ReadDelivery := fun _ w =>
            (if read_ok f then inr Mock.delivery else inl Mock.boom, w);
          streamer.WriteReceipt := fun _ _ w => (Mock.answer (send_ok f), w);
          streamer.ReadReceipt := fun _ w => (Mock.receipt s, w) |};
     storer := {| storage.Put := fun _ w => (Mock.answer (store_ok f), w) |};
     topologyDriver := topologyDriver (Mock.ps s);
     tagger :=
       {| tagger.Get := fun id w =>
            (match tag f with
             | Some _ => (Some {| tags.Uid := id |}, None)
             | None => (None, None)
             end, w);
          tagger.Inc := fun _ w =>
            (match tag f with Some ok => Mock.answer ok | None => None end, w) |};
     unwrap := true;
     accounting :=
       {| accounting.Reserve := fun _ _ w => (Mock.answer (Mock.reserve_ok s), w);
          accounting.Release := fun _ _ w => w;
          accounting.Credit := fun _ _ w => (Mock.answer (credit_ok f), w);
          accounting.Debit := fun _ _ w => (Mock.answer (debit_ok f), w) |};
     pricer :=
       {| pricer.CheapestPeer := pricer.CheapestPeer (pricer (Mock.ps s));
          pricer.PeerPrice := fun _ _ w => (7, w);
          pricer.PriceForPeer := fun _ _ w => (3, w);
          pricer.NotifyPeerPrice := fun _ _ _ w => (Mock.answer (notify_ok f), w) |};
     signer := signer (Mock.ps s) |}.

(** [Close] of a stream does nothing to the world of [Mock]. *)
Definition Close (s : p2p.Stream) (w : Mock.World) : Mock.World := w.

(** The peers answer 9 for the 7 proposed, and the second query of the
    cheapest peer fails. *)
Definition requery_fails : Mock.Script :=
  {| Mock.select := fun n _ => match n with O => inr Mock.peerA | _ => inl Mock.boom end;
     Mock.headers_ok := true; Mock.dial_ok := true; Mock.parse_ok := true;
     Mock.returned_price := 9; Mock.reserve_ok := true;
     Mock.receipt := inr Mock.good_receipt;
     Mock.closer := false; Mock.within := true;
     Mock.neighbors := [] |}.

(** The selection fails with an error that has the text of
    [topology.ErrWantSelf] and is not its value: it was made by another
    call of [errors.New]. *)
Definition lookalike : Mock.Script :=
  {| Mock.select := fun _ _ => inl (errors_New "node wants self");
     Mock.headers_ok := true; Mock.dial_ok := true; Mock.parse_ok := true;
     Mock.returned_price := 7; Mock.reserve_ok := true;
     Mock.receipt := inr Mock.good_receipt;
     Mock.closer := false; Mock.within := true;
     Mock.neighbors := [(Mock.peerA, 1)] |}.

(** A neighbour that answers the price 0 the goroutine proposes. *)
Definition free : Mock.Script :=
  {| Mock.select := fun _ skip => Mock.pick [Mock.peerA] skip;
     Mock.headers_ok := true; Mock.dial_ok := true; Mock.parse_ok := true;
     Mock.returned_price := 0; Mock.reserve_ok := true;
     Mock.receipt := inr Mock.good_receipt;
     Mock.closer := false; Mock.within := true;
     Mock.neighbors := [] |}.

End Faults.

(* ================================================================== *)
(** ** Lemmas on lists and logs *)

Unset Implicit Arguments.

Lemma collect_app {A : Type} (f : Event -> option A) (a b : list Event) :
  collect f (a ++ b) = collect f a ++ collect f b.
Proof.
  induction a as [| e a IH]; simpl; [reflexivity |].
  destruct (f e); simpl; now rewrite IH.
Qed.

Lemma collect_In {A : Type} (f : Event -> option A) (evs : list Event) (a : A) :
  In a (collect f evs) <-> exists e, In e evs /\ f e = Some a.
Proof.
  induction evs as [| e evs IH]; simpl.
  - split; [tauto | intros (e & [] & _)].
  - destruct (f e) as [b |] eqn:E; simpl; rewrite IH; split.
    + intros [-> | (e' & H1 & H2)]; eauto.
    + intros (e' & [-> | H1] & H2); [left; congruence | eauto].
    + intros (e' & H1 & H2); eauto.
    + intros (e' & [-> | H1] & H2); [congruence | eauto].
Qed.

Lemma collect_nil {A : Type} (f : Event -> option A) (evs : list Event) :
  (forall e, In e evs -> f e = None) -> collect f evs = [].
Proof.
  induction evs as [| e evs IH]; simpl; intros H; [reflexivity |].
  rewrite (H e) by now left. apply IH. intros e' He'. apply H. now right.
Qed.

Lemma collect_cleanup {A : Type} (f : Event -> option A) (evs : list Event) :
  (forall e, is_cleanup e = true -> f e = None) ->
  Forall (fun e => is_cleanup e = true) evs -> collect f evs = [].
Proof.
  intros Hf Hc. apply collect_nil. intros e He.
  apply Hf. rewrite Forall_forall in Hc. now apply Hc.
Qed.

Lemma pending_app (a b : list Deferred) : pending (a ++ b) = pending a ++ pending b.
Proof.
  induction a as [| d a IH]; simpl; [reflexivity |].
  destruct d; simpl; now rewrite IH.
Qed.

Lemma bytes_Equal_eq (a b : list byte) : bytes_Equal a b = true <-> a = b.
Proof.
  revert b. induction a as [| x a IH]; intros [| y b]; simpl;
    try (split; [discriminate | intros H; discriminate]); [tauto |].
  rewrite andb_true_iff, IH. split.
  - intros [H1 H2]. apply Byte.byte_dec_bl in H1. congruence.
  - intros H. inversion H; subst. split; [apply Byte.byte_dec_lb |]; reflexivity.
Qed.

Lemma Equal_eq (a b : swarm.Address) : swarm.Equal a b = true <-> a = b.
Proof.
  unfold swarm.Equal. rewrite bytes_Equal_eq.
  destruct a, b; simpl. split; congruence.
Qed.

Lemma Equal_refl (a : swarm.Address) : swarm.Equal a a = true.
Proof. now apply Equal_eq. Qed.

(* ================================================================== *)
(** ** Running a computation backwards *)

Section Inversion.

Variable W : Type.

Lemma bind_inv {A B : Type} (m : M W A) (k : A -> M W B) w b w' evs :
  bind m k w = (b, w', evs) ->
  exists a w1 e1 e2, m w = (a, w1, e1) /\ k a w1 = (b, w', e2) /\ evs = e1 ++ e2.
Proof.
  unfold bind. destruct (m w) as [[a w1] e1].
  destruct (k a w1) as [[b' w2] e2] eqn:E.
  intros H. inversion H; subst. exists a, w1, e1, e2. auto.
Qed.

Lemma call_inv {A : Type} (f : W -> A * W) (ev : A -> Event) w a w' evs :
  call f ev w = (a, w', evs) -> f w = (a, w') /\ evs = [ev a].
Proof. unfold call. destruct (f w). intros H. inversion H; subst; auto. Qed.

Lemma ret_inv {A : Type} (a b : A) (w w' : W) evs :
  ret a w = (b, w', evs) -> b = a /\ w' = w /\ evs = [].
Proof. unfold ret. intros H. inversion H; subst; auto. Qed.

Lemma eval_inv {A : Type} (a b : A) (ev : A -> Event) (w w' : W) evs :
  eval a ev w = (b, w', evs) -> b = a /\ w' = w /\ evs = [ev a].
Proof. unfold eval. intros H. inversion H; subst; auto. Qed.

Lemma emit_inv ev (w w' : W) u evs :
  emit ev w = (u, w', evs) -> w' = w /\ evs = [ev].
Proof. unfold emit. intros H. inversion H; subst; auto. Qed.

Lemma exec_inv (f : W -> W) ev (w w' : W) u evs :
  exec f ev w = (u, w', evs) -> w' = f w /\ evs = [ev].
Proof. unfold exec. intros H. inversion H; subst; auto. Qed.

End Inversion.

(** Take a run apart along the code, one case for each path. *)
Ltac run_inv :=
  repeat (cbv beta in *;
  match goal with
  | H : bind _ _ _ = _ |- _ =>
      apply bind_inv in H; destruct H as (? & ? & ? & ? & ? & ? & ?)
  | H : call _ _ _ = _ |- _ => apply call_inv in H; destruct H as [? ?]
  | H : ret _ _ = _ |- _ => apply ret_inv in H; destruct H as (? & ? & ?)
  | H : eval _ _ _ = _ |- _ => apply eval_inv in H; destruct H as (? & ? & ?)
  | H : emit _ _ = _ |- _ => apply emit_inv in H; destruct H as [? ?]
  | H : exec _ _ _ = _ |- _ => apply exec_inv in H; destruct H as [? ?]
  | H : (match ?x with _ => _ end) _ = _ |- _ => destruct x eqn:?
  | H : (_, _) = (_, _) |- _ => inversion H; clear H
  | H : Some _ = Some _ |- _ => inversion H; clear H
  | H : inl _ = inl _ |- _ => inversion H; clear H
  | H : inr _ = inr _ |- _ => inversion H; clear H
  end; subst; try discriminate).

(* ================================================================== *)
(** ** The cleanup closures *)

Section Cleanup.

Variable W : Type.
Variable ps : PushSync W.

Lemma run_all_inv (le : option error) (ds : list Deferred) (w w' : W) u evs :
  run_all ps le ds w = (u, w', evs) ->
  Forall (fun e => is_cleanup e = true) evs /\ collect released evs = pending ds.
Proof.
  revert w evs. induction ds as [| d ds IH]; simpl; intros w evs H.
  - run_inv. auto.
  - apply bind_inv in H. destruct H as (a & w1 & e1 & e2 & H1 & H2 & ->).
    destruct (IH _ _ H2) as [IH1 IH2].
    rewrite collect_app, IH2.
    destruct d; simpl in H1; run_inv; simpl; split; auto.
Qed.

Lemma defersFn_inv (l l' : Locals) (w w' : W) evs :
  defersFn ps l w = (l', w', evs) ->
  l' = clear_defers l /\
  Forall (fun e => is_cleanup e = true) evs /\
  collect released evs = pending (deferFuncs l).
Proof.
  unfold defersFn. intros H. run_inv.
  rewrite app_nil_r. split; [reflexivity |]. eapply run_all_inv; eauto.
Qed.

End Cleanup.

(* ================================================================== *)
(** ** One attempt *)

Lemma NewAddress_Bytes (a : swarm.Address) : swarm.NewAddress (swarm.Bytes a) = a.
Proof. now destruct a. Qed.

Lemma Equal_receipt (a : swarm.Address) (r : pb.Receipt) :
  swarm.Equal a (swarm.NewAddress (pb.Receipt_Address r)) = true <->
  pb.Receipt_Address r = swarm.Bytes a.
Proof.
  rewrite Equal_eq. split.
  - intros ->. reflexivity.
  - intros ->. now rewrite NewAddress_Bytes.
Qed.

Ltac attempt_cases H :=
  unfold attempt, deliver, reconcile_price, protobuf.NewWriterAndReader in H;
  run_inv.

(** Find an event in a log that is written out. *)
Ltac in_list := simpl; repeat (first [left; reflexivity | right]).

Ltac in_cases :=
  repeat match goal with
  | H : In _ (_ :: _) |- _ => destruct H as [H | H]
  | H : In _ [] |- _ => destruct H
  | H : _ \/ _ |- _ => destruct H as [H | H]
  | H : False |- _ => destruct H
  end; try discriminate.

Section Attempt.

Variable W : Type.
Variable ext : Externals W.
Variable ps : PushSync W.

Lemma attempt_reservations ch l w ctl l' w' evs :
  attempt ext ps ch l w = (ctl, l', w', evs) ->
  collect released evs = [] /\
  pending (deferFuncs l') = pending (deferFuncs l) ++ collect reserved evs /\
  (forall c, In c (collect credit_call evs) -> In (fst c) (collect reserved evs)) /\
  (length (collect credit_call evs) <= 1)%nat.
Proof.
  intros H. attempt_cases H; simpl;
    rewrite ?pending_app, ?app_nil_r; simpl;
    repeat split; auto; intros; in_cases; subst; simpl; auto.
Qed.

Lemma attempt_skip ch l w ctl l' w' evs :
  attempt ext ps ch l w = (ctl, l', w', evs) ->
  skipPeers l' = skipPeers l ++ map peer_of (collect reserve_call evs) /\
  (forall skip, In skip (collect queried evs) -> skip = skipPeers l) /\
  (length (collect reserve_call evs) <= 1)%nat.
Proof.
  intros H. attempt_cases H; simpl;
    rewrite ?app_nil_r; simpl;
    repeat split; auto; intros; in_cases; subst; simpl; auto.
Qed.

Lemma attempt_fresh ch l w ctl l' w' evs :
  (forall a skip b w0 p w1,
      pricer.CheapestPeer (pricer ps) a skip b w0 = (inr p, w1) -> ~ In p skip) ->
  attempt ext ps ch l w = (ctl, l', w', evs) ->
  forall c, In c (collect reserve_call evs) -> ~ In (peer_of c) (skipPeers l).
Proof.
  intros Hskip H. attempt_cases H; simpl; intros; in_cases; subst; simpl; eauto.
Qed.

Lemma attempt_receipt ch l w ctl l' w' evs :
  attempt ext ps ch l w = (ctl, l', w', evs) ->
  match ctl with
  | Return (inr r) =>
      pb.Receipt_Address r = swarm.Bytes (swarm.chunk_Address ch) /\
      exists peer price headers s,
        collect credit_call evs = [(peer, price, None)] /\
        In (EvNewStream peer headers (inr s)) evs /\
        In (EvReadReceipt s (inr r)) evs
  | Return (inl _) => True
  | Continue => collect credit_call evs = []
  end.
Proof.
  intros H. attempt_cases H; simpl; auto.
  all: match goal with
       | E : negb _ = false |- _ =>
           apply negb_false_iff in E; apply Equal_receipt in E
       end.
  all: split; auto; do 4 eexists; split; [reflexivity |]; split; in_list.
Qed.

Lemma attempt_recorded ch l w ctl l' w' evs :
  attempt ext ps ch l w = (ctl, l', w', evs) ->
  lastErr l' = match recorded ch evs with Some e => Some e | None => lastErr l end.
Proof.
  intros H. attempt_cases H; unfold recorded; simpl; auto.
  all: repeat match goal with
       | E : negb _ = false |- _ => apply negb_false_iff in E
       | E : negb _ = true |- _ => apply negb_true_iff in E
       end.
  all: repeat match goal with
       | E : swarm.Equal _ _ = _ |- _ => rewrite E
       end; simpl; auto.
Qed.

Lemma attempt_reserve_refused ch l w ctl l' w' evs peer price err :
  attempt ext ps ch l w = (ctl, l', w', evs) ->
  In (EvReserve peer price (Some err)) evs ->
  ctl = Return (inl (fmt_Errorf_w "reserve balance for peer %s: %w"
                       [ArgAddress peer] err)) /\
  collect delivered evs = [] /\
  exists before, evs = before ++ [EvReserve peer price (Some err)].
Proof.
  intros H Hin. attempt_cases H; simpl in Hin; in_cases.
  all: match goal with E : EvReserve _ _ _ = EvReserve _ _ _ |- _ => inversion E; subst end.
  all: split; [reflexivity |]; split; [reflexivity |].
  all: simpl; rewrite ?app_nil_r.
  all: match goal with
       | |- exists b, ?x = _ => exists (removelast x); reflexivity
       end.
Qed.

Lemma attempt_repriced ch l w ctl l' w' evs peer cur :
  attempt ext ps ch l w = (ctl, l', w', evs) ->
  collect selected evs = [inr peer; inr cur] ->
  cur <> peer ->
  ctl = Continue /\
  skipPeers l' = skipPeers l /\
  lastErr l' = lastErr l /\
  pending (deferFuncs l') = pending (deferFuncs l) /\
  collect reserve_call evs = [] /\
  collect delivered evs = [] /\
  collect credit_call evs = [] /\
  exists proposed returned index,
    In (EvPeerPrice peer (swarm.chunk_Address ch) proposed) evs /\
    In (EvNotifyPeerPrice peer returned index None) evs /\
    returned <> proposed.
Proof.
  intros H Hsel Hne. attempt_cases H; simpl in Hsel; try discriminate.
  all: inversion Hsel; subst.
  all: repeat match goal with
       | E : negb _ = false |- _ => apply negb_false_iff in E
       | E : negb _ = true |- _ => apply negb_true_iff in E
       end.
  all: try match goal with
       | E : swarm.Equal _ _ = true |- _ => apply Equal_eq in E; congruence
       end.
  all: simpl; rewrite ?pending_app, ?app_nil_r; simpl.
  all: repeat split; auto.
  all: match goal with
       | E : (?r =? ?p) = false |- _ =>
           apply Z.eqb_neq in E; exists p, r; eexists;
           split; [in_list | split; [in_list | exact E]]
       end.
Qed.


End Attempt.

(* ================================================================== *)
(** ** One iteration, and the loop *)

Ltac cleanup_none :=
  let E := fresh in intros [] E; simpl in E; try discriminate; reflexivity.

Section Loop.

Variable W : Type.
Variable ext : Externals W.
Variable ps : PushSync W.
Variable ctx : context.Context W.

Lemma iteration_inv ch l w ctl l' w' evs :
  iteration ext ps ctx ch l w = (ctl, l', w', evs) ->
  (exists err,
      context.Done ctx w = (Some err, w') /\ ctl = Return (inl err) /\ l' = l /\
      evs = [EvCtxDone (Some err)]) \/
  (exists w1 w2 cleanup tried,
      context.Done ctx w = (None, w1) /\
      defersFn ps l w1 = (clear_defers l, w2, cleanup) /\
      attempt ext ps ch (clear_defers l) w2 = (ctl, l', w', tried) /\
      evs = EvCtxDone None :: cleanup ++ tried).
Proof.
  unfold iteration. intros H. run_inv.
  - left. eexists. eauto.
  - right.
    match goal with
    | D : defersFn _ _ _ = _ |- _ =>
        destruct (defersFn_inv _ _ _ _ _ _ _ D) as (-> & _ & _)
    end.
    do 4 eexists. eauto.
Qed.

Lemma loop_S ch n l w x lf wf its :
  loop ext ps ctx ch (S n) l w = (x, lf, wf, its) ->
  exists ctl l1 w1 evs,
    iteration ext ps ctx ch l w = (ctl, l1, w1, evs) /\
    match ctl with
    | Return r => x = Returned r /\ lf = l1 /\ wf = w1 /\ its = [evs]
    | Continue =>
        exists its', loop ext ps ctx ch n l1 w1 = (x, lf, wf, its') /\ its = evs :: its'
    end.
Proof.
  simpl. destruct (iteration ext ps ctx ch l w) as [[[ctl l1] w1] evs].
  destruct ctl as [| r].
  - destruct (loop ext ps ctx ch n l1 w1) as [[[x' l2] w2] its'] eqn:E.
    intros H. inversion H; subst. exists Continue, l1, w1, evs. eauto.
  - intros H. inversion H; subst. exists (Return r), lf, wf, evs. auto.
Qed.

Lemma loop_continue ch n l w l1 w1 evs x lf wf its :
  iteration ext ps ctx ch l w = (Continue, l1, w1, evs) ->
  loop ext ps ctx ch n l1 w1 = (x, lf, wf, its) ->
  loop ext ps ctx ch (S n) l w = (x, lf, wf, evs :: its).
Proof. intros H1 H2. simpl. now rewrite H1, H2. Qed.

(** An iteration of a run, with the iterations before it (which all ended
    in [continue]) and after it. *)
Lemma loop_split ch n l w x lf wf its pre it post :
  loop ext ps ctx ch n l w = (x, lf, wf, its) ->
  its = pre ++ it :: post ->
  exists l1 w1 ctl l2 w2,
    loop ext ps ctx ch (length pre) l w = (Exhausted, l1, w1, pre) /\
    iteration ext ps ctx ch l1 w1 = (ctl, l2, w2, it) /\
    match ctl with
    | Continue =>
        exists m, n = (length pre + S m)%nat /\
                  loop ext ps ctx ch m l2 w2 = (x, lf, wf, post)
    | Return r => post = [] /\ x = Returned r /\ lf = l2 /\ wf = w2
    end.
Proof.
  revert l w its pre. induction n as [| n IH]; intros l w its pre H Hits.
  - simpl in H. inversion H; subst. now destruct pre.
  - apply loop_S in H. destruct H as (ctl & l1 & w1 & evs & Hit & H).
    destruct ctl as [| r].
    + destruct H as (its' & Hloop & ->).
      destruct pre as [| e pre]; simpl in Hits; inversion Hits; subst.
      * exists l, w, Continue, l1, w1. simpl.
        split; [reflexivity |]. split; [assumption |]. exists n. split; [reflexivity | assumption].
      * destruct (IH _ _ _ _ Hloop eq_refl) as (l2 & w2 & ctl & l3 & w3 & H1 & H2 & H3).
        exists l2, w2, ctl, l3, w3. split; [| split].
        -- simpl length. eapply loop_continue; eauto.
        -- exact H2.
        -- destruct ctl; auto. destruct H3 as (m & -> & H3). exists m. auto.
    + destruct H as (-> & -> & -> & ->).
      destruct pre as [| e pre]; simpl in Hits; inversion Hits; subst.
      * exists l, w, (Return r), l1, w1. simpl. repeat split; auto.
      * now destruct pre.
Qed.

Lemma loop_length ch n l w x lf wf its :
  loop ext ps ctx ch n l w = (x, lf, wf, its) ->
  (length its <= n)%nat /\ (x = Exhausted -> length its = n) /\
  (n <> O -> its <> []).
Proof.
  revert l w its. induction n as [| n IH]; intros l w its H.
  - simpl in H. inversion H; subst. simpl. auto.
  - apply loop_S in H. destruct H as (ctl & l1 & w1 & evs & Hit & H).
    destruct ctl as [| r].
    + destruct H as (its' & Hloop & ->). destruct (IH _ _ _ Hloop) as (H1 & H2 & _).
      simpl. repeat split; [lia | | discriminate]. intros E. now rewrite H2.
    + destruct H as (-> & -> & -> & ->). simpl.
      repeat split; [lia | discriminate | discriminate].
Qed.

(** *** Reservations *)

Lemma iteration_reservations ch l w ctl l' w' evs :
  iteration ext ps ctx ch l w = (ctl, l', w', evs) ->
  pending (deferFuncs l) ++ collect reserved evs =
    collect released evs ++ pending (deferFuncs l') /\
  (forall c, In c (collect credit_call evs) -> In (fst c) (collect reserved evs)) /\
  (length (collect credit_call evs) <= 1)%nat /\
  (ctl = Continue -> collect credit_call evs = []).
Proof.
  intros H. apply iteration_inv in H.
  destruct H as [(err & _ & -> & -> & ->) | (w1 & w2 & cleanup & tried & _ & Hd & Ha & ->)].
  - simpl. rewrite app_nil_r. repeat split; auto; try (intros c []); discriminate.
  - apply defersFn_inv in Hd. destruct Hd as (_ & Hc & Hr).
    pose proof (attempt_receipt _ _ _ _ _ _ _ _ _ _ Ha) as Hrc.
    apply attempt_reservations in Ha. destruct Ha as (A1 & A2 & A3 & A4).
    simpl in A2. cbn [collect polled reserved released credit_call].
    rewrite !collect_app, A1, A2, Hr, app_nil_r.
    rewrite (collect_cleanup reserved cleanup ltac:(cleanup_none) Hc),
      (collect_cleanup credit_call cleanup ltac:(cleanup_none) Hc).
    simpl. repeat split; auto. intros ->. exact Hrc.
Qed.

Lemma loop_reservations ch n l w x lf wf its :
  loop ext ps ctx ch n l w = (x, lf, wf, its) ->
  pending (deferFuncs l) ++ collect reserved (List.concat its) =
    collect released (List.concat its) ++ pending (deferFuncs lf) /\
  (forall c, In c (collect credit_call (List.concat its)) ->
             In (fst c) (collect reserved (List.concat its))) /\
  (length (collect credit_call (List.concat its)) <= 1)%nat.
Proof.
  revert l w its. induction n as [| n IH]; intros l w its H.
  - simpl in H. inversion H; subst. simpl. rewrite app_nil_r.
    repeat split; auto; intros c [].
  - apply loop_S in H. destruct H as (ctl & l1 & w1 & evs & Hit & H).
    apply iteration_reservations in Hit. destruct Hit as (I1 & I2 & I3 & I4).
    destruct ctl as [| r].
    + destruct H as (its' & Hloop & ->).
      destruct (IH _ _ _ Hloop) as (L1 & L2 & L3).
      simpl. rewrite !collect_app, (I4 eq_refl). simpl.
      repeat split; auto.
      * rewrite app_assoc, I1, <- !app_assoc. now rewrite L1.
      * intros c Hc. apply in_or_app. right. auto.
    + destruct H as (-> & -> & -> & ->). simpl. rewrite !app_nil_r. auto.
Qed.

(** *** The skip list *)

Lemma iteration_skip ch l w ctl l' w' evs :
  iteration ext ps ctx ch l w = (ctl, l', w', evs) ->
  skipPeers l' = skipPeers l ++ map peer_of (collect reserve_call evs) /\
  (forall skip, In skip (collect queried evs) -> skip = skipPeers l) /\
  (length (collect reserve_call evs) <= 1)%nat /\
  ((forall a skip b w0 p w1,
       pricer.CheapestPeer (pricer ps) a skip b w0 = (inr p, w1) -> ~ In p skip) ->
   forall c, In c (collect reserve_call evs) -> ~ In (peer_of c) (skipPeers l)).
Proof.
  intros H. apply iteration_inv in H.
  destruct H as [(err & _ & -> & -> & ->) | (w1 & w2 & cleanup & tried & _ & Hd & Ha & ->)].
  - simpl. rewrite app_nil_r. repeat split; auto; intros; in_cases.
  - apply defersFn_inv in Hd. destruct Hd as (_ & Hc & _).
    pose proof (fun Hs => attempt_fresh _ _ _ _ _ _ _ _ _ _ Hs Ha) as Hf.
    apply attempt_skip in Ha. destruct Ha as (A1 & A2 & A3).
    simpl in A1, A2, Hf. cbn [collect queried reserve_call].
    rewrite !collect_app.
    rewrite (collect_cleanup reserve_call cleanup ltac:(cleanup_none) Hc),
      (collect_cleanup queried cleanup ltac:(cleanup_none) Hc).
    simpl. auto.
Qed.

Lemma loop_skip ch n l w x lf wf its :
  loop ext ps ctx ch n l w = (x, lf, wf, its) ->
  skipPeers lf = skipPeers l ++ map peer_of (collect reserve_call (List.concat its)) /\
  ((forall a skip b w0 p w1,
       pricer.CheapestPeer (pricer ps) a skip b w0 = (inr p, w1) -> ~ In p skip) ->
   NoDup (skipPeers l) -> NoDup (skipPeers lf)).
Proof.
  revert l w its. induction n as [| n IH]; intros l w its H.
  - simpl in H. inversion H; subst. simpl. rewrite app_nil_r. auto.
  - apply loop_S in H. destruct H as (ctl & l1 & w1 & evs & Hit & H).
    apply iteration_skip in Hit. destruct Hit as (I1 & _ & I3 & I4).
    assert (Hnd : (forall a skip b w0 p w1,
                      pricer.CheapestPeer (pricer ps) a skip b w0 = (inr p, w1) ->
                      ~ In p skip) ->
                  NoDup (skipPeers l) -> NoDup (skipPeers l1)).
    { intros Hs Hl. specialize (I4 Hs). rewrite I1.
      destruct (collect reserve_call evs) as [| c [| c' cs]]; simpl in *.
      - now rewrite app_nil_r.
      - apply (NoDup_Add (a := peer_of c) (l := skipPeers l)).
        + clear. induction (skipPeers l); simpl; constructor; auto.
        + split; auto.
      - lia. }
    destruct ctl as [| r].
    + destruct H as (its' & Hloop & ->). destruct (IH _ _ _ Hloop) as (L1 & L2).
      simpl. rewrite collect_app, map_app, app_assoc, <- I1. auto.
    + destruct H as (-> & -> & -> & ->). simpl. rewrite app_nil_r. auto.
Qed.

End Loop.

Section Run.

Variable W : Type.
Variable ext : Externals W.
Variable ps : PushSync W.
Variable ctx : context.Context W.

(** *** The error recorded *)

Lemma recorded_cleanup ch done cleanup tried :
  Forall (fun e => is_cleanup e = true) cleanup ->
  recorded ch (EvCtxDone done :: cleanup ++ tried) = recorded ch tried.
Proof.
  intros Hc. unfold recorded. cbn [collect dialed].
  rewrite collect_app, (collect_cleanup dialed cleanup ltac:(cleanup_none) Hc).
  simpl. destruct (collect dialed tried) as [| peer ?]; [reflexivity |].
  cbn [collect recorded_by].
  rewrite collect_app,
    (collect_cleanup (recorded_by ch peer) cleanup ltac:(cleanup_none) Hc).
  reflexivity.
Qed.

Lemma iteration_recorded ch l w ctl l' w' evs :
  iteration ext ps ctx ch l w = (ctl, l', w', evs) ->
  lastErr l' = match recorded ch evs with Some e => Some e | None => lastErr l end.
Proof.
  intros H. apply iteration_inv in H.
  destruct H as [(err & _ & -> & -> & ->) | (w1 & w2 & cleanup & tried & _ & Hd & Ha & ->)].
  - reflexivity.
  - apply defersFn_inv in Hd. destruct Hd as (_ & Hc & _).
    rewrite (recorded_cleanup _ _ _ _ Hc).
    apply attempt_recorded in Ha. exact Ha.
Qed.

Lemma loop_recorded ch n l w x lf wf its :
  loop ext ps ctx ch n l w = (x, lf, wf, its) ->
  lastErr lf = last_recorded ch (lastErr l) its.
Proof.
  revert l w its. induction n as [| n IH]; intros l w its H.
  - simpl in H. inversion H; subst. reflexivity.
  - apply loop_S in H. destruct H as (ctl & l1 & w1 & evs & Hit & H).
    apply iteration_recorded in Hit.
    destruct ctl as [| r].
    + destruct H as (its' & Hloop & ->). simpl. rewrite <- Hit. eauto.
    + destruct H as (-> & -> & -> & ->). simpl. exact Hit.
Qed.

(** *** A receipt returned *)

Lemma iteration_receipt ch l w ctl l' w' evs :
  iteration ext ps ctx ch l w = (ctl, l', w', evs) ->
  match ctl with
  | Return (inr r) =>
      pb.Receipt_Address r = swarm.Bytes (swarm.chunk_Address ch) /\
      exists peer price headers s,
        collect credit_call evs = [(peer, price, None)] /\
        In (EvNewStream peer headers (inr s)) evs /\
        In (EvReadReceipt s (inr r)) evs
  | Return (inl _) => True
  | Continue => collect credit_call evs = []
  end.
Proof.
  intros H. apply iteration_inv in H.
  destruct H as [(err & _ & -> & -> & ->) | (w1 & w2 & cleanup & tried & _ & Hd & Ha & ->)].
  - exact I.
  - apply defersFn_inv in Hd. destruct Hd as (_ & Hc & _).
    apply attempt_receipt in Ha.
    cbn [collect credit_call]. rewrite collect_app.
    rewrite (collect_cleanup credit_call cleanup ltac:(cleanup_none) Hc). simpl.
    destruct ctl as [| [e | r]]; auto.
    destruct Ha as (Ha & peer & price & headers & s & A1 & A2 & A3).
    split; [exact Ha |]. exists peer, price, headers, s.
    split; [exact A1 |]. split; right; apply in_or_app; right; assumption.
Qed.

Lemma loop_receipt ch n l w r lf wf its :
  loop ext ps ctx ch n l w = (Returned (inr r), lf, wf, its) ->
  pb.Receipt_Address r = swarm.Bytes (swarm.chunk_Address ch) /\
  exists peer price headers s,
    collect credit_call (List.concat its) = [(peer, price, None)] /\
    In (EvNewStream peer headers (inr s)) (List.concat its) /\
    In (EvReadReceipt s (inr r)) (List.concat its).
Proof.
  revert l w its. induction n as [| n IH]; intros l w its H.
  - simpl in H. inversion H.
  - apply loop_S in H. destruct H as (ctl & l1 & w1 & evs & Hit & H).
    apply iteration_receipt in Hit.
    destruct ctl as [| r'].
    + destruct H as (its' & Hloop & ->).
      destruct (IH _ _ _ Hloop) as (A & peer & price & headers & s & A1 & A2 & A3).
      split; [exact A |]. exists peer, price, headers, s. simpl.
      rewrite collect_app, Hit. simpl.
      split; [exact A1 |]. split; apply in_or_app; right; assumption.
    + destruct H as (E & -> & -> & ->). inversion E; subst. simpl.
      rewrite app_nil_r. exact Hit.
Qed.

(** *** The whole call *)

Lemma pushToClosest_inv ch w res w' log :
  pushToClosest ext ps ctx ch w = (res, w', log) ->
  exists x lf w1 its cleanup,
    loop ext ps ctx ch maxPeers initial w = (x, lf, w1, its) /\
    Forall (fun e => is_cleanup e = true) cleanup /\
    collect released cleanup = pending (deferFuncs lf) /\
    res = match x with Returned r => r | Exhausted => exhausted_result lf end /\
    log = {| prologue := [EvSpanStart "push-closest"];
             iterations := its;
             epilogue := cleanup |}.
Proof.
  unfold pushToClosest.
  destruct (loop ext ps ctx ch maxPeers initial w) as [[[x lf] w1] its].
  destruct (bind (defersFn ps lf) (fun _ => emit EvSpanFinish) w1)
    as [[u w2] cleanup] eqn:E.
  run_inv.
  match goal with
  | D : defersFn _ _ _ = (_, _, ?c) |- _ =>
      pose (closing := c); apply defersFn_inv in D; destruct D as (_ & Hc & Hr)
  end.
  intros H.
  exists x, lf, w1, its.
  exists ((match x with
           | Exhausted => [EvLog "trace" "pushsync: chunk %s: reached %v peers"]
           | Returned _ => []
           end) ++ closing ++ [EvSpanFinish]).
  subst closing.
  split; [reflexivity |].
  repeat split.
  - apply Forall_app. split.
    + destruct x; repeat constructor.
    + apply Forall_app. split; [exact Hc |]. repeat constructor.
  - rewrite !collect_app, Hr. destruct x; simpl; now rewrite app_nil_r.
  - destruct x; inversion H; reflexivity.
  - destruct x; inversion H; reflexivity.
Qed.

End Run.

(* ================================================================== *)
(** ** Properties of the origin push loop *)

Lemma trace_collect {A : Type} (f : Event -> option A) (log : RunLog) :
  collect f (trace log) =
  collect f (prologue log) ++ collect f (List.concat (iterations log)) ++
  collect f (epilogue log).
Proof. unfold trace. now rewrite !collect_app. Qed.


Lemma concat_mid {A : Type} (pre post : list (list A)) (l : list A) :
  List.concat (pre ++ l :: post) = List.concat pre ++ l ++ List.concat post.
Proof. now rewrite concat_app. Qed.

Lemma Mock_pick_fresh peers skip p : Mock.pick peers skip = inr p -> ~ In p skip.
Proof.
  induction peers as [| q peers IH]; simpl; [discriminate |].
  destruct (existsb (swarm.Equal q) skip) eqn:E; [exact IH |].
  intros H. inversion H; subst. intros Hin.
  assert (existsb (swarm.Equal p) skip = true) as E'.
  { apply existsb_exists. exists p. split; [exact Hin | apply Equal_refl]. }
  congruence.
Qed.

Lemma in_tried e done cleanup tried :
  Forall (fun e => is_cleanup e = true) cleanup ->
  In e (EvCtxDone done :: cleanup ++ tried) ->
  is_cleanup e = false -> polled e = None ->
  In e tried.
Proof.
  intros Hc [<- | Hin] Hn Hp; [discriminate |].
  apply in_app_or in Hin. destruct Hin as [Hin | Hin]; [| exact Hin].
  rewrite Forall_forall in Hc. rewrite (Hc _ Hin) in Hn. discriminate.
Qed.

Lemma collect_iteration {A : Type} (f : Event -> option A) done cleanup tried :
  (forall e, is_cleanup e = true -> f e = None) ->
  f (EvCtxDone done) = None ->
  Forall (fun e => is_cleanup e = true) cleanup ->
  collect f (EvCtxDone done :: cleanup ++ tried) = collect f tried.
Proof.
  intros Hf Hd Hc. simpl. rewrite Hd, collect_app, (collect_cleanup f cleanup Hf Hc).
  reflexivity.
Qed.

(** C1, as the code has it: on every path of [pushToClosest] each
    reservation made (each call of [Reserve] that succeeded) is released
    exactly once, for the same peer and price and in the same order.  A
    credit is issued besides, at most once per call, and only for a
    reservation that was made: that reservation is credited and released. *)
Theorem reservations_are_released (W : Type) (ext : Externals W) (ps : PushSync W)
    (ctx : context.Context W) (ch : swarm.Chunk) (w : W) :
  let '(_, _, log) := pushToClosest ext ps ctx ch w in
  collect released (trace log) = collect reserved (trace log) /\
  (forall peer price err,
      In (peer, price, err) (collect credit_call (trace log)) ->
      In (peer, price) (collect reserved (trace log))) /\
  (length (collect credit_call (trace log)) <= 1)%nat.
Proof.
  destruct (pushToClosest ext ps ctx ch w) as [[res w'] log] eqn:E.
  apply pushToClosest_inv in E.
  destruct E as (x & lf & w1 & its & cleanup & Hloop & Hc & Hr & _ & ->).
  apply loop_reservations in Hloop. destruct Hloop as (L1 & L2 & L3).
  rewrite !trace_collect. cbn [prologue iterations epilogue collect].
  rewrite (collect_cleanup reserved cleanup ltac:(cleanup_none) Hc),
    (collect_cleanup credit_call cleanup ltac:(cleanup_none) Hc).
  simpl in *. rewrite !app_nil_r, Hr. repeat split; auto.
  intros peer price err Hin. exact (L2 _ Hin).
Qed.

(** C1 as stated fails: when a receipt is accepted the one reservation is
    both credited and released, so one call of [Reserve] stands against one
    call of [Release] and one of [Credit]. *)
Lemma reservation_credited_and_released :
  let '(_, _, log) := pushToClosest (Mock.ext Mock.happy) (Mock.ps Mock.happy)
                        Mock.ctx Mock.chunk O in
  collect reserve_call (trace log) = [(Mock.peerA, 7, None)] /\
  collect released (trace log) = [(Mock.peerA, 7)] /\
  collect credit_call (trace log) = [(Mock.peerA, 7, None)] /\
  length (collect reserve_call (trace log)) <>
    (length (collect released (trace log)) + length (collect credit_call (trace log)))%nat.
Proof. vm_compute. repeat split; discriminate. Qed.

(** The skip list of a query is the list of the peers [Reserve] was called
    for in the iterations before. *)
Lemma skip_list_of_iteration (W : Type) (ext : Externals W) (ps : PushSync W)
    (ctx : context.Context W) (ch : swarm.Chunk) (w : W)
    (res : error + pb.Receipt) (w' : W) (log : RunLog)
    (pre : list (list Event)) (it : list Event) (post : list (list Event))
    (skip : list swarm.Address) :
  pushToClosest ext ps ctx ch w = (res, w', log) ->
  iterations log = pre ++ it :: post ->
  In skip (collect queried it) ->
  skip = map peer_of (collect reserve_call (List.concat pre)).
Proof.
  intros E Hits Hin. apply pushToClosest_inv in E.
  destruct E as (x & lf & w1 & its & cleanup & Hloop & _ & _ & _ & ->).
  cbn [iterations] in Hits.
  eapply loop_split in Hloop; [| exact Hits].
  destruct Hloop as (l1 & w2 & ctl & l2 & w3 & Hpre & Hit & _).
  apply loop_skip in Hpre. destruct Hpre as (Hpre & _).
  apply iteration_skip in Hit. destruct Hit as (_ & Hq & _).
  rewrite (Hq _ Hin), Hpre. reflexivity.
Qed.

(** C2, as the code has it: within one call of [pushToClosest], a peer is
    on the skip list from the reservation step on.  Once [Reserve] has been
    called for a peer, every [CheapestPeer] query of the later iterations
    is given a skip list with that peer on it.  So when [CheapestPeer]
    never selects a peer of its skip list, no peer is reserved against
    twice within a call. *)
Theorem reserved_peer_is_skipped (W : Type) (ext : Externals W)
    (ps : PushSync W) (ctx : context.Context W) (ch : swarm.Chunk) (w : W) :
  let '(_, _, log) := pushToClosest ext ps ctx ch w in
  (forall pre it post peer price err later skip,
      iterations log = pre ++ it :: post ->
      In (EvReserve peer price err) it ->
      In later post ->
      In skip (collect queried later) ->
      In peer skip) /\
  ((forall a skip b w0 p w1,
       pricer.CheapestPeer (pricer ps) a skip b w0 = (inr p, w1) -> ~ In p skip) ->
   NoDup (map peer_of (collect reserve_call (trace log)))).
Proof.
  destruct (pushToClosest ext ps ctx ch w) as [[res w'] log] eqn:E.
  split.
  - intros pre it post peer price err later skip Hits Hres Hlater Hin.
    apply in_split in Hlater. destruct Hlater as (mid & post' & ->).
    assert (iterations log = (pre ++ it :: mid) ++ later :: post') as Hits'
      by (rewrite Hits, <- app_assoc; reflexivity).
    rewrite (skip_list_of_iteration _ _ _ _ _ _ _ _ _ _ _ _ _ E Hits' Hin).
    rewrite concat_mid, !collect_app, !map_app.
    apply in_or_app. right. apply in_or_app. left.
    apply (in_map peer_of _ (peer, price, err)).
    apply collect_In. exists (EvReserve peer price err). auto.
  - apply pushToClosest_inv in E.
    destruct E as (x & lf & w1 & its & cleanup & Hloop & Hc & Hr & _ & ->).
    intros Hs. apply loop_skip in Hloop. destruct Hloop as (L1 & L2).
    rewrite trace_collect. cbn [prologue iterations epilogue collect].
    rewrite (collect_cleanup reserve_call cleanup ltac:(cleanup_none) Hc).
    simpl in *. rewrite app_nil_r, <- L1. apply L2; [exact Hs | constructor].
Qed.

Lemma reserved_peer_is_skipped_witness :
  let '(_, _, log) := pushToClosest (Mock.ext Mock.bad_receipts)
                        (Mock.ps Mock.bad_receipts) Mock.ctx Mock.chunk O in
  map peer_of (collect reserve_call (trace log)) =
    [Mock.peerA; Mock.peerB; Mock.peerC; Mock.peerD; Mock.peerE] /\
  collect queried (trace log) =
    [[]; [Mock.peerA]; [Mock.peerA; Mock.peerB]; [Mock.peerA; Mock.peerB; Mock.peerC];
     [Mock.peerA; Mock.peerB; Mock.peerC; Mock.peerD]] /\
  NoDup (map peer_of (collect reserve_call (trace log))).
Proof.
  pose proof (reserved_peer_is_skipped Mock.World (Mock.ext Mock.bad_receipts)
                (Mock.ps Mock.bad_receipts) Mock.ctx Mock.chunk O) as H.
  destruct (pushToClosest (Mock.ext Mock.bad_receipts) (Mock.ps Mock.bad_receipts)
              Mock.ctx Mock.chunk O) as [[res w'] log] eqn:E.
  split; [| split].
  - vm_compute in E. inversion E. reflexivity.
  - vm_compute in E. inversion E. reflexivity.
  - apply H. intros a skip b w0 p w1 Hp.
    cbv beta iota delta [Mock.ps pricer pricer.CheapestPeer Mock.bad_receipts
                         Mock.select] in Hp.
    apply (f_equal fst) in Hp. cbv beta iota delta [fst] in Hp.
    exact (Mock_pick_fresh _ _ _ Hp).
Defined.

(** C2 as stated fails: a peer whose stream cannot be opened is not put on
    the skip list; every query of the call has the empty skip list and the
    same peer is dialed in each of the five iterations. *)
Lemma unreachable_peer_is_dialed_again :
  let '(_, _, log) := pushToClosest (Mock.ext Mock.unreachable)
                        (Mock.ps Mock.unreachable) Mock.ctx Mock.chunk O in
  collect dialed (trace log) =
    [Mock.peerA; Mock.peerA; Mock.peerA; Mock.peerA; Mock.peerA] /\
  collect queried (trace log) = [[]; []; []; []; []] /\
  ~ NoDup (collect dialed (trace log)).
Proof.
  vm_compute. repeat split. intros H. inversion H as [| ? ? Hn _]. apply Hn. now left.
Qed.

(** C3: when [PushChunkToClosest] returns a receipt, its address is the
    address of the chunk, and [Credit] was called exactly once during the
    call: for the peer the stream was opened to on which the receipt was
    read. *)
Theorem PushChunkToClosest_receipt (W : Type) (ext : Externals W) (ps : PushSync W)
    (ctx : context.Context W) (ch : swarm.Chunk) (w : W)
    (receipt : Receipt) (w' : W) (log : RunLog) :
  PushChunkToClosest ext ps ctx ch w = (inr receipt, w', log) ->
  Address receipt = swarm.chunk_Address ch /\
  exists peer price headers s r,
    collect credit_call (trace log) = [(peer, price, None)] /\
    In (EvNewStream peer headers (inr s)) (trace log) /\
    In (EvReadReceipt s (inr r)) (trace log) /\
    receipt = {| Address := swarm.NewAddress (pb.Receipt_Address r);
                 Signature := pb.Signature r |}.
Proof.
  unfold PushChunkToClosest.
  destruct (pushToClosest ext ps ctx ch w) as [[res w1] log1] eqn:E.
  destruct res as [err | r]; intros H; inversion H; subst; clear H.
  apply pushToClosest_inv in E.
  destruct E as (x & lf & w2 & its & cleanup & Hloop & Hc & _ & Hres & ->).
  destruct x as [| r']; [unfold exhausted_result in Hres; destruct (lastErr lf); discriminate |].
  subst r'. apply loop_receipt in Hloop.
  destruct Hloop as (Ha & peer & price & headers & s & A1 & A2 & A3).
  split.
  - simpl. rewrite Ha. apply NewAddress_Bytes.
  - exists peer, price, headers, s, r.
    rewrite trace_collect. cbn [prologue iterations epilogue collect].
    rewrite (collect_cleanup credit_call cleanup ltac:(cleanup_none) Hc), A1.
    unfold trace. cbn [prologue iterations epilogue].
    split; [now rewrite app_nil_r |].
    split; [apply in_or_app; right; apply in_or_app; left; assumption |].
    split; [apply in_or_app; right; apply in_or_app; left; assumption | reflexivity].
Qed.

Lemma PushChunkToClosest_receipt_witness :
  Address {| Address := Mock.chunkAddress; Signature := Mock.signature |} =
    swarm.chunk_Address Mock.chunk /\
  exists peer price headers s r,
    collect credit_call
      (trace (snd (PushChunkToClosest (Mock.ext Mock.happy) (Mock.ps Mock.happy)
                     Mock.ctx Mock.chunk O))) = [(peer, price, None)] /\
    In (EvNewStream peer headers (inr s))
      (trace (snd (PushChunkToClosest (Mock.ext Mock.happy) (Mock.ps Mock.happy)
                     Mock.ctx Mock.chunk O))) /\
    In (EvReadReceipt s (inr r))
      (trace (snd (PushChunkToClosest (Mock.ext Mock.happy) (Mock.ps Mock.happy)
                     Mock.ctx Mock.chunk O))) /\
    {| Address := Mock.chunkAddress; Signature := Mock.signature |} =
      {| Address := swarm.NewAddress (pb.Receipt_Address r);
         Signature := pb.Signature r |}.
Proof.
  apply (PushChunkToClosest_receipt Mock.World (Mock.ext Mock.happy)
           (Mock.ps Mock.happy) Mock.ctx Mock.chunk O _ 1%nat).
  vm_compute. reflexivity.
Defined.

(** C4: when the loop has spent its budget of five iterations, the call
    returns the last error an iteration recorded, and [ErrNotFound] when no
    iteration recorded one. *)
Theorem exhausted_returns_last_error (W : Type) (ext : Externals W) (ps : PushSync W)
    (ctx : context.Context W) (ch : swarm.Chunk) (w : W)
    (l : Locals) (w1 : W) (its : list (list Event)) :
  loop ext ps ctx ch maxPeers initial w = (Exhausted, l, w1, its) ->
  let '(res, _, log) := pushToClosest ext ps ctx ch w in
  iterations log = its /\
  length its = 5%nat /\
  res = match last_recorded ch None its with
        | Some e => inl e
        | None => inl topology.ErrNotFound
        end.
Proof.
  intros H.
  destruct (pushToClosest ext ps ctx ch w) as [[res w'] log] eqn:E.
  apply pushToClosest_inv in E.
  destruct E as (x & lf & w2 & its' & cleanup & Hloop & _ & _ & Hres & ->).
  rewrite H in Hloop. inversion Hloop; subst.
  split; [reflexivity |]. split.
  - apply loop_length in H. destruct H as (_ & H & _). now apply H.
  - apply loop_recorded in H. unfold exhausted_result. rewrite H. reflexivity.
Qed.

Lemma exhausted_returns_last_error_witness :
  let '(res, _, log) := pushToClosest (Mock.ext Mock.bad_receipts)
                          (Mock.ps Mock.bad_receipts) Mock.ctx Mock.chunk O in
  length (iterations log) = 5%nat /\
  res = inl (fmt_Errorf "invalid receipt. chunk %s, peer %s"
               [ArgAddress Mock.chunkAddress; ArgAddress Mock.peerE]).
Proof.
  pose proof (exhausted_returns_last_error Mock.World (Mock.ext Mock.bad_receipts)
                (Mock.ps Mock.bad_receipts) Mock.ctx Mock.chunk O) as H.
  destruct (loop (Mock.ext Mock.bad_receipts) (Mock.ps Mock.bad_receipts) Mock.ctx
              Mock.chunk maxPeers initial O) as [[[x l] w1] its] eqn:E.
  vm_compute in E. inversion E; subst. clear E.
  specialize (H _ _ _ eq_refl).
  destruct (pushToClosest (Mock.ext Mock.bad_receipts) (Mock.ps Mock.bad_receipts)
              Mock.ctx Mock.chunk O) as [[res w'] log].
  destruct H as (H1 & H2 & H3). rewrite H1. split; [exact H2 |].
  rewrite H3. vm_compute. reflexivity.
Defined.

(** C5: when [Reserve] fails, [pushToClosest] returns that error, wrapped
    with the peer: the failed call ends its iteration, which sent no
    delivery; no iteration follows, and what follows in the log is
    cleanup only. *)
Theorem reserve_failure_is_fatal (W : Type) (ext : Externals W) (ps : PushSync W)
    (ctx : context.Context W) (ch : swarm.Chunk) (w : W)
    (res : error + pb.Receipt) (w' : W) (log : RunLog)
    (pre : list (list Event)) (it : list Event) (post : list (list Event))
    (peer : swarm.Address) (price : Z) (err : error) :
  pushToClosest ext ps ctx ch w = (res, w', log) ->
  iterations log = pre ++ it :: post ->
  In (EvReserve peer price (Some err)) it ->
  res = inl (fmt_Errorf_w "reserve balance for peer %s: %w" [ArgAddress peer] err) /\
  post = [] /\
  collect delivered it = [] /\
  (exists before, it = before ++ [EvReserve peer price (Some err)]) /\
  Forall (fun e => is_cleanup e = true) (epilogue log).
Proof.
  intros E Hits Hin. apply pushToClosest_inv in E.
  destruct E as (x & lf & w1 & its & cleanup & Hloop & Hc & _ & Hres & ->).
  cbn [iterations epilogue] in *.
  eapply loop_split in Hloop; [| exact Hits].
  destruct Hloop as (l1 & w2 & ctl & l2 & w3 & _ & Hit & Hpost).
  apply iteration_inv in Hit.
  destruct Hit as [(e & _ & -> & -> & ->) | (w4 & w5 & closing & tried & _ & Hd & Ha & ->)].
  - destruct Hin as [Hin | []]. discriminate.
  - apply defersFn_inv in Hd. destruct Hd as (_ & Hcl & _).
    apply (in_tried _ _ _ _ Hcl) in Hin; [| reflexivity | reflexivity].
    eapply attempt_reserve_refused in Ha; [| exact Hin].
    destruct Ha as (-> & Hdel & before & ->).
    destruct Hpost as (-> & -> & _ & _). subst res.
    split; [reflexivity |]. split; [reflexivity |].
    rewrite (collect_iteration delivered _ _ _ ltac:(cleanup_none) eq_refl Hcl).
    split; [exact Hdel |]. split; [| exact Hc].
    exists (EvCtxDone None :: closing ++ before).
    simpl. now rewrite <- app_assoc.
Qed.

Lemma reserve_failure_is_fatal_witness :
  let '(res, _, log) := pushToClosest (Mock.ext Mock.no_balance)
                          (Mock.ps Mock.no_balance) Mock.ctx Mock.chunk O in
  res = inl (fmt_Errorf_w "reserve balance for peer %s: %w"
               [ArgAddress Mock.peerA] Mock.boom) /\
  length (iterations log) = 1%nat /\
  collect delivered (trace log) = [].
Proof.
  destruct (pushToClosest (Mock.ext Mock.no_balance) (Mock.ps Mock.no_balance)
              Mock.ctx Mock.chunk O) as [[res w'] log] eqn:E.
  pose proof E as E'. vm_compute in E'. inversion E'; subst res w' log; clear E'.
  destruct (reserve_failure_is_fatal _ _ _ _ _ _ _ _ _ [] _ [] Mock.peerA 7 Mock.boom
              E eq_refl) as (H1 & _).
  - in_list.
  - split; [exact H1 |]. split; reflexivity.
Defined.

Section Repriced.

Variable W : Type.
Variable ext : Externals W.
Variable ps : PushSync W.
Variable ctx : context.Context W.

Lemma iteration_repriced ch l w ctl l' w' it peer cur :
  iteration ext ps ctx ch l w = (ctl, l', w', it) ->
  collect selected it = [inr peer; inr cur] ->
  cur <> peer ->
  ctl = Continue /\
  skipPeers l' = skipPeers l /\
  pending (deferFuncs l') = [] /\
  collect reserve_call it = [] /\
  collect delivered it = [] /\
  collect credit_call it = [] /\
  exists proposed returned index,
    In (EvPeerPrice peer (swarm.chunk_Address ch) proposed) it /\
    In (EvNotifyPeerPrice peer returned index None) it /\
    returned <> proposed.
Proof.
  intros H Hsel Hne. apply iteration_inv in H.
  destruct H as [(err & _ & -> & -> & ->) | (w1 & w2 & cleanup & tried & _ & Hd & Ha & ->)].
  - discriminate.
  - apply defersFn_inv in Hd. destruct Hd as (_ & Hc & _).
    rewrite (collect_iteration selected _ _ _ ltac:(cleanup_none) eq_refl Hc) in Hsel.
    eapply attempt_repriced in Ha; [| exact Hsel | exact Hne].
    destruct Ha
      as (A1 & A2 & _ & A4 & A5 & A6 & A7 & proposed & returned & index & B1 & B2 & B3).
    rewrite (collect_iteration reserve_call _ _ _ ltac:(cleanup_none) eq_refl Hc),
      (collect_iteration delivered _ _ _ ltac:(cleanup_none) eq_refl Hc),
      (collect_iteration credit_call _ _ _ ltac:(cleanup_none) eq_refl Hc).
    repeat (split; [assumption |]).
    exists proposed, returned, index.
    repeat split; auto; right; apply in_or_app; right; assumption.
Qed.

Lemma iteration_released ch l w ctl l' w' it :
  iteration ext ps ctx ch l w = (ctl, l', w', it) ->
  pending (deferFuncs l) = [] ->
  collect released it = [].
Proof.
  intros H Hp. apply iteration_inv in H.
  destruct H as [(err & _ & -> & -> & ->) | (w1 & w2 & cleanup & tried & _ & Hd & Ha & ->)].
  - reflexivity.
  - apply defersFn_inv in Hd. destruct Hd as (_ & _ & Hr).
    apply attempt_reservations in Ha. destruct Ha as (A1 & _).
    simpl. now rewrite collect_app, Hr, Hp, A1.
Qed.

End Repriced.

(** C8: when the peer answers another price than the one proposed and the
    query made again gives another peer, the attempt is abandoned: the
    iteration calls neither [Reserve] nor [Credit], sends no delivery and
    leaves no reservation to release, and the peer is not put on the skip
    list.  The loop goes on: the next iteration, if the budget leaves one,
    selects again with the same skip list; if it was the fifth, the call
    ends with the result of a spent budget. *)
Theorem repriced_peer_is_abandoned (W : Type) (ext : Externals W) (ps : PushSync W)
    (ctx : context.Context W) (ch : swarm.Chunk) (w : W)
    (res : error + pb.Receipt) (w' : W) (log : RunLog)
    (pre : list (list Event)) (it : list Event) (post : list (list Event))
    (peer cur : swarm.Address) :
  pushToClosest ext ps ctx ch w = (res, w', log) ->
  iterations log = pre ++ it :: post ->
  collect selected it = [inr peer; inr cur] ->
  cur <> peer ->
  (exists proposed returned index,
      In (EvPeerPrice peer (swarm.chunk_Address ch) proposed) it /\
      In (EvNotifyPeerPrice peer returned index None) it /\
      returned <> proposed) /\
  collect reserve_call it = [] /\
  collect delivered it = [] /\
  collect credit_call it = [] /\
  match post with
  | next :: _ =>
      collect released next = [] /\
      forall skip skip', In skip (collect queried it) ->
                         In skip' (collect queried next) -> skip' = skip
  | [] =>
      length pre = 4%nat /\
      collect released (epilogue log) = [] /\
      res = budget_spent ch (iterations log)
  end.
Proof.
  intros E Hits Hsel Hne. apply pushToClosest_inv in E.
  destruct E as (x & lf & w1 & its & cleanup & Hloop & Hc & Hr & Hres & ->).
  cbn [iterations epilogue] in *.
  pose proof Hloop as Hrec. apply loop_recorded in Hrec.
  eapply loop_split in Hloop; [| exact Hits].
  destruct Hloop as (l1 & w2 & ctl & l2 & w3 & _ & Hit & Hpost).
  pose proof Hit as Hrp.
  eapply iteration_repriced in Hrp; [| exact Hsel | exact Hne].
  destruct Hrp as (-> & Hskip & Hpend & A1 & A2 & A3 & A4).
  repeat (split; [assumption |]).
  destruct Hpost as (m & Hm & Hrest).
  destruct post as [| next rest].
  - destruct m as [| m].
    + simpl in Hrest. inversion Hrest; subst x lf w1.
      split; [unfold maxPeers in Hm; lia |].
      split; [now rewrite Hr, Hpend |].
      rewrite Hres. unfold budget_spent, exhausted_result. now rewrite Hrec.
    + apply loop_length in Hrest. destruct Hrest as (_ & _ & Hn).
      exfalso. apply Hn; [discriminate | reflexivity].
  - destruct m as [| m]; [simpl in Hrest; inversion Hrest |].
    apply loop_S in Hrest. destruct Hrest as (ctl & l3 & w4 & evs & Hnext & Hrest).
    assert (evs = next) as ->.
    { destruct ctl.
      - destruct Hrest as (its' & _ & Heq). now inversion Heq.
      - destruct Hrest as (_ & _ & _ & Heq). now inversion Heq. }
    split.
    + eapply iteration_released; eauto.
    + intros skip skip' H1 H2.
      apply iteration_skip in Hit. destruct Hit as (_ & Hq & _).
      apply iteration_skip in Hnext. destruct Hnext as (_ & Hq' & _).
      rewrite (Hq _ H1), (Hq' _ H2). exact Hskip.
Qed.

Lemma repriced_peer_is_abandoned_witness :
  let '(res, _, log) := pushToClosest (Mock.ext Mock.repriced) (Mock.ps Mock.repriced)
                          Mock.ctx Mock.chunk O in
  match iterations log with
  | [first; second] =>
      collect selected first = [inr Mock.peerA; inr Mock.peerB] /\
      collect reserve_call first = [] /\
      collect delivered first = [] /\
      collect queried second = [[]; []] /\
      collect reserve_call second = [(Mock.peerB, 9, None)]
  | _ => False
  end.
Proof.
  destruct (pushToClosest (Mock.ext Mock.repriced) (Mock.ps Mock.repriced)
              Mock.ctx Mock.chunk O) as [[res w'] log] eqn:E.
  pose proof E as E'. vm_compute in E'. inversion E'; subst res w' log; clear E'.
  cbn [iterations].
  destruct (repriced_peer_is_abandoned _ _ _ _ _ _ _ _ _ [] _ _ Mock.peerA Mock.peerB
              E eq_refl eq_refl) as (_ & H1 & H2 & _).
  - discriminate.
  - split; [reflexivity |]. split; [exact H1 |]. split; [exact H2 |].
    split; reflexivity.
Defined.

Section HeaderFailures.

Variable W : Type.
Variable ext : Externals W.
Variable ps : PushSync W.
Variable ctx : context.Context W.

Lemma attempt_header_failure ch l w ctl l' w' evs :
  attempt ext ps ch l w = (ctl, l', w', evs) ->
  existsb header_failure evs = true ->
  ctl = Continue /\
  skipPeers l' = skipPeers l /\
  lastErr l' = lastErr l /\
  recorded ch evs = None /\
  collect queried evs = [skipPeers l] /\
  collect reserve_call evs = [].
Proof.
  intros H Hf. attempt_cases H; simpl in Hf; try discriminate.
  all: unfold recorded; simpl; repeat split; reflexivity.
Qed.

Lemma existsb_cleanup cleanup :
  Forall (fun e => is_cleanup e = true) cleanup ->
  existsb header_failure cleanup = false.
Proof.
  induction 1 as [| e cleanup He _ IH]; simpl; [reflexivity |].
  rewrite IH. destruct e; simpl in He; try discriminate; reflexivity.
Qed.

Lemma iteration_header_failure ch l w ctl l' w' it :
  iteration ext ps ctx ch l w = (ctl, l', w', it) ->
  existsb header_failure it = true ->
  ctl = Continue /\
  skipPeers l' = skipPeers l /\
  lastErr l' = lastErr l /\
  recorded ch it = None /\
  collect queried it = [skipPeers l] /\
  collect reserve_call it = [].
Proof.
  intros H Hf. apply iteration_inv in H.
  destruct H as [(err & _ & -> & -> & ->) | (w1 & w2 & cleanup & tried & _ & Hd & Ha & ->)].
  - discriminate.
  - apply defersFn_inv in Hd. destruct Hd as (_ & Hc & _).
    simpl in Hf. rewrite existsb_app, (existsb_cleanup _ Hc) in Hf. simpl in Hf.
    rewrite (recorded_cleanup _ _ _ _ Hc),
      (collect_iteration queried _ _ _ ltac:(cleanup_none) eq_refl Hc),
      (collect_iteration reserve_call _ _ _ ltac:(cleanup_none) eq_refl Hc).
    exact (attempt_header_failure _ _ _ _ _ _ _ Ha Hf).
Qed.

Lemma loop_header_failures ch n l w x lf wf its :
  loop ext ps ctx ch n l w = (x, lf, wf, its) ->
  Forall (fun it => existsb header_failure it = true) its ->
  x = Exhausted /\
  length its = n /\
  lastErr lf = lastErr l /\
  Forall (fun it => collect queried it = [skipPeers l]) its.
Proof.
  revert l w its. induction n as [| n IH]; intros l w its H Hall.
  - simpl in H. inversion H; subst. auto.
  - apply loop_S in H. destruct H as (ctl & l1 & w1 & evs & Hit & H).
    assert (existsb header_failure evs = true) as Hf.
    { destruct ctl.
      - destruct H as (its' & _ & ->). now inversion Hall.
      - destruct H as (_ & _ & _ & ->). now inversion Hall. }
    apply (iteration_header_failure _ _ _ _ _ _ _ Hit) in Hf.
    destruct Hf as (-> & Hs & He & _ & Hq & _).
    destruct H as (its' & Hloop & ->). inversion Hall; subst.
    destruct (IH _ _ _ Hloop) as (-> & Hlen & He' & Hq'); [assumption |].
    split; [reflexivity |]. split; [simpl; congruence |].
    split; [congruence |]. constructor; [exact Hq |]. now rewrite <- Hs.
Qed.

End HeaderFailures.

(** C9: an iteration in which the pricing headers cannot be built, or the
    headers the peer answered cannot be parsed, ends with nothing kept: no
    error is recorded, [Reserve] is not called and the peer is not put on
    the skip list, so that the next iteration selects with the same skip
    list (and may select the same peer); after the fifth iteration the
    call ends with the result of a spent budget.  When every iteration of
    a call ends that way, the call spends its five iterations, each
    selecting with the empty skip list, and returns [ErrNotFound]. *)
Theorem header_failure_is_not_recorded (W : Type) (ext : Externals W)
    (ps : PushSync W) (ctx : context.Context W) (ch : swarm.Chunk) (w : W)
    (res : error + pb.Receipt) (w' : W) (log : RunLog) :
  pushToClosest ext ps ctx ch w = (res, w', log) ->
  (forall pre it post,
      iterations log = pre ++ it :: post ->
      existsb header_failure it = true ->
      recorded ch it = None /\
      collect reserve_call it = [] /\
      match post with
      | next :: _ =>
          forall skip skip', In skip (collect queried it) ->
                             In skip' (collect queried next) -> skip' = skip
      | [] => length pre = 4%nat /\ res = budget_spent ch (iterations log)
      end) /\
  (Forall (fun it => existsb header_failure it = true) (iterations log) ->
   res = inl topology.ErrNotFound /\
   length (iterations log) = 5%nat /\
   Forall (fun it => collect queried it = [[]]) (iterations log)).
Proof.
  intros E. apply pushToClosest_inv in E.
  destruct E as (x & lf & w1 & its & cleanup & Hloop & Hc & Hr & Hres & ->).
  cbn [iterations]. split.
  - intros pre it post Hits Hf.
    pose proof Hloop as Hrec. apply loop_recorded in Hrec.
    eapply loop_split in Hloop; [| exact Hits].
    destruct Hloop as (l1 & w2 & ctl & l2 & w3 & _ & Hit & Hpost).
    pose proof Hit as Hh.
    apply (iteration_header_failure _ _ _ _ _ _ _ _ _ _ _ Hit) in Hf.
    destruct Hf as (-> & Hs & _ & Hn & Hq & Hrc).
    split; [exact Hn |]. split; [exact Hrc |].
    destruct Hpost as (m & Hm & Hrest).
    destruct post as [| next rest].
    + destruct m as [| m].
      * simpl in Hrest. inversion Hrest; subst x lf w1.
        split; [unfold maxPeers in Hm; lia |].
        rewrite Hres. unfold budget_spent, exhausted_result. now rewrite Hrec.
      * apply loop_length in Hrest. destruct Hrest as (_ & _ & Hne).
        exfalso. apply Hne; [discriminate | reflexivity].
    + destruct m as [| m]; [simpl in Hrest; inversion Hrest |].
      apply loop_S in Hrest. destruct Hrest as (ctl & l3 & w4 & evs & Hnext & Hrest).
      assert (evs = next) as ->.
      { destruct ctl.
        - destruct Hrest as (its' & _ & Heq). now inversion Heq.
        - destruct Hrest as (_ & _ & _ & Heq). now inversion Heq. }
      intros skip skip' H1 H2.
      apply iteration_skip in Hnext. destruct Hnext as (_ & Hq' & _).
      rewrite (Hq' _ H2), Hs. rewrite Hq in H1. destruct H1 as [<- | []].
      reflexivity.
  - intros Hall.
    destruct (loop_header_failures _ _ _ _ _ _ _ _ _ _ _ _ Hloop Hall)
      as (-> & Hlen & He & Hq).
    split; [| split; [exact Hlen | exact Hq]].
    rewrite Hres. unfold exhausted_result. rewrite He. reflexivity.
Qed.

Lemma header_failure_witness :
  (let '(res, _, log) := pushToClosest (Mock.ext Mock.no_headers)
                           (Mock.ps Mock.no_headers) Mock.ctx Mock.chunk O in
   res = inl topology.ErrNotFound /\
   length (iterations log) = 5%nat /\
   collect selected (trace log) =
     [inr Mock.peerA; inr Mock.peerA; inr Mock.peerA; inr Mock.peerA; inr Mock.peerA]) /\
  (let '(res, _, log) := pushToClosest (Mock.ext Mock.no_price)
                           (Mock.ps Mock.no_price) Mock.ctx Mock.chunk O in
   res = inl topology.ErrNotFound /\
   length (iterations log) = 5%nat /\
   collect dialed (trace log) =
     [Mock.peerA; Mock.peerA; Mock.peerA; Mock.peerA; Mock.peerA]).
Proof.
  split.
  - destruct (pushToClosest (Mock.ext Mock.no_headers) (Mock.ps Mock.no_headers)
                Mock.ctx Mock.chunk O) as [[res w'] log] eqn:E.
    pose proof E as E'. vm_compute in E'. inversion E'; subst res w' log; clear E'.
    destruct (header_failure_is_not_recorded _ _ _ _ _ _ _ _ _ E) as (_ & H).
    destruct H as (H1 & H2 & _).
    + cbn [iterations]. repeat constructor.
    + split; [exact H1 |]. split; [exact H2 | reflexivity].
  - destruct (pushToClosest (Mock.ext Mock.no_price) (Mock.ps Mock.no_price)
                Mock.ctx Mock.chunk O) as [[res w'] log] eqn:E.
    pose proof E as E'. vm_compute in E'. inversion E'; subst res w' log; clear E'.
    destruct (header_failure_is_not_recorded _ _ _ _ _ _ _ _ _ E) as (_ & H).
    destruct H as (H1 & H2 & _).
    + cbn [iterations]. repeat constructor.
    + split; [exact H1 |]. split; [exact H2 | reflexivity].
Defined.



(* ================================================================== *)
(** ** The relay handler *)

Lemma split_unique {A : Type} (f : Event -> option A) a x b pre y post :
  a ++ x :: b = pre ++ y :: post ->
  collect f a = [] -> collect f b = [] -> f x <> None -> f y <> None ->
  pre = a /\ y = x /\ post = b.
Proof.
  revert pre. induction a as [| z a IH]; intros pre H Ha Hb Hx Hy.
  - destruct pre as [| z pre]; simpl in H; inversion H; subst; [auto |].
    rewrite collect_app in Hb. simpl in Hb.
    destruct (f y); [| congruence].
    now destruct (collect f pre).
  - simpl in Ha. destruct (f z) eqn:Ez; [discriminate |].
    destruct pre as [| z' pre]; simpl in H; inversion H; subst; [congruence |].
    destruct (IH _ H2 Ha Hb Hx Hy) as (-> & -> & ->). auto.
Qed.

Lemma no_split {A : Type} (f : Event -> option A) l pre y post :
  l = pre ++ y :: post -> collect f l = [] -> f y <> None -> False.
Proof.
  intros -> H Hy. rewrite collect_app in H. simpl in H.
  destruct (f y); [| congruence]. now destruct (collect f pre).
Qed.

Lemma collect_push_events {A : Type} (f : Event -> option A) (evs : list Event) :
  (forall e, is_push_event e = true -> f e = None) ->
  Forall (fun e => is_push_event e = true) evs -> collect f evs = [].
Proof.
  intros Hf Hc. apply collect_nil. intros e He.
  apply Hf. rewrite Forall_forall in Hc. now apply Hc.
Qed.

Ltac push_none :=
  let E := fresh in intros [] E; simpl in E; try discriminate; reflexivity.

Section PushEvents.

Variable W : Type.
Variable ext : Externals W.
Variable ps : PushSync W.
Variable ctx : context.Context W.

Lemma cleanup_push_events evs :
  Forall (fun e => is_cleanup e = true) evs ->
  Forall (fun e => is_push_event e = true) evs.
Proof.
  apply Forall_impl. intros [] E; simpl in E; try discriminate; reflexivity.
Qed.

Lemma attempt_push_events ch l w ctl l' w' evs :
  attempt ext ps ch l w = (ctl, l', w', evs) ->
  Forall (fun e => is_push_event e = true) evs.
Proof. intros H. attempt_cases H; simpl; repeat constructor. Qed.

Lemma iteration_push_events ch l w ctl l' w' evs :
  iteration ext ps ctx ch l w = (ctl, l', w', evs) ->
  Forall (fun e => is_push_event e = true) evs.
Proof.
  intros H. apply iteration_inv in H.
  destruct H as [(err & _ & -> & -> & ->) | (w1 & w2 & cleanup & tried & _ & Hd & Ha & ->)].
  - repeat constructor.
  - apply defersFn_inv in Hd. destruct Hd as (_ & Hc & _).
    constructor; [reflexivity |]. apply Forall_app. split.
    + now apply cleanup_push_events.
    + eapply attempt_push_events; eauto.
Qed.

Lemma loop_push_events ch n l w x lf wf its :
  loop ext ps ctx ch n l w = (x, lf, wf, its) ->
  Forall (fun e => is_push_event e = true) (List.concat its).
Proof.
  revert l w its. induction n as [| n IH]; intros l w its H.
  - simpl in H. inversion H; subst. constructor.
  - apply loop_S in H. destruct H as (ctl & l1 & w1 & evs & Hit & H).
    apply iteration_push_events in Hit.
    destruct ctl as [| r].
    + destruct H as (its' & Hloop & ->). simpl. apply Forall_app. eauto.
    + destruct H as (-> & -> & -> & ->). simpl. now rewrite app_nil_r.
Qed.

Lemma pushToClosest_push_events ch w res w' log :
  pushToClosest ext ps ctx ch w = (res, w', log) ->
  Forall (fun e => is_push_event e = true) (trace log).
Proof.
  intros E. apply pushToClosest_inv in E.
  destruct E as (x & lf & w1 & its & cleanup & Hloop & Hc & _ & _ & ->).
  unfold trace. cbn [prologue iterations epilogue].
  apply Forall_app. split; [repeat constructor |].
  apply Forall_app. split.
  - eapply loop_push_events; eauto.
  - now apply cleanup_push_events.
Qed.

End PushEvents.

Section HandlerProofs.

Variable W : Type.
Variable ext : Externals W.
Variable ps : PushSync W.

Lemma each_peer_inv p peers count (w : W) r w' evs :
  each_peer (visit_neighbor p) peers count w = (r, w', evs) ->
  (count <= nPeersToPushsync)%nat ->
  Forall (fun e => exists peer, e = EvGoReplicate peer /\ peer <> p2p.Address p) evs /\
  (count + length evs <= nPeersToPushsync)%nat.
Proof.
  revert count w evs. induction peers as [| [peer po] peers IH]; intros count w evs H Hc.
  - simpl in H. run_inv. simpl. split; [constructor | lia].
  - simpl in H. unfold visit_neighbor in H at 1. run_inv.
    all: try match goal with
         | R : each_peer _ _ _ _ = _ |- _ => apply IH in R; [destruct R as [R1 R2] |]
         end.
    all: simpl; rewrite ?app_nil_r; simpl.
    all: try match goal with
         | E : (_ =? _)%nat = true |- _ => apply Nat.eqb_eq in E
         | E : (_ =? _)%nat = false |- _ => apply Nat.eqb_neq in E
         end.
    all: try lia.
    all: try (split; [assumption || constructor | lia]).
    + exists peer. split; [reflexivity |].
      intros ->. rewrite Equal_refl in Heqb. discriminate.
    + assumption.
Qed.

Lemma replications_collect {A : Type} (f : Event -> option A) p evs :
  (forall peer, f (EvGoReplicate peer) = None) ->
  Forall (fun e => exists peer, e = EvGoReplicate peer /\ peer <> p2p.Address p) evs ->
  collect f evs = [].
Proof.
  intros Hf H. apply collect_nil. intros e He.
  rewrite Forall_forall in H. destruct (H _ He) as (peer & -> & _). apply Hf.
Qed.

Lemma replications_replicated p evs :
  Forall (fun e => exists peer, e = EvGoReplicate peer /\ peer <> p2p.Address p) evs ->
  length (collect replicated_to evs) = length evs /\
  ~ In (p2p.Address p) (collect replicated_to evs).
Proof.
  induction 1 as [| e evs (peer & -> & Hne) _ [IH1 IH2]]; simpl.
  - auto.
  - split; [now rewrite IH1 |]. intros [-> | Hin]; auto.
Qed.

Lemma terminal_inv p wr d chunk price w res w' evs :
  terminal ps p wr d chunk price w = (res, w', evs) ->
  collect forwarded evs = [] /\
  exists perr rest,
    evs = EvPut chunk perr :: rest /\
    match perr with
    | Some e =>
        res = Some (fmt_Errorf_w "chunk store: %w" [] e) /\ rest = []
    | None =>
        (length (collect replicated_to rest) <= nPeersToPushsync)%nat /\
        ~ In (p2p.Address p) (collect replicated_to rest) /\
        exists sres,
          collect signed rest = [(pb.Delivery_Address d, sres)] /\
          match sres with
          | inl e =>
              res = Some (fmt_Errorf_w "receipt signature: %w" [] e) /\
              collect receipt_written rest = [] /\
              collect debit_call rest = []
          | inr signature =>
              exists werr,
                collect receipt_written rest =
                  [(protobuf.writer_stream wr,
                    {| pb.Receipt_Address := swarm.Bytes (swarm.chunk_Address chunk);
                       pb.Signature := signature |}, werr)] /\
                match werr with
                | Some e =>
                    res = Some (fmt_Errorf_w "send receipt to peer %s: %w"
                                  [ArgAddress (p2p.Address p)] e) /\
                    collect debit_call rest = []
                | None => collect debit_call rest = [(p2p.Address p, price, res)]
                end
          end
    end.
Proof.
  unfold terminal, EachNeighbor. intros H. run_inv.
  all: try match goal with
       | R : each_peer _ _ _ _ = _ |- _ =>
           apply each_peer_inv in R; [destruct R as [R1 R2] | unfold nPeersToPushsync; lia];
           pose proof (replications_replicated _ _ R1) as [R3 R4]
       end.
  all: simpl; rewrite ?collect_app; simpl.
  all: rewrite ?(replications_collect forwarded _ _ (fun _ => eq_refl) R1).
  all: (split; [reflexivity |]).
  all: do 2 eexists; (split; [reflexivity |]).
  all: simpl; rewrite ?collect_app; simpl.
  all: rewrite ?(replications_collect signed _ _ (fun _ => eq_refl) R1),
         ?(replications_collect receipt_written _ _ (fun _ => eq_refl) R1),
         ?(replications_collect debit_call _ _ (fun _ => eq_refl) R1).
  all: rewrite ?app_nil_r; simpl.
  all: try (split; reflexivity).
  all: (split; [simpl in R2; lia |]).
  all: (split; [intros Hin; apply R4; rewrite ?in_app_iff in Hin; simpl in Hin; tauto |]).
  all: eexists; (split; [reflexivity |]); simpl.
  all: try (repeat split; reflexivity).
  all: eexists; (split; [reflexivity |]); simpl.
  all: try (repeat split; reflexivity).
Qed.

End HandlerProofs.

Ltac bind_step H a w e1 e2 H1 :=
  apply bind_inv in H; destruct H as (a & w & e1 & e2 & H1 & H & ->).

Section Forwarding.

Variable W : Type.
Variable ext : Externals W.
Variable ps : PushSync W.

Lemma pushToClosest_call_inv ctx chunk w r w' evs :
  pushToClosest_call ext ps ctx chunk w = (r, w', evs) ->
  exists log,
    pushToClosest ext ps ctx chunk w = (r, w', log) /\
    evs = trace log ++ [EvForwarded chunk r].
Proof.
  unfold pushToClosest_call.
  destruct (pushToClosest ext ps ctx chunk w) as [[r0 w0] log].
  intros H. inversion H; subst. now exists log.
Qed.


Lemma handler_inv ctx p stream w res w' evs :
  handler ext ps ctx p stream w = (res, w', evs) ->
  exists w1 body closing,
    handle ext ps (WithTimeout ext ctx timeToLive) p stream
      (protobuf.NewWriter stream) (protobuf.NewReader stream) w = (res, w1, body) /\
    evs = EvWithTimeout timeToLive :: body ++ closing /\
    Forall (fun e => match e with
                     | EvMetricInc _ | EvReset _ | EvFullClose _ | EvCancel => True
                     | _ => False
                     end) closing.
Proof.
  unfold handler, protobuf.NewWriterAndReader. intros H.
  bind_step H u w1 e1 e2 H1.
  bind_step H res' w2 body e4 H2.
  bind_step H u' w3 e5 e6 H3.
  bind_step H u'' w4 e7 e8 H4.
  apply emit_inv in H1. destruct H1 as [-> ->].
  apply ret_inv in H. destruct H as (-> & -> & ->).
  exists w2, body, (e5 ++ e7 ++ []).
  split; [exact H2 |]. split; [reflexivity |].
  apply Forall_app. split.
  - clear H4. destruct res'; run_inv; repeat constructor.
  - clear H3. run_inv; repeat constructor.
Qed.

End Forwarding.

Lemma closing_collect {A : Type} (f : Event -> option A) (closing : list Event) :
  (forall name, f (EvMetricInc name) = None) ->
  (forall s, f (EvReset s) = None) ->
  (forall s, f (EvFullClose s) = None) ->
  f EvCancel = None ->
  Forall (fun e => match e with
                   | EvMetricInc _ | EvReset _ | EvFullClose _ | EvCancel => True
                   | _ => False
                   end) closing ->
  collect f closing = [].
Proof.
  intros H1 H2 H3 H4 Hc. apply collect_nil. intros e He.
  rewrite Forall_forall in Hc. specialize (Hc _ He).
  destruct e; try contradiction; auto.
Qed.

Section Handling.

Variable W : Type.
Variable ext : Externals W.
Variable ps : PushSync W.


End Handling.

(** C6: when the upstream peer is closer to the chunk than this node, the
    handler asks whether the chunk is within depth.  If it is, the handler
    calls [Put] once with the chunk, whatever [Put] returns debits the
    upstream peer for the price, and returns what [Debit] returned: success
    exactly when the debit succeeded.  If it is not, the handler returns
    [ErrOutOfDepthReplication], and neither [Put] nor [Debit] is called. *)
Theorem replication_is_stored_within_depth_only (W : Type) (ext : Externals W)
    (ps : PushSync W) (ctx : context.Context W) (p : p2p.Peer) (stream : p2p.Stream)
    (w : W) (res : option error) (w' : W) (evs : list Event) (d : pb.Delivery) :
  handler ext ps ctx p stream w = (res, w', evs) ->
  fst (streamer.ReadDelivery (streamer ps) (protobuf.NewReader stream) w) = inr d ->
  let chunk := swarm.NewChunk (swarm.NewAddress (pb.Delivery_Address d)) (pb.Data d) in
  cac_Valid ext chunk = true \/ soc_Valid ext chunk = true ->
  DistanceCmp ext (swarm.Bytes (swarm.chunk_Address chunk))
    (swarm.Bytes (p2p.Address p)) (swarm.Bytes (address ps)) = 1 ->
  exists within,
    collect depth_checked evs = [(swarm.chunk_Address chunk, within)] /\
    if within then
      collect stored evs = [chunk] /\
      exists price,
        collect debit_call evs = [(p2p.Address p, price, res)] /\
        (ParsePriceHeader ext (p2p.stream_ResponseHeaders stream) = inr price \/
         In (EvPriceForPeer (p2p.Address p) (swarm.chunk_Address chunk) price) evs)
    else
      res = Some ErrOutOfDepthReplication /\
      collect stored evs = [] /\
      collect debit_call evs = [].
Proof.
  intros H Hd chunk Hvalid Hcmp.
  apply handler_inv in H. destruct H as (w1 & body & closing & H & -> & Hc).
  assert (forall {A} (f : Event -> option A),
             (forall name, f (EvMetricInc name) = None) ->
             (forall s, f (EvReset s) = None) ->
             (forall s, f (EvFullClose s) = None) ->
             f EvCancel = None -> f (EvWithTimeout timeToLive) = None ->
             collect f (EvWithTimeout timeToLive :: body ++ closing) = collect f body)
    as Hbody.
  { intros A f H1 H2 H3 H4 H5. simpl. rewrite H5, collect_app.
    rewrite (closing_collect f closing H1 H2 H3 H4 Hc). apply app_nil_r. }
  rewrite !Hbody by reflexivity.
  unfold handle, replicated in H. run_inv.
  all: match goal with
       | R : streamer.ReadDelivery _ _ _ = _ |- _ =>
           rewrite R in Hd; simpl in Hd;
           try discriminate; inversion Hd; subst
       end.
  all: subst chunk.
  all: try (destruct Hvalid as [Hv | Hv]; rewrite Hv in *; simpl in *; discriminate).
  all: try match goal with
       | E : (_ =? 1) = false |- _ => rewrite Hcmp in E; discriminate
       end.
  all: eexists; split; [reflexivity |]; simpl.
  all: try (repeat split; reflexivity).
  all: split; [reflexivity |]; eexists; split; [reflexivity |].
  all: try (left; reflexivity || assumption).
  all: right; simpl; auto 12.
Qed.

Lemma replication_within_depth_witness :
  exists within,
    collect depth_checked
      (snd (handler (Mock.ext (Mock.replica true)) (Mock.ps (Mock.replica true))
              Mock.ctx Mock.from_upstream Mock.inbound O)) =
      [(Mock.chunkAddress, within)] /\
    if within then
      collect stored
        (snd (handler (Mock.ext (Mock.replica true)) (Mock.ps (Mock.replica true))
                Mock.ctx Mock.from_upstream Mock.inbound O)) = [Mock.chunk] /\
      exists price,
        collect debit_call
          (snd (handler (Mock.ext (Mock.replica true)) (Mock.ps (Mock.replica true))
                  Mock.ctx Mock.from_upstream Mock.inbound O)) =
          [(Mock.upstream, price, None)] /\
        (ParsePriceHeader (Mock.ext (Mock.replica true))
           (p2p.stream_ResponseHeaders Mock.inbound) = inr price \/
         In (EvPriceForPeer Mock.upstream Mock.chunkAddress price)
           (snd (handler (Mock.ext (Mock.replica true)) (Mock.ps (Mock.replica true))
                   Mock.ctx Mock.from_upstream Mock.inbound O)))
    else
      (None : option error) = Some ErrOutOfDepthReplication /\
      collect stored
        (snd (handler (Mock.ext (Mock.replica true)) (Mock.ps (Mock.replica true))
                Mock.ctx Mock.from_upstream Mock.inbound O)) = [] /\
      collect debit_call
        (snd (handler (Mock.ext (Mock.replica true)) (Mock.ps (Mock.replica true))
                Mock.ctx Mock.from_upstream Mock.inbound O)) = [].
Proof.
  apply (replication_is_stored_within_depth_only Mock.World
           (Mock.ext (Mock.replica true)) (Mock.ps (Mock.replica true))
           Mock.ctx Mock.from_upstream Mock.inbound O None O _ Mock.delivery).
  - vm_compute. reflexivity.
  - reflexivity.
  - left. reflexivity.
  - reflexivity.
Defined.

(** C6 as stated fails within depth: when [Put] fails the chunk is not
    stored, yet the upstream peer is debited and the handler returns
    success; and when [Debit] fails the handler returns that error although
    the chunk was stored. *)
Lemma store_and_success_come_apart :
  (let '(res, _, evs) := handler (Faults.ext (Mock.replica true) Faults.no_store)
                           (Faults.ps (Mock.replica true) Faults.no_store)
                           Mock.ctx Mock.from_upstream Mock.inbound O in
   collect depth_checked evs = [(Mock.chunkAddress, true)] /\
   collect store_call evs = [(Mock.chunk, Some Mock.boom)] /\
   collect debit_call evs = [(Mock.upstream, 3, None)] /\
   res = None) /\
  (let '(res, _, evs) := handler (Faults.ext (Mock.replica true) Faults.no_debit)
                           (Faults.ps (Mock.replica true) Faults.no_debit)
                           Mock.ctx Mock.from_upstream Mock.inbound O in
   collect depth_checked evs = [(Mock.chunkAddress, true)] /\
   collect store_call evs = [(Mock.chunk, None)] /\
   collect debit_call evs = [(Mock.upstream, 3, Some Mock.boom)] /\
   res = Some Mock.boom).
Proof. vm_compute. repeat split; reflexivity. Qed.



(* ================================================================== *)
(** * Further properties of the code *)

(* ================================================================== *)
(** ** More on one attempt *)

Lemma to_close_app (a b : list Deferred) : to_close (a ++ b) = to_close a ++ to_close b.
Proof.
  induction a as [| d a IH]; [reflexivity |]. destruct d; simpl; now rewrite IH.
Qed.

Lemma to_cancel_app (a b : list Deferred) :
  to_cancel (a ++ b) = (to_cancel a + to_cancel b)%nat.
Proof.
  induction a as [| d a IH]; [reflexivity |]. destruct d; simpl; now rewrite IH.
Qed.

Section AttemptMore.

Variable W : Type.
Variable ext : Externals W.
Variable ps : PushSync W.

Lemma run_all_resources (le : option error) (ds : list Deferred) (w w' : W) u evs :
  run_all ps le ds w = (u, w', evs) ->
  collect closed evs = to_close ds /\
  length (collect cancelled evs) = to_cancel ds.
Proof.
  revert w evs. induction ds as [| d ds IH]; simpl; intros w evs H.
  - run_inv. auto.
  - apply bind_inv in H. destruct H as (a & w1 & e1 & e2 & H1 & H2 & ->).
    destruct (IH _ _ H2) as [IH1 IH2].
    rewrite !collect_app, length_app, IH1, IH2.
    destruct d; simpl in H1; run_inv; simpl; split; auto.
Qed.

Lemma attempt_resources ch l w ctl l' w' evs :
  attempt ext ps ch l w = (ctl, l', w', evs) ->
  collect closed evs = [] /\
  to_close (deferFuncs l') = to_close (deferFuncs l) ++ collect opened evs /\
  collect cancelled evs = [] /\
  to_cancel (deferFuncs l') = (to_cancel (deferFuncs l) + length (collect timeouts evs))%nat.
Proof.
  intros H. attempt_cases H; simpl;
    rewrite ?to_close_app, ?to_cancel_app, ?app_nil_r; simpl;
    rewrite ?app_nil_r, ?Nat.add_0_r; repeat split; auto; lia.
Qed.

Lemma attempt_counts ch l w ctl l' w' evs :
  attempt ext ps ch l w = (ctl, l', w', evs) ->
  collect delivered evs = map (fun _ => delivery_of ch) (collect reserved evs) /\
  collect reset evs = collect failed_io evs /\
  (length (collect dialed evs) <= 1)%nat /\
  (1 <= length (collect selected evs) <= 2)%nat /\
  collect polled evs = [] /\
  (length (collect reserved evs) <= 1)%nat /\
  collect timeouts evs = map (fun _ => timeToLive) (collect reserved evs).
Proof.
  intros H. attempt_cases H; simpl; repeat split; auto; lia.
Qed.

End AttemptMore.

Section AttemptPaths.

Variable W : Type.
Variable ext : Externals W.
Variable ps : PushSync W.

Lemma attempt_reserve_price ch l w ctl l' w' evs peer price err :
  attempt ext ps ch l w = (ctl, l', w', evs) ->
  In (EvReserve peer price err) evs ->
  exists headers stream target index,
    In (EvNewStream peer headers (inr stream)) evs /\
    In (EvParsePricingResponseHeaders (p2p.stream_Headers stream)
          (inr (target, price, index))) evs.
Proof.
  intros H Hin. attempt_cases H; simpl in Hin; in_cases;
    match goal with
    | E : EvReserve _ _ _ = EvReserve _ _ _ |- _ => inversion E; subst; clear E
    end;
    try match goal with
    | E : negb (_ =? _) = false |- _ =>
        apply negb_false_iff, Z.eqb_eq in E; subst
    end;
    do 4 eexists; split; in_list.
Qed.

Lemma attempt_select_failed ch l w ctl l' w' evs err :
  attempt ext ps ch l w = (ctl, l', w', evs) ->
  collect selected evs = [inl err] ->
  ctl = Return (inl (fmt_Errorf_w "closest peer: %w" [] err)) /\
  l' = l /\
  evs = [EvCheapestPeer (swarm.chunk_Address ch) (skipPeers l) false (inl err)].
Proof.
  intros H Hsel. attempt_cases H; simpl in Hsel; try discriminate;
    inversion Hsel; subst; auto.
Qed.

Lemma attempt_requery_failed ch l w ctl l' w' evs peer err :
  attempt ext ps ch l w = (ctl, l', w', evs) ->
  collect selected evs = [inr peer; inl err] ->
  exists proposed returned index rerr,
    In (EvPeerPrice peer (swarm.chunk_Address ch) proposed) evs /\
    In (EvNotifyPeerPrice peer returned index None) evs /\
    returned <> proposed /\
    collect reserve_call evs = [(peer, returned, rerr)].
Proof.
  intros H Hsel. attempt_cases H; simpl in Hsel; try discriminate;
    inversion Hsel; subst;
    match goal with
    | E : negb (_ =? _) = true |- _ => apply negb_true_iff, Z.eqb_neq in E
    end;
    do 4 eexists; (split; [in_list |]); (split; [in_list |]);
    (split; [eassumption |]); reflexivity.
Qed.

Lemma attempt_tag_failed ch l w ctl l' w' evs t err :
  attempt ext ps ch l w = (ctl, l', w', evs) ->
  In (EvTagInc t (Some err)) evs ->
  ctl = Return (inl (fmt_Errorf_v "tag %d increment: %v"
                       [ArgUint (swarm.chunk_TagID ch)] err)) /\
  collect receipt_read evs = [] /\
  collect credit_call evs = [] /\
  (exists s, In (EvWriteDelivery s (delivery_of ch) None) evs) /\
  exists before, evs = before ++ [EvTagInc t (Some err)].
Proof.
  intros H Hin. attempt_cases H; simpl in Hin; in_cases;
    match goal with
    | E : EvTagInc _ _ = EvTagInc _ _ |- _ => inversion E; subst; clear E
    end;
    (split; [reflexivity |]); (split; [reflexivity |]); (split; [reflexivity |]);
    (split; [eexists; unfold delivery_of; in_list |]);
    match goal with
    | |- exists before, ?x = _ => exists (removelast x); reflexivity
    end.
Qed.

Lemma attempt_credit_failed ch l w ctl l' w' evs peer price err :
  attempt ext ps ch l w = (ctl, l', w', evs) ->
  In (EvCredit peer price (Some err)) evs ->
  ctl = Return (inl err) /\
  collect reserved evs = [(peer, price)] /\
  (exists s r, In (EvReadReceipt s (inr r)) evs /\
               pb.Receipt_Address r = swarm.Bytes (swarm.chunk_Address ch)) /\
  exists before, evs = before ++ [EvCredit peer price (Some err)].
Proof.
  intros H Hin. attempt_cases H; simpl in Hin; in_cases;
    match goal with
    | E : EvCredit _ _ _ = EvCredit _ _ _ |- _ => inversion E; subst; clear E
    end;
    match goal with
    | E : negb (swarm.Equal _ _) = false |- _ =>
        apply negb_false_iff, Equal_receipt in E
    end;
    (split; [reflexivity |]); (split; [reflexivity |]);
    (split; [do 2 eexists; split; [in_list | assumption] |]);
    match goal with
    | |- exists before, ?x = _ => exists (removelast x); reflexivity
    end.
Qed.

Lemma attempt_notify_failed ch l w ctl l' w' evs peer price index err :
  attempt ext ps ch l w = (ctl, l', w', evs) ->
  In (EvNotifyPeerPrice peer price index (Some err)) evs ->
  ctl = Continue /\
  skipPeers l' = skipPeers l /\
  lastErr l' = lastErr l /\
  recorded ch evs = None /\
  collect selected evs = [inr peer] /\
  collect reserve_call evs = [] /\
  exists before, evs = before ++ [EvNotifyPeerPrice peer price index (Some err)].
Proof.
  intros H Hin. attempt_cases H; simpl in Hin; in_cases;
    match goal with
    | E : EvNotifyPeerPrice _ _ _ _ = EvNotifyPeerPrice _ _ _ _ |- _ =>
        inversion E; subst; clear E
    end;
    repeat (split; [reflexivity |]);
    match goal with
    | |- exists before, ?x = _ => exists (removelast x); reflexivity
    end.
Qed.

End AttemptPaths.

Section AttemptDial.

Variable W : Type.
Variable ext : Externals W.
Variable ps : PushSync W.

Lemma attempt_dialed ch l w ctl l' w' evs peer headers r :
  attempt ext ps ch l w = (ctl, l', w', evs) ->
  In (EvNewStream peer headers r) evs ->
  exists skip price,
    In (EvCheapestPeer (swarm.chunk_Address ch) skip false (inr peer)) evs /\
    In (EvPeerPrice peer (swarm.chunk_Address ch) price) evs /\
    In (EvMakePricingHeaders price (swarm.chunk_Address ch) (inr headers)) evs.
Proof.
  intros H Hin. attempt_cases H; simpl in Hin; in_cases;
    match goal with
    | E : EvNewStream _ _ _ = EvNewStream _ _ _ |- _ => inversion E; subst; clear E
    end;
    do 2 eexists; (split; [in_list |]); split; in_list.
Qed.

End AttemptDial.

(* ================================================================== *)
(** ** Streams, timeouts and counts of a call *)

Lemma collect_concat_map {A B : Type} (f : Event -> option A) (g : Event -> option B)
    (k : B -> A) (its : list (list Event)) :
  Forall (fun it => collect f it = map k (collect g it)) its ->
  collect f (List.concat its) = map k (collect g (List.concat its)).
Proof.
  induction 1 as [| it its H _ IH]; [reflexivity |].
  simpl. now rewrite !collect_app, map_app, H, IH.
Qed.

Lemma collect_concat_length {A : Type} (f : Event -> option A) (k : nat)
    (its : list (list Event)) :
  Forall (fun it => (length (collect f it) <= k)%nat) its ->
  (length (collect f (List.concat its)) <= k * length its)%nat.
Proof.
  induction 1 as [| it its H _ IH]; simpl; [lia |].
  rewrite collect_app, length_app. lia.
Qed.

Section LoopMore.

Variable W : Type.
Variable ext : Externals W.
Variable ps : PushSync W.
Variable ctx : context.Context W.

Lemma defersFn_resources (l l' : Locals) (w w' : W) evs :
  defersFn ps l w = (l', w', evs) ->
  collect closed evs = to_close (deferFuncs l) /\
  length (collect cancelled evs) = to_cancel (deferFuncs l).
Proof.
  unfold defersFn. intros H. run_inv.
  rewrite app_nil_r. eapply run_all_resources; eauto.
Qed.

Lemma pushToClosest_epilogue ch w res w' log :
  pushToClosest ext ps ctx ch w = (res, w', log) ->
  exists x lf w1 its w2 cl,
    loop ext ps ctx ch maxPeers initial w = (x, lf, w1, its) /\
    defersFn ps lf w1 = (clear_defers lf, w2, cl) /\
    res = match x with Returned r => r | Exhausted => exhausted_result lf end /\
    log = {| prologue := [EvSpanStart "push-closest"];
             iterations := its;
             epilogue :=
               (match x with
                | Exhausted => [EvLog "trace" "pushsync: chunk %s: reached %v peers"]
                | Returned _ => []
                end) ++ cl ++ [EvSpanFinish] |}.
Proof.
  unfold pushToClosest.
  destruct (loop ext ps ctx ch maxPeers initial w) as [[[x lf] w1] its].
  destruct (bind (defersFn ps lf) (fun _ => emit EvSpanFinish) w1)
    as [[u w2] cleanup] eqn:E.
  run_inv.
  match goal with
  | D : defersFn _ _ _ = (?l, ?w, ?c) |- _ =>
      pose proof (defersFn_inv _ _ _ _ _ _ _ D) as (El & _ & _); subst l;
      intros Hres; exists x, lf, w1, its, w, c
  end.
  split; [reflexivity |]. split; [assumption |].
  destruct x; inversion Hres; split; reflexivity.
Qed.

Lemma iteration_resources ch l w ctl l' w' evs :
  iteration ext ps ctx ch l w = (ctl, l', w', evs) ->
  to_close (deferFuncs l) ++ collect opened evs =
    collect closed evs ++ to_close (deferFuncs l') /\
  (to_cancel (deferFuncs l) + length (collect timeouts evs) =
    length (collect cancelled evs) + to_cancel (deferFuncs l'))%nat.
Proof.
  intros H. apply iteration_inv in H.
  destruct H as [(err & _ & -> & -> & ->) | (w1 & w2 & cleanup & tried & _ & Hd & Ha & ->)].
  - simpl. rewrite app_nil_r. split; [reflexivity | lia].
  - pose proof (defersFn_inv _ _ _ _ _ _ _ Hd) as (_ & Hc & _).
    apply defersFn_resources in Hd. destruct Hd as (D1 & D2).
    apply attempt_resources in Ha. destruct Ha as (A1 & A2 & A3 & A4).
    simpl in A2, A4. cbn [collect opened closed timeouts cancelled].
    rewrite !collect_app, !length_app, A1, A2, A3, A4, D1, D2.
    rewrite (collect_cleanup opened cleanup ltac:(cleanup_none) Hc),
      (collect_cleanup timeouts cleanup ltac:(cleanup_none) Hc).
    simpl. rewrite !app_nil_r. split; [reflexivity | lia].
Qed.

Lemma loop_resources ch n l w x lf wf its :
  loop ext ps ctx ch n l w = (x, lf, wf, its) ->
  to_close (deferFuncs l) ++ collect opened (List.concat its) =
    collect closed (List.concat its) ++ to_close (deferFuncs lf) /\
  (to_cancel (deferFuncs l) + length (collect timeouts (List.concat its)) =
    length (collect cancelled (List.concat its)) + to_cancel (deferFuncs lf))%nat.
Proof.
  revert l w its. induction n as [| n IH]; intros l w its H.
  - simpl in H. inversion H; subst. simpl. rewrite app_nil_r. split; [reflexivity | lia].
  - apply loop_S in H. destruct H as (ctl & l1 & w1 & evs & Hit & H).
    apply iteration_resources in Hit. destruct Hit as (I1 & I2).
    destruct ctl as [| r].
    + destruct H as (its' & Hloop & ->).
      destruct (IH _ _ _ Hloop) as (L1 & L2).
      simpl. rewrite !collect_app, !length_app. split.
      * rewrite app_assoc, I1, <- !app_assoc. now rewrite L1.
      * lia.
    + destruct H as (-> & -> & -> & ->). simpl. rewrite !app_nil_r. auto.
Qed.

Lemma loop_Forall (P : swarm.Chunk -> list Event -> Prop) :
  (forall ch l w ctl l' w' evs,
      iteration ext ps ctx ch l w = (ctl, l', w', evs) -> P ch evs) ->
  forall ch n l w x lf wf its,
    loop ext ps ctx ch n l w = (x, lf, wf, its) -> Forall (P ch) its.
Proof.
  intros HP ch n. induction n as [| n IH]; intros l w x lf wf its H.
  - simpl in H. inversion H. constructor.
  - apply loop_S in H. destruct H as (ctl & l1 & w1 & evs & Hit & H).
    apply HP in Hit.
    destruct ctl as [| r].
    + destruct H as (its' & Hloop & ->). constructor; [exact Hit |]. eapply IH; eauto.
    + destruct H as (-> & -> & -> & ->). constructor; [exact Hit | constructor].
Qed.

Lemma iteration_counts ch l w ctl l' w' evs :
  iteration ext ps ctx ch l w = (ctl, l', w', evs) ->
  collect delivered evs = map (fun _ => delivery_of ch) (collect reserved evs) /\
  collect reset evs = map (fun s => s) (collect failed_io evs) /\
  collect timeouts evs = map (fun _ => timeToLive) (collect reserved evs) /\
  (length (collect dialed evs) <= 1)%nat /\
  (length (collect selected evs) <= 2)%nat /\
  (length (collect reserve_call evs) <= 1)%nat /\
  length (collect polled evs) = 1%nat.
Proof.
  intros H. apply iteration_inv in H.
  destruct H as [(err & _ & -> & -> & ->) | (w1 & w2 & cleanup & tried & _ & Hd & Ha & ->)].
  - simpl. repeat split; auto; lia.
  - apply defersFn_inv in Hd. destruct Hd as (_ & Hc & _).
    pose proof (attempt_skip _ _ _ _ _ _ _ _ _ _ Ha) as (_ & _ & Hr).
    apply attempt_counts in Ha. destruct Ha as (A1 & A2 & A3 & A4 & A5 & A6 & A7).
    rewrite map_id.
    rewrite
      (collect_iteration delivered _ _ _ ltac:(cleanup_none) eq_refl Hc),
      (collect_iteration reserved _ _ _ ltac:(cleanup_none) eq_refl Hc),
      (collect_iteration reset _ _ _ ltac:(cleanup_none) eq_refl Hc),
      (collect_iteration failed_io _ _ _ ltac:(cleanup_none) eq_refl Hc),
      (collect_iteration timeouts _ _ _ ltac:(cleanup_none) eq_refl Hc),
      (collect_iteration dialed _ _ _ ltac:(cleanup_none) eq_refl Hc),
      (collect_iteration selected _ _ _ ltac:(cleanup_none) eq_refl Hc),
      (collect_iteration reserve_call _ _ _ ltac:(cleanup_none) eq_refl Hc).
    cbn [collect polled]. rewrite collect_app, A5,
      (collect_cleanup polled cleanup ltac:(cleanup_none) Hc).
    repeat split; auto; lia.
Qed.

End LoopMore.

(** X1: every stream [pushToClosest] opens gets its [FullClose] started by a
    cleanup closure, exactly once and in the order of opening, whatever path
    the call takes; no other stream is closed. *)
Theorem opened_streams_are_closed (W : Type) (ext : Externals W) (ps : PushSync W)
    (ctx : context.Context W) (ch : swarm.Chunk) (w : W) :
  let '(_, _, log) := pushToClosest ext ps ctx ch w in
  collect closed (trace log) = collect opened (trace log).
Proof.
  destruct (pushToClosest ext ps ctx ch w) as [[res w'] log] eqn:E.
  apply pushToClosest_epilogue in E.
  destruct E as (x & lf & w1 & its & w2 & cl & Hloop & Hd & _ & ->).
  pose proof (defersFn_inv _ _ _ _ _ _ _ Hd) as (_ & Hc & _).
  apply defersFn_resources in Hd. destruct Hd as (D1 & _).
  apply loop_resources in Hloop. destruct Hloop as (L1 & _).
  rewrite !trace_collect. cbn [prologue iterations epilogue collect opened closed].
  rewrite !collect_app, D1.
  rewrite (collect_cleanup opened cl ltac:(cleanup_none) Hc).
  simpl in L1. rewrite L1.
  destruct x; simpl; now rewrite !app_nil_r.
Qed.

(** X2: [pushToClosest] starts one timeout of [timeToLive] seconds for every
    reservation it makes, and the call cancels as many timeouts as it
    started. *)
Theorem timeouts_are_cancelled (W : Type) (ext : Externals W) (ps : PushSync W)
    (ctx : context.Context W) (ch : swarm.Chunk) (w : W) :
  let '(_, _, log) := pushToClosest ext ps ctx ch w in
  collect timeouts (trace log) =
    map (fun _ => timeToLive) (collect reserved (trace log)) /\
  length (collect cancelled (trace log)) = length (collect timeouts (trace log)).
Proof.
  destruct (pushToClosest ext ps ctx ch w) as [[res w'] log] eqn:E.
  apply pushToClosest_epilogue in E.
  destruct E as (x & lf & w1 & its & w2 & cl & Hloop & Hd & _ & ->).
  pose proof (defersFn_inv _ _ _ _ _ _ _ Hd) as (_ & Hc & _).
  apply defersFn_resources in Hd. destruct Hd as (_ & D2).
  pose proof (loop_Forall _ _ _ _ _ (iteration_counts W ext ps ctx) _ _ _ _ _ _ _ _ Hloop)
    as HF.
  apply loop_resources in Hloop. destruct Hloop as (_ & L2).
  rewrite !trace_collect. cbn [prologue iterations epilogue collect timeouts reserved cancelled].
  rewrite !collect_app, !length_app.
  rewrite (collect_cleanup timeouts cl ltac:(cleanup_none) Hc),
    (collect_cleanup reserved cl ltac:(cleanup_none) Hc).
  split.
  - rewrite (collect_concat_map timeouts reserved (fun _ => timeToLive) its).
    + destruct x; simpl; now rewrite !app_nil_r.
    + eapply Forall_impl; [| exact HF]. intros it H. apply H.
  - simpl in L2. destruct x; simpl; rewrite ?app_nil_r, ?Nat.add_0_r; simpl; lia.
Qed.

Lemma collect_concat_count {A : Type} (f : Event -> option A)
    (its : list (list Event)) :
  Forall (fun it => length (collect f it) = 1%nat) its ->
  length (collect f (List.concat its)) = length its.
Proof.
  induction 1 as [| it its H _ IH]; simpl; [reflexivity |].
  rewrite collect_app, length_app. lia.
Qed.

Lemma trace_iterations {A : Type} (f : Event -> option A) (its : list (list Event))
    (cleanup : list Event) :
  (forall e, is_cleanup e = true -> f e = None) ->
  f (EvSpanStart "push-closest") = None ->
  Forall (fun e => is_cleanup e = true) cleanup ->
  collect f (trace {| prologue := [EvSpanStart "push-closest"];
                      iterations := its;
                      epilogue := cleanup |}) = collect f (List.concat its).
Proof.
  intros Hf Hs Hc. rewrite trace_collect. cbn [prologue iterations epilogue collect].
  rewrite Hs, (collect_cleanup f cleanup Hf Hc). simpl. apply app_nil_r.
Qed.

(** X4: [pushToClosest] writes the delivery once for every reservation it
    made and never without one, and every delivery written carries the
    address and the data of the chunk. *)
Theorem deliveries_follow_reservations (W : Type) (ext : Externals W)
    (ps : PushSync W) (ctx : context.Context W) (ch : swarm.Chunk) (w : W) :
  let '(_, _, log) := pushToClosest ext ps ctx ch w in
  collect delivered (trace log) =
    map (fun _ => delivery_of ch) (collect reserved (trace log)).
Proof.
  destruct (pushToClosest ext ps ctx ch w) as [[res w'] log] eqn:E.
  apply pushToClosest_inv in E.
  destruct E as (x & lf & w1 & its & cleanup & Hloop & Hc & _ & _ & ->).
  pose proof (loop_Forall _ _ _ _ _ (iteration_counts W ext ps ctx) _ _ _ _ _ _ _ _ Hloop)
    as HF.
  rewrite (trace_iterations delivered its cleanup ltac:(cleanup_none) eq_refl Hc),
    (trace_iterations reserved its cleanup ltac:(cleanup_none) eq_refl Hc).
  apply collect_concat_map.
  eapply Forall_impl; [| exact HF]. intros it H. apply H.
Qed.

(** X5: [pushToClosest] resets exactly the streams on which writing the
    delivery or reading the receipt failed, in that order; a receipt for
    another chunk does not reset the stream. *)
Theorem reset_follows_failed_io (W : Type) (ext : Externals W)
    (ps : PushSync W) (ctx : context.Context W) (ch : swarm.Chunk) (w : W) :
  let '(_, _, log) := pushToClosest ext ps ctx ch w in
  collect reset (trace log) = collect failed_io (trace log).
Proof.
  destruct (pushToClosest ext ps ctx ch w) as [[res w'] log] eqn:E.
  apply pushToClosest_inv in E.
  destruct E as (x & lf & w1 & its & cleanup & Hloop & Hc & _ & _ & ->).
  pose proof (loop_Forall _ _ _ _ _ (iteration_counts W ext ps ctx) _ _ _ _ _ _ _ _ Hloop)
    as HF.
  rewrite (trace_iterations reset its cleanup ltac:(cleanup_none) eq_refl Hc),
    (trace_iterations failed_io its cleanup ltac:(cleanup_none) eq_refl Hc).
  rewrite <- (map_id (collect failed_io (List.concat its))).
  apply collect_concat_map.
  eapply Forall_impl; [| exact HF]. intros it H. apply H.
Qed.

(** X6: a call of [pushToClosest] runs between one and five iterations;
    every iteration polls the context exactly once and makes at most two
    queries of the cheapest peer, one dial and one call of [Reserve], so a
    call makes at most ten queries, five dials and five calls of
    [Reserve]. *)
Theorem push_is_bounded (W : Type) (ext : Externals W)
    (ps : PushSync W) (ctx : context.Context W) (ch : swarm.Chunk) (w : W) :
  let '(_, _, log) := pushToClosest ext ps ctx ch w in
  (1 <= length (iterations log) <= 5)%nat /\
  Forall (fun it =>
            length (collect polled it) = 1%nat /\
            (length (collect selected it) <= 2)%nat /\
            (length (collect dialed it) <= 1)%nat /\
            (length (collect reserve_call it) <= 1)%nat) (iterations log) /\
  length (collect polled (trace log)) = length (iterations log) /\
  (length (collect selected (trace log)) <= 10)%nat /\
  (length (collect dialed (trace log)) <= 5)%nat /\
  (length (collect reserve_call (trace log)) <= 5)%nat.
Proof.
  destruct (pushToClosest ext ps ctx ch w) as [[res w'] log] eqn:E.
  apply pushToClosest_inv in E.
  destruct E as (x & lf & w1 & its & cleanup & Hloop & Hc & _ & _ & ->).
  pose proof (loop_Forall _ _ _ _ _ (iteration_counts W ext ps ctx) _ _ _ _ _ _ _ _ Hloop)
    as HF.
  apply loop_length in Hloop. destruct Hloop as (Hle & _ & Hne).
  rewrite (trace_iterations polled its cleanup ltac:(cleanup_none) eq_refl Hc),
    (trace_iterations selected its cleanup ltac:(cleanup_none) eq_refl Hc),
    (trace_iterations dialed its cleanup ltac:(cleanup_none) eq_refl Hc),
    (trace_iterations reserve_call its cleanup ltac:(cleanup_none) eq_refl Hc).
  cbn [iterations]. unfold maxPeers in Hle.
  assert (1 <= length its)%nat as Hone.
  { destruct its; [exfalso; apply Hne; [discriminate | reflexivity] |]. simpl. lia. }
  split; [split; [exact Hone | exact Hle] |].
  split.
  { eapply Forall_impl; [| exact HF]. intros it (_ & _ & _ & H1 & H2 & H3 & H4). auto. }
  split.
  { apply collect_concat_count. eapply Forall_impl; [| exact HF]. intros it H. apply H. }
  assert (forall A (f : Event -> option A) k,
             Forall (fun it => (length (collect f it) <= k)%nat) its ->
             (length (collect f (List.concat its)) <= k * 5)%nat) as Hk.
  { intros A f k H. apply collect_concat_length in H. nia. }
  split; [apply (Hk _ selected 2%nat) | split; [apply (Hk _ dialed 1%nat)
                                                | apply (Hk _ reserve_call 1%nat)]];
    (eapply Forall_impl; [| exact HF]); intros it H; apply H.
Qed.

(* ================================================================== *)
(** ** At most one reservation is held *)

Lemma collect_prefix {A : Type} (f : Event -> option A) (evs pre post : list Event) :
  evs = pre ++ post -> (length (collect f pre) <= length (collect f evs))%nat.
Proof. intros ->. rewrite collect_app, length_app. lia. Qed.

Lemma balanced_bounds (p : nat) (evs : list Event) :
  (length (collect released evs) <= p)%nat ->
  (p + length (collect reserved evs) <= 1)%nat ->
  balanced p evs.
Proof.
  intros H1 H2 pre post Hevs.
  pose proof (collect_prefix released _ _ _ Hevs).
  pose proof (collect_prefix reserved _ _ _ Hevs).
  lia.
Qed.

Lemma balanced_app (p q : nat) (a b : list Event) :
  balanced p a ->
  (p + length (collect reserved a) = length (collect released a) + q)%nat ->
  balanced q b ->
  balanced p (a ++ b).
Proof.
  intros Ha Hq Hb pre post Hevs.
  apply app_eq_app in Hevs. destruct Hevs as (l & [(H1 & H2) | (H1 & H2)]).
  - exact (Ha pre l H1).
  - destruct (Hb l post H2) as (B1 & B2).
    destruct (Ha a [] (eq_sym (app_nil_r a))) as (A1 & A2).
    subst pre. rewrite !collect_app, !length_app. lia.
Qed.

Section Balance.

Variable W : Type.
Variable ext : Externals W.
Variable ps : PushSync W.
Variable ctx : context.Context W.

Lemma iteration_balanced ch l w ctl l' w' evs :
  iteration ext ps ctx ch l w = (ctl, l', w', evs) ->
  (length (pending (deferFuncs l)) <= 1)%nat ->
  balanced (length (pending (deferFuncs l))) evs /\
  (length (pending (deferFuncs l)) + length (collect reserved evs) =
   length (collect released evs) + length (pending (deferFuncs l')))%nat /\
  (length (pending (deferFuncs l')) <= 1)%nat.
Proof.
  intros H Hp.
  pose proof (iteration_reservations _ _ _ _ _ _ _ _ _ _ _ H) as (Hr & _).
  apply (f_equal (@length _)) in Hr. rewrite !length_app in Hr.
  split; [| split; [exact Hr |]].
  - apply iteration_inv in H.
    destruct H as [(err & _ & -> & -> & ->) | (w1 & w2 & cleanup & tried & _ & Hd & Ha & ->)].
    + apply balanced_bounds; simpl; lia.
    + apply defersFn_inv in Hd. destruct Hd as (_ & Hc & Hrel).
      pose proof (collect_cleanup reserved cleanup ltac:(cleanup_none) Hc) as Hres.
      pose proof (attempt_reservations _ _ _ _ _ _ _ _ _ _ Ha) as (A1 & _).
      apply attempt_counts in Ha. destruct Ha as (_ & _ & _ & _ & _ & A2 & _).
      change (EvCtxDone None :: cleanup ++ tried)
        with ([EvCtxDone None] ++ cleanup ++ tried).
      apply (balanced_app _ (length (pending (deferFuncs l)))).
      * apply balanced_bounds; simpl; lia.
      * simpl. lia.
      * apply (balanced_app _ 0%nat).
        { apply balanced_bounds; rewrite ?Hrel, ?Hres; simpl; lia. }
        { rewrite Hrel, Hres. simpl. lia. }
        { apply balanced_bounds; rewrite ?A1; simpl; lia. }
  - apply iteration_inv in H.
    destruct H as [(err & _ & -> & -> & ->) | (w1 & w2 & cleanup & tried & _ & Hd & Ha & ->)].
    + exact Hp.
    + pose proof (attempt_reservations _ _ _ _ _ _ _ _ _ _ Ha) as (_ & A2 & _).
      apply attempt_counts in Ha. destruct Ha as (_ & _ & _ & _ & _ & A3 & _).
      rewrite A2. simpl. exact A3.
Qed.

Lemma loop_balanced ch n l w x lf wf its :
  loop ext ps ctx ch n l w = (x, lf, wf, its) ->
  (length (pending (deferFuncs l)) <= 1)%nat ->
  balanced (length (pending (deferFuncs l))) (List.concat its) /\
  (length (pending (deferFuncs l)) + length (collect reserved (List.concat its)) =
   length (collect released (List.concat its)) + length (pending (deferFuncs lf)))%nat /\
  (length (pending (deferFuncs lf)) <= 1)%nat.
Proof.
  revert l w its. induction n as [| n IH]; intros l w its H Hp.
  - simpl in H. inversion H; subst. simpl.
    split; [apply balanced_bounds; simpl; lia |]. split; [lia | exact Hp].
  - apply loop_S in H. destruct H as (ctl & l1 & w1 & evs & Hit & H).
    apply iteration_balanced in Hit; [| exact Hp]. destruct Hit as (I1 & I2 & I3).
    destruct ctl as [| r].
    + destruct H as (its' & Hloop & ->).
      destruct (IH _ _ _ Hloop I3) as (L1 & L2 & L3).
      simpl. rewrite !collect_app, !length_app.
      split; [| split; [lia | exact L3]].
      eapply balanced_app; [exact I1 | exact I2 | exact L1].
    + destruct H as (-> & -> & -> & ->). simpl. rewrite !app_nil_r. auto.
Qed.

End Balance.

(** X3: at every point of a call of [pushToClosest] the reservations made and
    not yet released number zero or one, and none is released that was not
    made before. *)
Theorem one_reservation_at_a_time (W : Type) (ext : Externals W) (ps : PushSync W)
    (ctx : context.Context W) (ch : swarm.Chunk) (w : W) :
  let '(_, _, log) := pushToClosest ext ps ctx ch w in
  forall pre post,
    trace log = pre ++ post ->
    (length (collect released pre) <= length (collect reserved pre))%nat /\
    (length (collect reserved pre) <= length (collect released pre) + 1)%nat.
Proof.
  destruct (pushToClosest ext ps ctx ch w) as [[res w'] log] eqn:E.
  apply pushToClosest_inv in E.
  destruct E as (x & lf & w1 & its & cleanup & Hloop & Hc & Hr & _ & ->).
  apply loop_balanced in Hloop; [| simpl; lia]. destruct Hloop as (L1 & L2 & L3).
  simpl in L1, L2.
  assert (balanced 0 (trace {| prologue := [EvSpanStart "push-closest"];
                               iterations := its;
                               epilogue := cleanup |})) as Hb.
  { unfold trace. cbn [prologue iterations epilogue].
    apply (balanced_app _ 0%nat).
    - apply balanced_bounds; simpl; lia.
    - reflexivity.
    - eapply balanced_app; [exact L1 | exact L2 |].
      apply balanced_bounds.
      + rewrite Hr. lia.
      + rewrite (collect_cleanup reserved cleanup ltac:(cleanup_none) Hc). simpl. lia. }
  intros pre post Hsplit. exact (Hb pre post Hsplit).
Qed.

(* ================================================================== *)
(** ** The paths of an iteration *)

Lemma errors_Is_wrapped format args cause (target : Sentinel) :
  errors_Is (fmt_Errorf_w format args cause) target = errors_Is cause target.
Proof. reflexivity. Qed.

Section RunMore.

Variable W : Type.
Variable ext : Externals W.
Variable ps : PushSync W.
Variable ctx : context.Context W.

Lemma pushToClosest_iteration ch w res w' log pre it post :
  pushToClosest ext ps ctx ch w = (res, w', log) ->
  iterations log = pre ++ it :: post ->
  exists l1 w1 ctl l2 w2,
    iteration ext ps ctx ch l1 w1 = (ctl, l2, w2, it) /\
    match ctl with
    | Return r =>
        post = [] /\ res = r /\
        collect released (epilogue log) = pending (deferFuncs l2)
    | Continue =>
        post = [] -> length pre = 4%nat /\ res = budget_spent ch (iterations log)
    end.
Proof.
  intros E Hits. apply pushToClosest_inv in E.
  destruct E as (x & lf & w1 & its & cleanup & Hloop & Hc & Hr & Hres & ->).
  cbn [iterations epilogue] in *.
  pose proof Hloop as Hrec. apply loop_recorded in Hrec.
  eapply loop_split in Hloop; [| exact Hits].
  destruct Hloop as (l1 & w2 & ctl & l2 & w3 & _ & Hit & Hpost).
  exists l1, w2, ctl, l2, w3. split; [exact Hit |].
  destruct ctl as [| r].
  - intros ->. destruct Hpost as (m & Hm & Hrest).
    destruct m as [| m].
    + simpl in Hrest. inversion Hrest; subst x lf w1.
      split; [unfold maxPeers in Hm; lia |].
      rewrite Hres. unfold budget_spent, exhausted_result. now rewrite Hrec.
    + apply loop_length in Hrest. destruct Hrest as (_ & _ & Hn).
      exfalso. apply Hn; [discriminate | reflexivity].
  - destruct Hpost as (-> & -> & -> & ->). subst res. auto.
Qed.

Lemma iteration_tried ch l w ctl l' w' it e :
  iteration ext ps ctx ch l w = (ctl, l', w', it) ->
  In e it -> is_cleanup e = false -> polled e = None ->
  exists w1 cleanup tried,
    Forall (fun e => is_cleanup e = true) cleanup /\
    collect released cleanup = pending (deferFuncs l) /\
    attempt ext ps ch (clear_defers l) w1 = (ctl, l', w', tried) /\
    it = EvCtxDone None :: cleanup ++ tried /\
    In e tried.
Proof.
  intros H Hin Hcl Hp. apply iteration_inv in H.
  destruct H as [(err & _ & -> & -> & ->) | (w1 & w2 & cleanup & tried & _ & Hd & Ha & ->)].
  - destruct Hin as [<- | []]. discriminate.
  - apply defersFn_inv in Hd. destruct Hd as (_ & Hc & Hr).
    exists w2, cleanup, tried. repeat (split; [assumption || reflexivity |]).
    eapply in_tried; eauto.
Qed.

Lemma iteration_selected ch l w ctl l' w' it :
  iteration ext ps ctx ch l w = (ctl, l', w', it) ->
  collect selected it <> [] ->
  exists w1 cleanup tried,
    Forall (fun e => is_cleanup e = true) cleanup /\
    collect released cleanup = pending (deferFuncs l) /\
    attempt ext ps ch (clear_defers l) w1 = (ctl, l', w', tried) /\
    it = EvCtxDone None :: cleanup ++ tried /\
    collect selected tried = collect selected it.
Proof.
  intros H Hsel. apply iteration_inv in H.
  destruct H as [(err & _ & -> & -> & ->) | (w1 & w2 & cleanup & tried & _ & Hd & Ha & ->)].
  - now elim Hsel.
  - apply defersFn_inv in Hd. destruct Hd as (_ & Hc & Hr).
    exists w2, cleanup, tried. repeat (split; [assumption || reflexivity |]).
    symmetry. apply collect_iteration; [cleanup_none | reflexivity | exact Hc].
Qed.

End RunMore.

Ltac in_iteration := right; apply in_or_app; right; assumption.

(** X8: the amount given to [Reserve] is the price the peer answered in the
    headers of the stream opened to it in the same iteration, whether or
    not it is the price proposed. *)
Theorem reserved_price_is_the_answered_price (W : Type) (ext : Externals W)
    (ps : PushSync W) (ctx : context.Context W) (ch : swarm.Chunk) (w : W)
    (res : error + pb.Receipt) (w' : W) (log : RunLog)
    (pre : list (list Event)) (it : list Event) (post : list (list Event))
    (peer : swarm.Address) (price : Z) (err : option error) :
  pushToClosest ext ps ctx ch w = (res, w', log) ->
  iterations log = pre ++ it :: post ->
  In (EvReserve peer price err) it ->
  exists headers stream target index,
    In (EvNewStream peer headers (inr stream)) it /\
    In (EvParsePricingResponseHeaders (p2p.stream_Headers stream)
          (inr (target, price, index))) it.
Proof.
  intros E Hits Hin.
  destruct (pushToClosest_iteration _ _ _ _ _ _ _ _ _ _ _ _ E Hits)
    as (l1 & w1 & ctl & l2 & w2 & Hit & _).
  eapply iteration_tried in Hit; [| exact Hin | reflexivity | reflexivity].
  destruct Hit as (w3 & cleanup & tried & _ & _ & Ha & -> & Hin').
  eapply attempt_reserve_price in Ha; [| exact Hin'].
  destruct Ha as (headers & stream & target & index & H1 & H2).
  exists headers, stream, target, index. split; in_iteration.
Qed.

Lemma reserved_price_is_the_answered_price_witness :
  let '(_, _, log) := pushToClosest (Mock.ext Faults.requery_fails)
                        (Mock.ps Faults.requery_fails) Mock.ctx Mock.chunk O in
  exists it,
    iterations log = [it] /\
    In (EvReserve Mock.peerA 9 None) it /\
    In (EvPeerPrice Mock.peerA Mock.chunkAddress 7) it /\
    exists headers stream target index,
      In (EvNewStream Mock.peerA headers (inr stream)) it /\
      In (EvParsePricingResponseHeaders (p2p.stream_Headers stream)
            (inr (target, 9, index))) it.
Proof.
  destruct (pushToClosest (Mock.ext Faults.requery_fails) (Mock.ps Faults.requery_fails)
              Mock.ctx Mock.chunk O) as [[res w'] log] eqn:E.
  pose proof E as E'. vm_compute in E'. inversion E'; subst res w' log; clear E'.
  eexists. split; [reflexivity |]. split; [in_list |]. split; [in_list |].
  apply (reserved_price_is_the_answered_price _ _ _ _ _ _ _ _ _ [] _ []
           Mock.peerA 9 None E eq_refl).
  in_list.
Defined.

(** X12: when the context is found done at the start of an iteration,
    [pushToClosest] returns the context's error as it is; that iteration
    does nothing else, it is the last, and only cleanup follows. *)
Theorem cancellation_ends_the_push (W : Type) (ext : Externals W)
    (ps : PushSync W) (ctx : context.Context W) (ch : swarm.Chunk) (w : W)
    (res : error + pb.Receipt) (w' : W) (log : RunLog)
    (pre : list (list Event)) (it : list Event) (post : list (list Event))
    (err : error) :
  pushToClosest ext ps ctx ch w = (res, w', log) ->
  iterations log = pre ++ it :: post ->
  In (EvCtxDone (Some err)) it ->
  it = [EvCtxDone (Some err)] /\
  post = [] /\
  res = inl err /\
  Forall (fun e => is_cleanup e = true) (epilogue log).
Proof.
  intros E Hits Hin.
  destruct (pushToClosest_iteration _ _ _ _ _ _ _ _ _ _ _ _ E Hits)
    as (l1 & w1 & ctl & l2 & w2 & Hit & Hpost).
  apply pushToClosest_inv in E.
  destruct E as (x & lf & w0 & its & cleanup & _ & Hc & _ & _ & ->).
  apply iteration_inv in Hit.
  destruct Hit as [(e & _ & -> & -> & ->) | (w3 & w4 & cl & tried & _ & Hd & Ha & ->)].
  - destruct Hin as [Hin | []]. inversion Hin; subst e.
    destruct Hpost as (-> & -> & _). auto.
  - exfalso. apply defersFn_inv in Hd. destruct Hd as (_ & Hcl & _).
    destruct Hin as [Hin | Hin]; [discriminate |].
    apply in_app_or in Hin. destruct Hin as [Hin | Hin].
    + rewrite Forall_forall in Hcl. apply Hcl in Hin. discriminate.
    + apply attempt_counts in Ha. destruct Ha as (_ & _ & _ & _ & Hp & _).
      assert (In (Some err) (collect polled tried)) as Hx
        by (apply collect_In; eexists; split; [exact Hin | reflexivity]).
      rewrite Hp in Hx. destruct Hx.
Qed.

Lemma cancellation_ends_the_push_witness :
  let '(res, _, log) := pushToClosest (Mock.ext Mock.bad_receipts)
                          (Mock.ps Mock.bad_receipts) (Faults.cancelled_after 1)
                          Mock.chunk O in
  res = inl Faults.context_Canceled /\
  length (iterations log) = 2%nat /\
  collect selected (trace log) = [inr Mock.peerA] /\
  collect released (trace log) = [(Mock.peerA, 7)].
Proof.
  destruct (pushToClosest (Mock.ext Mock.bad_receipts) (Mock.ps Mock.bad_receipts)
              (Faults.cancelled_after 1) Mock.chunk O) as [[res w'] log] eqn:E.
  pose proof E as E'. vm_compute in E'. inversion E'; subst res w' log; clear E'.
  match type of E with
  | _ = (_, _, {| prologue := _; iterations := [?first; ?second]; epilogue := _ |}) =>
      destruct (cancellation_ends_the_push _ _ _ _ _ _ _ _ _ [first] second []
                  Faults.context_Canceled E eq_refl) as (_ & _ & H & _)
  end.
  - in_list.
  - split; [exact H |]. repeat split; reflexivity.
Defined.

(** X7: a stream is requested to the peer [CheapestPeer] selected in the same
    iteration, with the pricing headers made for the price [PeerPrice] gave
    for that peer and the chunk. *)
Theorem stream_is_opened_to_the_selected_peer (W : Type) (ext : Externals W)
    (ps : PushSync W) (ctx : context.Context W) (ch : swarm.Chunk) (w : W)
    (res : error + pb.Receipt) (w' : W) (log : RunLog)
    (pre : list (list Event)) (it : list Event) (post : list (list Event))
    (peer : swarm.Address) (headers : p2p.Headers) (r : error + p2p.Stream) :
  pushToClosest ext ps ctx ch w = (res, w', log) ->
  iterations log = pre ++ it :: post ->
  In (EvNewStream peer headers r) it ->
  exists skip price,
    In (EvCheapestPeer (swarm.chunk_Address ch) skip false (inr peer)) it /\
    In (EvPeerPrice peer (swarm.chunk_Address ch) price) it /\
    In (EvMakePricingHeaders price (swarm.chunk_Address ch) (inr headers)) it.
Proof.
  intros E Hits Hin.
  destruct (pushToClosest_iteration _ _ _ _ _ _ _ _ _ _ _ _ E Hits)
    as (l1 & w1 & ctl & l2 & w2 & Hit & _).
  eapply iteration_tried in Hit; [| exact Hin | reflexivity | reflexivity].
  destruct Hit as (w3 & cleanup & tried & _ & _ & Ha & -> & Hin').
  eapply attempt_dialed in Ha; [| exact Hin'].
  destruct Ha as (skip & price & H1 & H2 & H3).
  exists skip, price. split; [in_iteration |]. split; in_iteration.
Qed.

Lemma stream_is_opened_to_the_selected_peer_witness :
  let '(_, _, log) := pushToClosest (Mock.ext Mock.unreachable)
                        (Mock.ps Mock.unreachable) Mock.ctx Mock.chunk O in
  match iterations log with
  | it :: _ =>
      In (EvNewStream Mock.peerA [("price", swarm.Bytes Mock.chunkAddress)]
            (inl Mock.boom)) it /\
      exists skip price,
        In (EvCheapestPeer Mock.chunkAddress skip false (inr Mock.peerA)) it /\
        In (EvPeerPrice Mock.peerA Mock.chunkAddress price) it /\
        In (EvMakePricingHeaders price Mock.chunkAddress
              (inr [("price", swarm.Bytes Mock.chunkAddress)])) it
  | [] => False
  end.
Proof.
  destruct (pushToClosest (Mock.ext Mock.unreachable) (Mock.ps Mock.unreachable)
              Mock.ctx Mock.chunk O) as [[res w'] log] eqn:E.
  pose proof E as E'. vm_compute in E'. inversion E'; subst res w' log; clear E'.
  cbn [iterations].
  split; [in_list |].
  match type of E with
  | _ = (_, _, {| prologue := _; iterations := ?it :: ?rest; epilogue := _ |}) =>
      apply (stream_is_opened_to_the_selected_peer _ _ _ _ _ _ _ _ _ [] it rest
               Mock.peerA [("price", swarm.Bytes Mock.chunkAddress)] (inl Mock.boom)
               E eq_refl)
  end.
  in_list.
Defined.

(** X11: when the first query of the cheapest peer of an iteration fails,
    [pushToClosest] returns that error wrapped as "closest peer" without
    dialing or reserving; for every package-level variable, [errors.Is]
    answers on the result what it answers on the error of the query, so
    the result matches [ErrWantSelf] exactly when that error does. *)
Theorem selection_failure_ends_the_push (W : Type) (ext : Externals W)
    (ps : PushSync W) (ctx : context.Context W) (ch : swarm.Chunk) (w : W)
    (res : error + pb.Receipt) (w' : W) (log : RunLog)
    (pre : list (list Event)) (it : list Event) (post : list (list Event))
    (err : error) :
  pushToClosest ext ps ctx ch w = (res, w', log) ->
  iterations log = pre ++ it :: post ->
  collect selected it = [inl err] ->
  res = inl (fmt_Errorf_w "closest peer: %w" [] err) /\
  post = [] /\
  collect dialed it = [] /\
  collect reserve_call it = [] /\
  forall target : Sentinel,
    errors_Is (fmt_Errorf_w "closest peer: %w" [] err) target = errors_Is err target.
Proof.
  intros E Hits Hsel.
  destruct (pushToClosest_iteration _ _ _ _ _ _ _ _ _ _ _ _ E Hits)
    as (l1 & w1 & ctl & l2 & w2 & Hit & Hpost).
  eapply iteration_selected in Hit; [| rewrite Hsel; discriminate].
  destruct Hit as (w3 & cleanup & tried & Hc & _ & Ha & -> & Hs).
  rewrite Hsel in Hs.
  eapply attempt_select_failed in Ha; [| exact Hs].
  destruct Ha as (-> & _ & ->). destruct Hpost as (-> & -> & _).
  rewrite (collect_iteration dialed _ _ _ ltac:(cleanup_none) eq_refl Hc),
    (collect_iteration reserve_call _ _ _ ltac:(cleanup_none) eq_refl Hc).
  repeat (split; [reflexivity |]).
  intros target. apply errors_Is_wrapped.
Qed.

Lemma selection_failure_ends_the_push_witness :
  let '(res, _, log) := pushToClosest (Mock.ext Mock.closest) (Mock.ps Mock.closest)
                          Mock.ctx Mock.chunk O in
  res = inl (fmt_Errorf_w "closest peer: %w" [] topology.ErrWantSelf) /\
  length (iterations log) = 1%nat /\
  collect dialed (trace log) = [] /\
  match res with
  | inl e => errors_Is e topology.ErrWantSelf = true
  | inr _ => False
  end.
Proof.
  destruct (pushToClosest (Mock.ext Mock.closest) (Mock.ps Mock.closest)
              Mock.ctx Mock.chunk O) as [[res w'] log] eqn:E.
  pose proof E as E'. vm_compute in E'. inversion E'; subst res w' log; clear E'.
  destruct (selection_failure_ends_the_push _ _ _ _ _ _ _ _ _ [] _ []
              topology.ErrWantSelf E eq_refl eq_refl) as (_ & _ & _ & _ & H).
  split; [reflexivity |]. split; [reflexivity |]. split; [reflexivity |].
  exact (eq_trans (H topology.ErrWantSelf) eq_refl).
Defined.

(** X9: when the peer answers another price than proposed and the second
    query of the cheapest peer fails, the failure is ignored: the attempt
    goes on with the same peer and reserves the price it answered. *)
Theorem failed_requery_is_ignored (W : Type) (ext : Externals W)
    (ps : PushSync W) (ctx : context.Context W) (ch : swarm.Chunk) (w : W)
    (res : error + pb.Receipt) (w' : W) (log : RunLog)
    (pre : list (list Event)) (it : list Event) (post : list (list Event))
    (peer : swarm.Address) (err : error) :
  pushToClosest ext ps ctx ch w = (res, w', log) ->
  iterations log = pre ++ it :: post ->
  collect selected it = [inr peer; inl err] ->
  exists proposed returned index rerr,
    In (EvPeerPrice peer (swarm.chunk_Address ch) proposed) it /\
    In (EvNotifyPeerPrice peer returned index None) it /\
    returned <> proposed /\
    collect reserve_call it = [(peer, returned, rerr)].
Proof.
  intros E Hits Hsel.
  destruct (pushToClosest_iteration _ _ _ _ _ _ _ _ _ _ _ _ E Hits)
    as (l1 & w1 & ctl & l2 & w2 & Hit & _).
  eapply iteration_selected in Hit; [| rewrite Hsel; discriminate].
  destruct Hit as (w3 & cleanup & tried & Hc & _ & Ha & -> & Hs).
  rewrite Hsel in Hs.
  eapply attempt_requery_failed in Ha; [| exact Hs].
  destruct Ha as (proposed & returned & index & rerr & H1 & H2 & H3 & H4).
  exists proposed, returned, index, rerr.
  rewrite (collect_iteration reserve_call _ _ _ ltac:(cleanup_none) eq_refl Hc).
  split; [in_iteration |]. split; [in_iteration |]. split; assumption.
Qed.

Lemma failed_requery_is_ignored_witness :
  let '(res, _, log) := pushToClosest (Mock.ext Faults.requery_fails)
                          (Mock.ps Faults.requery_fails) Mock.ctx Mock.chunk O in
  res = inr Mock.good_receipt /\
  exists it,
    iterations log = [it] /\
    collect selected it = [inr Mock.peerA; inl Mock.boom] /\
    exists proposed returned index rerr,
      In (EvPeerPrice Mock.peerA Mock.chunkAddress proposed) it /\
      In (EvNotifyPeerPrice Mock.peerA returned index None) it /\
      returned <> proposed /\
      collect reserve_call it = [(Mock.peerA, returned, rerr)].
Proof.
  destruct (pushToClosest (Mock.ext Faults.requery_fails) (Mock.ps Faults.requery_fails)
              Mock.ctx Mock.chunk O) as [[res w'] log] eqn:E.
  pose proof E as E'. vm_compute in E'. inversion E'; subst res w' log; clear E'.
  split; [reflexivity |].
  eexists. split; [reflexivity |]. split; [reflexivity |].
  exact (failed_requery_is_ignored _ _ _ _ _ _ _ _ _ [] _ []
           Mock.peerA Mock.boom E eq_refl eq_refl).
Defined.

(** X13: when incrementing the tag fails, [pushToClosest] returns the "tag
    increment" error at once: the delivery was written, no receipt is
    awaited, nothing is credited, and the reservation of the attempt is
    released by the cleanup. *)
Theorem tag_failure_is_fatal (W : Type) (ext : Externals W)
    (ps : PushSync W) (ctx : context.Context W) (ch : swarm.Chunk) (w : W)
    (res : error + pb.Receipt) (w' : W) (log : RunLog)
    (pre : list (list Event)) (it : list Event) (post : list (list Event))
    (t : tags.Tag) (err : error) :
  pushToClosest ext ps ctx ch w = (res, w', log) ->
  iterations log = pre ++ it :: post ->
  In (EvTagInc t (Some err)) it ->
  res = inl (fmt_Errorf_v "tag %d increment: %v" [ArgUint (swarm.chunk_TagID ch)] err) /\
  post = [] /\
  (exists s, In (EvWriteDelivery s (delivery_of ch) None) it) /\
  collect receipt_read it = [] /\
  collect credit_call it = [] /\
  collect released (epilogue log) = collect reserved it.
Proof.
  intros E Hits Hin.
  destruct (pushToClosest_iteration _ _ _ _ _ _ _ _ _ _ _ _ E Hits)
    as (l1 & w1 & ctl & l2 & w2 & Hit & Hpost).
  eapply iteration_tried in Hit; [| exact Hin | reflexivity | reflexivity].
  destruct Hit as (w3 & cleanup & tried & Hc & _ & Ha & -> & Hin').
  pose proof (attempt_reservations _ _ _ _ _ _ _ _ _ _ Ha) as (_ & Hp & _).
  eapply attempt_tag_failed in Ha; [| exact Hin'].
  destruct Ha as (-> & H1 & H2 & (s & H3) & _). destruct Hpost as (-> & -> & Hr).
  rewrite (collect_iteration receipt_read _ _ _ ltac:(cleanup_none) eq_refl Hc),
    (collect_iteration credit_call _ _ _ ltac:(cleanup_none) eq_refl Hc),
    (collect_iteration reserved _ _ _ ltac:(cleanup_none) eq_refl Hc).
  repeat (split; [reflexivity || assumption |]).
  split; [exists s; in_iteration |].
  repeat (split; [reflexivity || assumption |]).
  rewrite Hr, Hp. reflexivity.
Qed.

Lemma tag_failure_is_fatal_witness :
  let '(res, _, log) := pushToClosest (Faults.ext Mock.happy (Faults.tagged false))
                          (Faults.ps Mock.happy (Faults.tagged false))
                          Mock.ctx Mock.chunk O in
  res = inl (fmt_Errorf_v "tag %d increment: %v" [ArgUint 0] Mock.boom) /\
  collect delivered (trace log) = [Mock.delivery] /\
  collect receipt_read (trace log) = [] /\
  collect released (trace log) = [(Mock.peerA, 7)].
Proof.
  destruct (pushToClosest (Faults.ext Mock.happy (Faults.tagged false))
              (Faults.ps Mock.happy (Faults.tagged false)) Mock.ctx Mock.chunk O)
    as [[res w'] log] eqn:E.
  pose proof E as E'. vm_compute in E'. inversion E'; subst res w' log; clear E'.
  destruct (tag_failure_is_fatal _ _ _ _ _ _ _ _ _ [] _ []
              {| tags.Uid := 0 |} Mock.boom E eq_refl) as (H & _).
  - in_list.
  - split; [exact H |]. repeat split; reflexivity.
Defined.

(** X14: when [Credit] fails after a receipt for the chunk was read,
    [pushToClosest] returns the error of [Credit] as it is and not the
    receipt, and the reservation of the attempt is released by the
    cleanup. *)
Theorem credit_failure_is_fatal (W : Type) (ext : Externals W)
    (ps : PushSync W) (ctx : context.Context W) (ch : swarm.Chunk) (w : W)
    (res : error + pb.Receipt) (w' : W) (log : RunLog)
    (pre : list (list Event)) (it : list Event) (post : list (list Event))
    (peer : swarm.Address) (price : Z) (err : error) :
  pushToClosest ext ps ctx ch w = (res, w', log) ->
  iterations log = pre ++ it :: post ->
  In (EvCredit peer price (Some err)) it ->
  res = inl err /\
  post = [] /\
  (exists s r, In (EvReadReceipt s (inr r)) it /\
               pb.Receipt_Address r = swarm.Bytes (swarm.chunk_Address ch)) /\
  collect reserved it = [(peer, price)] /\
  collect released (epilogue log) = [(peer, price)].
Proof.
  intros E Hits Hin.
  destruct (pushToClosest_iteration _ _ _ _ _ _ _ _ _ _ _ _ E Hits)
    as (l1 & w1 & ctl & l2 & w2 & Hit & Hpost).
  eapply iteration_tried in Hit; [| exact Hin | reflexivity | reflexivity].
  destruct Hit as (w3 & cleanup & tried & Hc & _ & Ha & -> & Hin').
  pose proof (attempt_reservations _ _ _ _ _ _ _ _ _ _ Ha) as (_ & Hp & _).
  eapply attempt_credit_failed in Ha; [| exact Hin'].
  destruct Ha as (-> & H1 & (s & r & H2 & H3) & _). destruct Hpost as (-> & -> & Hr).
  rewrite (collect_iteration reserved _ _ _ ltac:(cleanup_none) eq_refl Hc).
  repeat (split; [reflexivity |]).
  split; [exists s, r; split; [in_iteration | exact H3] |].
  split; [exact H1 |].
  rewrite Hr, Hp, H1. reflexivity.
Qed.

Lemma credit_failure_is_fatal_witness :
  let '(res, _, log) := pushToClosest (Faults.ext Mock.happy Faults.no_credit)
                          (Faults.ps Mock.happy Faults.no_credit)
                          Mock.ctx Mock.chunk O in
  res = inl Mock.boom /\
  collect receipt_read (trace log) = [(Mock.stream_to Mock.peerA, inr Mock.good_receipt)] /\
  collect released (trace log) = [(Mock.peerA, 7)].
Proof.
  destruct (pushToClosest (Faults.ext Mock.happy Faults.no_credit)
              (Faults.ps Mock.happy Faults.no_credit) Mock.ctx Mock.chunk O)
    as [[res w'] log] eqn:E.
  pose proof E as E'. vm_compute in E'. inversion E'; subst res w' log; clear E'.
  destruct (credit_failure_is_fatal _ _ _ _ _ _ _ _ _ [] _ []
              Mock.peerA 7 Mock.boom E eq_refl) as (H & _).
  - in_list.
  - split; [exact H |]. split; reflexivity.
Defined.

(** X10: when [NotifyPeerPrice] fails, the attempt is abandoned: no error is
    recorded, the cheapest peer is not queried again, nothing is reserved,
    and the call ends there only if this was the fifth iteration. *)
Theorem notify_failure_is_not_recorded (W : Type) (ext : Externals W)
    (ps : PushSync W) (ctx : context.Context W) (ch : swarm.Chunk) (w : W)
    (res : error + pb.Receipt) (w' : W) (log : RunLog)
    (pre : list (list Event)) (it : list Event) (post : list (list Event))
    (peer : swarm.Address) (price index : Z) (err : error) :
  pushToClosest ext ps ctx ch w = (res, w', log) ->
  iterations log = pre ++ it :: post ->
  In (EvNotifyPeerPrice peer price index (Some err)) it ->
  recorded ch it = None /\
  collect selected it = [inr peer] /\
  collect reserve_call it = [] /\
  (post = [] -> length pre = 4%nat /\ res = budget_spent ch (iterations log)).
Proof.
  intros E Hits Hin.
  destruct (pushToClosest_iteration _ _ _ _ _ _ _ _ _ _ _ _ E Hits)
    as (l1 & w1 & ctl & l2 & w2 & Hit & Hpost).
  eapply iteration_tried in Hit; [| exact Hin | reflexivity | reflexivity].
  destruct Hit as (w3 & cleanup & tried & Hc & _ & Ha & -> & Hin').
  eapply attempt_notify_failed in Ha; [| exact Hin'].
  destruct Ha as (-> & _ & _ & H1 & H2 & H3 & _).
  rewrite (recorded_cleanup ch None cleanup tried Hc),
    (collect_iteration selected _ _ _ ltac:(cleanup_none) eq_refl Hc),
    (collect_iteration reserve_call _ _ _ ltac:(cleanup_none) eq_refl Hc).
  repeat (split; [assumption |]). exact Hpost.
Qed.

Lemma notify_failure_is_not_recorded_witness :
  let '(res, _, log) := pushToClosest (Faults.ext Mock.repriced Faults.no_notify)
                          (Faults.ps Mock.repriced Faults.no_notify)
                          Mock.ctx Mock.chunk O in
  res = inl topology.ErrNotFound /\
  length (iterations log) = 5%nat /\
  collect reserve_call (trace log) = [].
Proof.
  destruct (pushToClosest (Faults.ext Mock.repriced Faults.no_notify)
              (Faults.ps Mock.repriced Faults.no_notify) Mock.ctx Mock.chunk O)
    as [[res w'] log] eqn:E.
  pose proof E as E'. vm_compute in E'. inversion E'; subst res w' log; clear E'.
  match type of E with
  | _ = (_, _, {| prologue := _; iterations := [?i1; ?i2; ?i3; ?i4; ?i5];
                  epilogue := _ |}) =>
      destruct (notify_failure_is_not_recorded _ _ _ _ _ _ _ _ _ [i1; i2; i3; i4] i5 []
                  Mock.peerB 9 0 Mock.boom E eq_refl) as (_ & _ & _ & H)
  end.
  - in_list.
  - destruct (H eq_refl) as (_ & Hres). split; [exact Hres |]. split; reflexivity.
Defined.

(* ================================================================== *)
(** ** More on the handler *)

Section HandlerMore.

Variable W : Type.
Variable ext : Externals W.
Variable ps : PushSync W.

Lemma terminal_quiet {A : Type} (f : Event -> option A) p wr d chunk price
    (w : W) res w' evs :
  (forall ch err, f (EvPut ch err) = None) ->
  (forall peers, f (EvEachNeighbor peers) = None) ->
  (forall peer, f (EvGoReplicate peer) = None) ->
  (forall level format, f (EvLog level format) = None) ->
  (forall data r, f (EvSign data r) = None) ->
  (forall s rc err, f (EvWriteReceipt s rc err) = None) ->
  (forall peer price err, f (EvDebit peer price err) = None) ->
  terminal ps p wr d chunk price w = (res, w', evs) ->
  collect f evs = [].
Proof.
  intros F1 F2 F3 F4 F5 F6 F7.
  unfold terminal, EachNeighbor. intros H. run_inv.
  all: try match goal with
       | R : each_peer _ _ _ _ = _ |- _ =>
           apply each_peer_inv in R; [destruct R as [R1 R2] | unfold nPeersToPushsync; lia]
       end.
  all: simpl; rewrite ?collect_app; simpl.
  all: rewrite ?F1, ?F2, ?F4, ?F5, ?F6, ?F7.
  all: rewrite ?(replications_collect f _ _ F3 R1).
  all: reflexivity.
Qed.

Lemma forward_cases ctx p wr d chunk price (w : W) res w' evs :
  forward ext ps ctx p wr d chunk price w = (res, w', evs) ->
  exists within stored log r after w1 w2,
    evs = EvIsWithinDepth (swarm.chunk_Address chunk) within :: stored ++
          EvSpanStart "pushsync-handler" :: trace log ++ EvForwarded chunk r :: after /\
    ((within = false /\ stored = []) \/
     (within = true /\
      exists perr,
        stored = EvPut chunk perr ::
                 match perr with
                 | Some _ =>
                     [EvLog "warning"
                        "pushsync: within depth peer's attempt to store chunk failed: %v"]
                 | None => []
                 end)) /\
    pushToClosest ext ps ctx chunk w1 = (r, w2, log) /\
    match r with
    | inl err =>
        if errors_Is err topology.ErrWantSelf then
          exists w3 tevs,
            terminal ps p wr d chunk price w2 = (res, w3, tevs) /\
            after = tevs ++ [EvSpanFinish]
        else
          res = Some (fmt_Errorf_w "handler: push to closest: %w" [] err) /\
          after = [EvSpanFinish]
    | inr receipt =>
        exists werr,
          match werr with
          | Some e =>
              res = Some (fmt_Errorf_w "send receipt to peer %s: %w"
                            [ArgAddress (p2p.Address p)] e) /\
              after = [EvWriteReceipt (protobuf.writer_stream wr) receipt (Some e);
                       EvSpanFinish]
          | None =>
              after = [EvWriteReceipt (protobuf.writer_stream wr) receipt None;
                       EvDebit (p2p.Address p) price res; EvSpanFinish]
          end
    end.
Proof.
  unfold forward. intros H.
  bind_step H within w1 e1 e2 H1.
  bind_step H u w2 e3 e4 H2.
  bind_step H u' w3 e5 e6 H3.
  bind_step H res' w4 e7 e8 H4.
  bind_step H4 r w5 e9 e10 H5.
  apply pushToClosest_call_inv in H5. destruct H5 as (log & Hpush & ->).
  apply call_inv in H1. destruct H1 as [_ ->].
  apply emit_inv in H3. destruct H3 as [-> ->].
  assert (res' = res /\ e8 = [EvSpanFinish]) as [-> ->] by (run_inv; auto).
  clear H.
  exists within, e3, log, r, (e10 ++ [EvSpanFinish]), w2, w5.
  split; [simpl; now rewrite <- !app_assoc |].
  split.
  { clear H4 Hpush. destruct within; run_inv; simpl;
      first [left; split; reflexivity
            | right; split; [reflexivity |]; eexists (Some _); reflexivity
            | right; split; [reflexivity |]; exists None; reflexivity]. }
  split; [exact Hpush |].
  clear H2 Hpush.
  destruct r as [err | receipt].
  - destruct (errors_Is err topology.ErrWantSelf).
    + now exists w4, e10.
    + run_inv; auto.
  - run_inv; first [exists None; reflexivity | eexists (Some _); split; reflexivity].
Qed.

Lemma forward_quiet {A : Type} (f : Event -> option A) ctx p wr d chunk price
    (w : W) res w' evs :
  (forall e, is_push_event e = true -> f e = None) ->
  (forall addr within, f (EvIsWithinDepth addr within) = None) ->
  (forall ch r, f (EvForwarded ch r) = None) ->
  (forall ch err, f (EvPut ch err) = None) ->
  (forall peers, f (EvEachNeighbor peers) = None) ->
  (forall peer, f (EvGoReplicate peer) = None) ->
  (forall data r, f (EvSign data r) = None) ->
  (forall s rc err, f (EvWriteReceipt s rc err) = None) ->
  (forall peer price err, f (EvDebit peer price err) = None) ->
  forward ext ps ctx p wr d chunk price w = (res, w', evs) ->
  collect f evs = [].
Proof.
  intros F0 F1 F2 F3 F4 F5 F6 F7 F8 H.
  apply forward_cases in H.
  destruct H as (within & stored & log & r & after & w1 & w2 & -> & Hs & Hp & Hr).
  apply pushToClosest_push_events in Hp.
  assert (forall level format, f (EvLog level format) = None) as FL
    by (intros; now apply F0).
  cbn [collect]. rewrite F1, !collect_app. cbn [collect].
  rewrite (F0 (EvSpanStart _) eq_refl), collect_app. cbn [collect].
  rewrite F2, (collect_push_events f (trace log) F0 Hp).
  assert (collect f stored = []) as ->.
  { destruct Hs as [(_ & ->) | (_ & perr & ->)]; [| destruct perr]; simpl;
      now rewrite ?F3, ?FL. }
  simpl.
  destruct r as [err | receipt].
  - destruct (errors_Is err topology.ErrWantSelf).
    + destruct Hr as (w3 & tevs & Ht & ->).
      rewrite collect_app, (terminal_quiet f _ _ _ _ _ _ _ _ _ F3 F4 F5 FL F6 F7 F8 Ht).
      simpl. now rewrite (F0 EvSpanFinish eq_refl).
    + destruct Hr as (_ & ->). simpl. now rewrite (F0 EvSpanFinish eq_refl).
  - destruct Hr as (werr & Hr). destruct werr as [e |].
    + destruct Hr as (_ & ->). simpl. now rewrite F7, (F0 EvSpanFinish eq_refl).
    + subst after. simpl. now rewrite F7, F8, (F0 EvSpanFinish eq_refl).
Qed.

Lemma handle_cases ctx p stream wr rd (w : W) res w' body :
  handle ext ps ctx p stream wr rd w = (res, w', body) ->
  (exists err,
      streamer.ReadDelivery (streamer ps) rd w = (inl err, w') /\
      res = Some (fmt_Errorf_w "pushsync read delivery: %w" [] err) /\
      body = [EvReadDelivery stream (inl err)]) \/
  (exists d w1 rest,
      streamer.ReadDelivery (streamer ps) rd w = (inr d, w1) /\
      let chunk := swarm.NewChunk (swarm.NewAddress (pb.Delivery_Address d)) (pb.Data d) in
      let headers := p2p.stream_ResponseHeaders stream in
      (cac_Valid ext chunk = false /\ soc_Valid ext chunk = false /\
       res = Some swarm_ErrInvalidChunk /\ w' = w1 /\
       body = [EvReadDelivery stream (inr d); EvMetricInc "TotalReceived"]) \/
      (exists price w2,
          (cac_Valid ext chunk = true \/ soc_Valid ext chunk = true) /\
          body = EvReadDelivery stream (inr d) :: EvMetricInc "TotalReceived" ::
                 ((if cac_Valid ext chunk && unwrap ps then [EvGoUnwrap chunk] else []) ++
                  EvParsePriceHeader headers (ParsePriceHeader ext headers) ::
                  match ParsePriceHeader ext headers with
                  | inr _ => []
                  | inl _ =>
                      [EvLog "warning"
                         "pushsync: peer %v no price in previously issued response headers: %v";
                       EvPriceForPeer (p2p.Address p) (swarm.chunk_Address chunk) price]
                  end) ++ rest /\
          (forall headerPrice,
              ParsePriceHeader ext headers = inr headerPrice -> price = headerPrice) /\
          if DistanceCmp ext (swarm.Bytes (swarm.chunk_Address chunk))
               (swarm.Bytes (p2p.Address p)) (swarm.Bytes (address ps)) =? 1
          then replicated ps p chunk price w2 = (res, w', rest)
          else forward ext ps ctx p wr d chunk price w2 = (res, w', rest))).
Proof.
  unfold handle. intros H.
  bind_step H d0 w1 e1 e2 H1. apply call_inv in H1. destruct H1 as [Hread ->].
  destruct d0 as [err | d].
  { apply ret_inv in H. destruct H as (-> & -> & ->). left. exists err. auto. }
  right.
  bind_step H u w2 e3 e4 H2. apply emit_inv in H2. destruct H2 as [-> ->].
  bind_step H valid w3 e5 e6 Hv.
  destruct valid.
  - bind_step H parsed w4 e7 e8 Hp. apply eval_inv in Hp. destruct Hp as (-> & -> & ->).
    bind_step H price w5 e9 e10 Hprice.
    exists d, w1, e10.
    split; [exact Hread |].
    right. exists price, w5.
    assert ((cac_Valid ext
               (swarm.NewChunk (swarm.NewAddress (pb.Delivery_Address d)) (pb.Data d)) = true \/
             soc_Valid ext
               (swarm.NewChunk (swarm.NewAddress (pb.Delivery_Address d)) (pb.Data d)) = true) /\
            e5 =
              (if cac_Valid ext
                    (swarm.NewChunk (swarm.NewAddress (pb.Delivery_Address d)) (pb.Data d))
                  && unwrap ps
               then [EvGoUnwrap (swarm.NewChunk (swarm.NewAddress (pb.Delivery_Address d))
                                   (pb.Data d))]
               else [])) as (V1 & ->).
    { clear H Hprice.
      destruct (cac_Valid ext _) eqn:Hc; [| destruct (soc_Valid ext _) eqn:Hs];
        simpl in Hv; run_inv; simpl; auto. }
    split; [exact V1 |].
    split.
    { clear H. simpl. rewrite <- app_assoc. simpl. do 4 f_equal.
      destruct (ParsePriceHeader ext (p2p.stream_ResponseHeaders stream)) eqn:Hh;
        run_inv; try reflexivity. }
    split.
    { clear H. intros hp Hh. rewrite Hh in Hprice. run_inv; reflexivity. }
    destruct (_ =? 1); exact H.
  - apply ret_inv in H. destruct H as (-> & -> & ->).
    exists d, w1, []. split; [exact Hread |].
    assert (cac_Valid ext
              (swarm.NewChunk (swarm.NewAddress (pb.Delivery_Address d)) (pb.Data d)) = false /\
            soc_Valid ext
              (swarm.NewChunk (swarm.NewAddress (pb.Delivery_Address d)) (pb.Data d)) = false /\
            e5 = [] /\ w3 = w1) as (V1 & V2 & -> & ->).
    { destruct (cac_Valid ext _) eqn:Hc; [| destruct (soc_Valid ext _) eqn:Hs];
        simpl in Hv; run_inv; auto. }
    left. auto 10.
Qed.

Lemma handler_cases ctx p stream (w : W) res w' evs :
  handler ext ps ctx p stream w = (res, w', evs) ->
  exists w1 body,
    handle ext ps (WithTimeout ext ctx timeToLive) p stream
      (protobuf.NewWriter stream) (protobuf.NewReader stream) w = (res, w1, body) /\
    evs = EvWithTimeout timeToLive :: body ++
          match res with
          | Some _ => [EvMetricInc "TotalErrors"; EvReset stream]
          | None => [EvFullClose stream]
          end ++ [EvCancel].
Proof.
  unfold handler, protobuf.NewWriterAndReader. intros H.
  bind_step H u w1 e1 e2 H1.
  bind_step H res' w2 body e4 H2.
  bind_step H u' w3 e5 e6 H3.
  bind_step H u'' w4 e7 e8 H4.
  apply emit_inv in H1. destruct H1 as [-> ->].
  apply ret_inv in H. destruct H as (-> & -> & ->).
  apply emit_inv in H4. destruct H4 as [-> ->].
  exists w2, body. split; [exact H2 |].
  destruct res'; run_inv; simpl; reflexivity.
Qed.

Lemma replicated_cases p chunk price (w : W) res w' rest :
  replicated ps p chunk price w = (res, w', rest) ->
  collect forwarded rest = [] /\
  collect full_closed rest = [] /\
  collect receipt_written rest = [] /\
  ((collect debit_call rest = [] /\ res = Some ErrOutOfDepthReplication) \/
   collect debit_call rest = [(p2p.Address p, price, res)]).
Proof.
  unfold replicated. intros H. run_inv; simpl; auto 10.
Qed.

Lemma intake_collect {A : Type} (f : Event -> option A) (unwrapping : bool)
    chunk headers (parsed : error + Z) peer addr price :
  (forall c, f (EvGoUnwrap c) = None) ->
  (forall h r, f (EvParsePriceHeader h r) = None) ->
  (forall level format, f (EvLog level format) = None) ->
  (forall a b c, f (EvPriceForPeer a b c) = None) ->
  collect f ((if unwrapping then [EvGoUnwrap chunk] else []) ++
             EvParsePriceHeader headers parsed ::
             match parsed with
             | inr _ => []
             | inl _ =>
                 [EvLog "warning"
                    "pushsync: peer %v no price in previously issued response headers: %v";
                  EvPriceForPeer peer addr price]
             end) = [].
Proof.
  intros F1 F2 F3 F4. rewrite collect_app. cbn [collect]. rewrite F2.
  destruct unwrapping, parsed; simpl; now rewrite ?F1, ?F3, ?F4.
Qed.

End HandlerMore.

Section HandlerRuns.

Variable W : Type.
Variable ext : Externals W.
Variable ps : PushSync W.

Lemma handler_forwarded ctx p stream (w : W) res w' evs pre chunk r post :
  handler ext ps ctx p stream w = (res, w', evs) ->
  evs = pre ++ EvForwarded chunk r :: post ->
  exists d price log w1 w2 after,
    chunk = swarm.NewChunk (swarm.NewAddress (pb.Delivery_Address d)) (pb.Data d) /\
    (ParsePriceHeader ext (p2p.stream_ResponseHeaders stream) = inr price \/
     In (EvPriceForPeer (p2p.Address p) (swarm.chunk_Address chunk) price) pre) /\
    pushToClosest ext ps (WithTimeout ext ctx timeToLive) chunk w1 = (r, w2, log) /\
    (exists within,
        collect depth_checked pre = [(swarm.chunk_Address chunk, within)] /\
        collect stored pre = (if within then [chunk] else [])) /\
    post = after ++
           match res with
           | Some _ => [EvMetricInc "TotalErrors"; EvReset stream]
           | None => [EvFullClose stream]
           end ++ [EvCancel] /\
    match r with
    | inl err =>
        if errors_Is err topology.ErrWantSelf then
          exists w3 tevs,
            terminal ps p (protobuf.NewWriter stream) d chunk price w2 = (res, w3, tevs) /\
            after = tevs ++ [EvSpanFinish]
        else
          res = Some (fmt_Errorf_w "handler: push to closest: %w" [] err) /\
          after = [EvSpanFinish]
    | inr receipt =>
        exists werr,
          match werr with
          | Some e =>
              res = Some (fmt_Errorf_w "send receipt to peer %s: %w"
                            [ArgAddress (p2p.Address p)] e) /\
              after = [EvWriteReceipt stream receipt (Some e); EvSpanFinish]
          | None =>
              after = [EvWriteReceipt stream receipt None;
                       EvDebit (p2p.Address p) price res; EvSpanFinish]
          end
    end.
Proof.
  intros H Hevs.
  apply handler_cases in H. destruct H as (w1 & body & H & ->).
  assert (forall l,
             collect forwarded
               (l ++ match res with
                     | Some _ => [EvMetricInc "TotalErrors"; EvReset stream]
                     | None => [EvFullClose stream]
                     end ++ [EvCancel]) = collect forwarded l) as Hend.
  { intros l. rewrite collect_app. destruct res; simpl; apply app_nil_r. }
  apply handle_cases in H.
  destruct H as [(err & _ & _ & ->) | (d & w2 & rest & _ & H)].
  { exfalso. eapply (no_split forwarded); [exact Hevs | | discriminate].
    destruct res; reflexivity. }
  cbv zeta in H.
  destruct H as [(_ & _ & _ & _ & ->) | (price & w3 & _ & -> & Hprice & H)].
  { exfalso. eapply (no_split forwarded); [exact Hevs | | discriminate].
    destruct res; reflexivity. }
  set (chunk0 := swarm.NewChunk (swarm.NewAddress (pb.Delivery_Address d)) (pb.Data d)) in *.
  set (headers := p2p.stream_ResponseHeaders stream) in *.
  set (intake := (if cac_Valid ext chunk0 && unwrap ps then [EvGoUnwrap chunk0] else []) ++
                 EvParsePriceHeader headers (ParsePriceHeader ext headers) ::
                 match ParsePriceHeader ext headers with
                 | inr _ => []
                 | inl _ =>
                     [EvLog "warning"
                        "pushsync: peer %v no price in previously issued response headers: %v";
                      EvPriceForPeer (p2p.Address p) (swarm.chunk_Address chunk0) price]
                 end) in *.
  assert (collect forwarded intake = []) as Hintake
    by (apply intake_collect; reflexivity).
  assert (collect depth_checked intake = []) as Hdc
    by (apply intake_collect; reflexivity).
  assert (collect stored intake = []) as Hst
    by (apply intake_collect; reflexivity).
  assert (ParsePriceHeader ext headers = inr price \/
          In (EvPriceForPeer (p2p.Address p) (swarm.chunk_Address chunk0) price) intake)
    as Hsource.
  { subst intake. destruct (ParsePriceHeader ext headers) as [e | hp] eqn:Hh.
    - right. apply in_or_app. right. simpl. auto.
    - left. f_equal. symmetry. now apply Hprice. }
  clearbody intake. clear Hprice.
  destruct (_ =? 1).
  { exfalso. apply replicated_cases in H. destruct H as (Hf & _).
    eapply (no_split forwarded); [exact Hevs | | discriminate].
    simpl. rewrite Hend, collect_app, Hintake, Hf. reflexivity. }
  apply forward_cases in H.
  destruct H as (within & storing & log & r0 & after & w4 & w5 & -> & Hs & Hp & Hr).
  assert (collect forwarded storing = []) as Hstored
    by (destruct Hs as [(_ & ->) | (_ & perr & ->)]; [| destruct perr]; reflexivity).
  pose proof (pushToClosest_push_events _ _ _ _ _ _ _ _ _ Hp) as Hpush.
  pose proof (collect_push_events forwarded (trace log) ltac:(push_none) Hpush) as Htrace.
  assert (collect depth_checked
            (EvWithTimeout timeToLive :: EvReadDelivery stream (inr d) ::
             EvMetricInc "TotalReceived" :: intake ++
             EvIsWithinDepth (swarm.chunk_Address chunk0) within :: storing ++
             EvSpanStart "pushsync-handler" :: trace log) =
            [(swarm.chunk_Address chunk0, within)] /\
          collect stored
            (EvWithTimeout timeToLive :: EvReadDelivery stream (inr d) ::
             EvMetricInc "TotalReceived" :: intake ++
             EvIsWithinDepth (swarm.chunk_Address chunk0) within :: storing ++
             EvSpanStart "pushsync-handler" :: trace log) =
            (if within then [chunk0] else [])) as (Hdepth & Hput).
  { cbn [collect depth_checked stored]. rewrite !collect_app.
    rewrite Hdc, Hst. cbn [collect depth_checked stored app].
    rewrite !collect_app. cbn [collect depth_checked stored app].
    rewrite (collect_push_events depth_checked (trace log) ltac:(push_none) Hpush),
      (collect_push_events stored (trace log) ltac:(push_none) Hpush).
    destruct Hs as [(-> & ->) | (-> & perr & ->)]; [| destruct perr]; simpl;
      split; reflexivity. }
  set (ending := match res with
                 | Some _ => [EvMetricInc "TotalErrors"; EvReset stream]
                 | None => [EvFullClose stream]
                 end ++ [EvCancel]) in *.
  assert (EvWithTimeout timeToLive ::
            (EvReadDelivery stream (inr d) :: EvMetricInc "TotalReceived" ::
               intake ++
               EvIsWithinDepth (swarm.chunk_Address chunk0) within :: storing ++
               EvSpanStart "pushsync-handler" :: trace log ++
               EvForwarded chunk0 r0 :: after) ++ ending
          = (EvWithTimeout timeToLive :: EvReadDelivery stream (inr d) ::
               EvMetricInc "TotalReceived" :: intake ++
               EvIsWithinDepth (swarm.chunk_Address chunk0) within :: storing ++
               EvSpanStart "pushsync-handler" :: trace log) ++
            EvForwarded chunk0 r0 :: (after ++ ending)) as Hshape.
  { simpl. rewrite <- !app_assoc. simpl. do 4 f_equal.
    rewrite <- !app_assoc. simpl. do 2 f_equal. now rewrite <- !app_assoc. }
  rewrite Hshape in Hevs. clear Hshape.
  assert (collect forwarded after = []) as Hafter.
  { destruct r0 as [err | receipt].
    - destruct (errors_Is err topology.ErrWantSelf).
      + destruct Hr as (w6 & tevs & Ht & ->). apply terminal_inv in Ht.
        destruct Ht as (Ht & _). rewrite collect_app, Ht. reflexivity.
      + destruct Hr as (_ & ->). reflexivity.
    - destruct Hr as (werr & Hr). destruct werr; [destruct Hr as (_ & ->) | subst after];
        reflexivity. }
  apply (split_unique forwarded) in Hevs; try discriminate.
  2: { cbn [collect forwarded]. rewrite collect_app, Hintake. cbn [collect forwarded app].
       rewrite collect_app, Hstored. cbn [collect forwarded app]. exact Htrace. }
  2: { subst ending. rewrite Hend. exact Hafter. }
  destruct Hevs as (-> & Heq & ->). inversion Heq; subst chunk r. clear Heq.
  exists d, price, log, w4, w5, after.
  split; [reflexivity |].
  split.
  { destruct Hsource as [Hsource | Hsource]; [left; exact Hsource |].
    right. do 3 right. apply in_or_app. left. exact Hsource. }
  split; [exact Hp |].
  split; [exists within; auto |].
  split; [reflexivity |]. exact Hr.
Qed.

Lemma pushToClosest_receipt ctx ch (w : W) r w' log :
  pushToClosest ext ps ctx ch w = (inr r, w', log) ->
  pb.Receipt_Address r = swarm.Bytes (swarm.chunk_Address ch).
Proof.
  intros H. apply pushToClosest_inv in H.
  destruct H as (x & lf & w1 & its & cleanup & Hloop & _ & _ & Hres & _).
  destruct x as [| r0].
  - unfold exhausted_result in Hres. destruct (lastErr lf); discriminate.
  - subst r0. apply loop_receipt in Hloop. apply Hloop.
Qed.

End HandlerRuns.

(** X17: when the delivery cannot be read, [handler] returns the error
    wrapped as "pushsync read delivery" and does nothing but reset the
    stream: nothing is stored, forwarded or debited. *)
Theorem unreadable_delivery_is_rejected (W : Type) (ext : Externals W)
    (ps : PushSync W) (ctx : context.Context W) (p : p2p.Peer) (stream : p2p.Stream)
    (w : W) (res : option error) (w' : W) (evs : list Event) (err : error) :
  handler ext ps ctx p stream w = (res, w', evs) ->
  fst (streamer.ReadDelivery (streamer ps) (protobuf.NewReader stream) w) = inl err ->
  res = Some (fmt_Errorf_w "pushsync read delivery: %w" [] err) /\
  evs = [EvWithTimeout timeToLive; EvReadDelivery stream (inl err);
         EvMetricInc "TotalErrors"; EvReset stream; EvCancel].
Proof.
  intros H Hread.
  apply handler_cases in H. destruct H as (w1 & body & H & ->).
  apply handle_cases in H.
  destruct H as [(e & Hr & -> & ->) | (d & w2 & rest & Hr & _)];
    rewrite Hr in Hread; simpl in Hread; [| discriminate].
  inversion Hread; subst e. split; reflexivity.
Qed.

Lemma unreadable_delivery_is_rejected_witness :
  let '(res, _, evs) := handler (Faults.ext Mock.happy Faults.no_read)
                          (Faults.ps Mock.happy Faults.no_read)
                          Mock.ctx Mock.from_upstream Mock.inbound O in
  res = Some (fmt_Errorf_w "pushsync read delivery: %w" [] Mock.boom) /\
  evs = [EvWithTimeout timeToLive; EvReadDelivery Mock.inbound (inl Mock.boom);
         EvMetricInc "TotalErrors"; EvReset Mock.inbound; EvCancel].
Proof.
  destruct (handler (Faults.ext Mock.happy Faults.no_read)
              (Faults.ps Mock.happy Faults.no_read)
              Mock.ctx Mock.from_upstream Mock.inbound O) as [[res w'] evs] eqn:E.
  exact (unreadable_delivery_is_rejected _ _ _ _ _ _ _ _ _ _ Mock.boom E eq_refl).
Defined.

(** X18: a delivery that is neither a valid content-addressed chunk nor a
    valid single-owner chunk is rejected with [ErrInvalidChunk] before
    anything is priced, stored, forwarded or debited. *)
Theorem invalid_chunk_is_rejected (W : Type) (ext : Externals W)
    (ps : PushSync W) (ctx : context.Context W) (p : p2p.Peer) (stream : p2p.Stream)
    (w : W) (res : option error) (w' : W) (evs : list Event) (d : pb.Delivery) :
  handler ext ps ctx p stream w = (res, w', evs) ->
  fst (streamer.ReadDelivery (streamer ps) (protobuf.NewReader stream) w) = inr d ->
  let chunk := swarm.NewChunk (swarm.NewAddress (pb.Delivery_Address d)) (pb.Data d) in
  cac_Valid ext chunk = false ->
  soc_Valid ext chunk = false ->
  res = Some swarm_ErrInvalidChunk /\
  evs = [EvWithTimeout timeToLive; EvReadDelivery stream (inr d);
         EvMetricInc "TotalReceived"; EvMetricInc "TotalErrors"; EvReset stream;
         EvCancel].
Proof.
  intros H Hread chunk Hcac Hsoc.
  apply handler_cases in H. destruct H as (w1 & body & H & ->).
  apply handle_cases in H.
  destruct H as [(e & Hr & _) | (d0 & w2 & rest & Hr & H)];
    rewrite Hr in Hread; simpl in Hread; [discriminate |].
  inversion Hread; subst d0. cbv zeta in H. fold chunk in H.
  destruct H as [(_ & _ & -> & _ & ->) | (price & w3 & Hv & _)].
  - split; reflexivity.
  - rewrite Hcac, Hsoc in Hv. destruct Hv; discriminate.
Qed.

Lemma invalid_chunk_is_rejected_witness :
  let '(res, _, evs) := handler (Faults.ext Mock.happy Faults.invalid)
                          (Faults.ps Mock.happy Faults.invalid)
                          Mock.ctx Mock.from_upstream Mock.inbound O in
  res = Some swarm_ErrInvalidChunk /\
  evs = [EvWithTimeout timeToLive; EvReadDelivery Mock.inbound (inr Mock.delivery);
         EvMetricInc "TotalReceived"; EvMetricInc "TotalErrors"; EvReset Mock.inbound;
         EvCancel].
Proof.
  destruct (handler (Faults.ext Mock.happy Faults.invalid)
              (Faults.ps Mock.happy Faults.invalid)
              Mock.ctx Mock.from_upstream Mock.inbound O) as [[res w'] evs] eqn:E.
  exact (invalid_chunk_is_rejected _ _ _ _ _ _ _ _ _ _ Mock.delivery E eq_refl
           eq_refl eq_refl).
Defined.

(** X21: a receipt [pushToClosest] returned to the handler is for the chunk
    that was delivered and is written back on the inbound stream unchanged;
    the upstream peer is debited only after that write succeeded, and its
    failure is returned as "send receipt to peer". *)
Theorem forwarded_receipt_is_passed_back (W : Type) (ext : Externals W)
    (ps : PushSync W) (ctx : context.Context W) (p : p2p.Peer) (stream : p2p.Stream)
    (w : W) (res : option error) (w' : W) (evs pre post : list Event)
    (chunk : swarm.Chunk) (receipt : pb.Receipt) :
  handler ext ps ctx p stream w = (res, w', evs) ->
  evs = pre ++ EvForwarded chunk (inr receipt) :: post ->
  pb.Receipt_Address receipt = swarm.Bytes (swarm.chunk_Address chunk) /\
  exists werr rest,
    post = EvWriteReceipt stream receipt werr :: rest /\
    collect receipt_written rest = [] /\
    collect stored rest = [] /\
    match werr with
    | Some e =>
        res = Some (fmt_Errorf_w "send receipt to peer %s: %w"
                      [ArgAddress (p2p.Address p)] e) /\
        collect debit_call rest = []
    | None =>
        exists price,
          collect debit_call rest = [(p2p.Address p, price, res)] /\
          (ParsePriceHeader ext (p2p.stream_ResponseHeaders stream) = inr price \/
           In (EvPriceForPeer (p2p.Address p) (swarm.chunk_Address chunk) price) pre)
    end.
Proof.
  intros H Hevs.
  eapply handler_forwarded in H; [| exact Hevs].
  destruct H as (d & price & log & w1 & w2 & after & _ & Hprice & Hp & _ & -> & werr & Hr).
  split; [exact (pushToClosest_receipt _ _ _ _ _ _ _ _ _ Hp) |].
  destruct werr as [e |].
  - destruct Hr as (-> & ->). exists (Some e). eexists. split; [reflexivity |].
    repeat split; reflexivity.
  - subst after. exists None. eexists. split; [reflexivity |].
    split; [destruct res; reflexivity |]. split; [destruct res; reflexivity |].
    exists price. split; [destruct res; reflexivity | exact Hprice].
Qed.

Lemma forwarded_receipt_is_passed_back_witness :
  let '(res, _, evs) := handler (Mock.ext Mock.happy) (Mock.ps Mock.happy)
                          Mock.ctx Mock.from_upstream Mock.inbound O in
  res = None /\
  collect receipt_written evs = [(Mock.inbound, Mock.good_receipt, None)] /\
  collect debit_call evs = [(Mock.upstream, 3, None)] /\
  pb.Receipt_Address Mock.good_receipt = swarm.Bytes Mock.chunkAddress.
Proof.
  destruct (handler (Mock.ext Mock.happy) (Mock.ps Mock.happy)
              Mock.ctx Mock.from_upstream Mock.inbound O) as [[res w'] evs] eqn:E.
  pose proof E as E'. vm_compute in E'. inversion E'; subst res w' evs; clear E'.
  match type of E with
  | _ = (_, _, ?L) =>
      destruct (forwarded_receipt_is_passed_back Mock.World _ _ _ _ _ _ _ _ _
                  (firstn 25 L) (skipn 26 L) Mock.chunk Mock.good_receipt
                  E eq_refl) as (Haddr & _)
  end.
  split; [reflexivity |]. split; [reflexivity |]. split; [reflexivity |]. exact Haddr.
Defined.

(** X22: when forwarding fails with an error that [errors.Is] does not match
    with [ErrWantSelf] (an error with the same text made elsewhere is such
    an error), [handler] returns it wrapped as "handler: push to closest";
    nothing is stored, signed, written back or debited afterwards and the
    inbound stream is reset. *)
Theorem forwarding_failure_is_returned (W : Type) (ext : Externals W)
    (ps : PushSync W) (ctx : context.Context W) (p : p2p.Peer) (stream : p2p.Stream)
    (w : W) (res : option error) (w' : W) (evs pre post : list Event)
    (chunk : swarm.Chunk) (err : error) :
  handler ext ps ctx p stream w = (res, w', evs) ->
  evs = pre ++ EvForwarded chunk (inl err) :: post ->
  errors_Is err topology.ErrWantSelf = false ->
  res = Some (fmt_Errorf_w "handler: push to closest: %w" [] err) /\
  post = [EvSpanFinish; EvMetricInc "TotalErrors"; EvReset stream; EvCancel].
Proof.
  intros H Hevs Hself.
  eapply handler_forwarded in H; [| exact Hevs].
  destruct H as (d & price & log & w1 & w2 & after & _ & _ & _ & _ & -> & Hr).
  rewrite Hself in Hr. destruct Hr as (-> & ->). split; reflexivity.
Qed.

Lemma forwarding_failure_is_returned_witness :
  let '(res, _, evs) := handler (Mock.ext Faults.lookalike) (Mock.ps Faults.lookalike)
                          Mock.ctx Mock.from_upstream Mock.inbound O in
  errors_Is (errors_New "node wants self") topology.ErrWantSelf = false /\
  res = Some (fmt_Errorf_w "handler: push to closest: %w" []
                (fmt_Errorf_w "closest peer: %w" [] (errors_New "node wants self"))) /\
  collect replicated_to evs = [] /\
  collect signed evs = [] /\
  collect receipt_written evs = [] /\
  collect debit_call evs = [] /\
  collect reset evs = [Mock.inbound].
Proof.
  destruct (handler (Mock.ext Faults.lookalike) (Mock.ps Faults.lookalike)
              Mock.ctx Mock.from_upstream Mock.inbound O) as [[res w'] evs] eqn:E.
  pose proof E as E'. vm_compute in E'. inversion E'; subst res w' evs; clear E'.
  match type of E with
  | _ = (_, _, ?L) =>
      destruct (forwarding_failure_is_returned Mock.World _ _ _ _ _ _ _ _ _
                  (firstn 11 L) (skipn 12 L) Mock.chunk
                  (fmt_Errorf_w "closest peer: %w" [] (errors_New "node wants self"))
                  E eq_refl eq_refl) as (Hres & _)
  end.
  split; [reflexivity |]. split; [exact Hres |]. repeat split; reflexivity.
Defined.

Section HandlerAccounts.

Variable W : Type.
Variable ext : Externals W.
Variable ps : PushSync W.

Lemma forward_accounts ctx p wr d chunk price (w : W) res w' evs :
  forward ext ps ctx p wr d chunk price w = (res, w', evs) ->
  collect full_closed evs = [] /\
  ((collect debit_call evs = [] /\ res <> None) \/
   collect debit_call evs = [(p2p.Address p, price, res)]).
Proof.
  intros H.
  split.
  { eapply forward_quiet; [| | | | | | | | | exact H]; try reflexivity. push_none. }
  apply forward_cases in H.
  destruct H as (within & stored & log & r & after & w1 & w2 & -> & Hs & Hp & Hr).
  apply pushToClosest_push_events in Hp.
  pose proof (collect_push_events debit_call (trace log) ltac:(push_none) Hp) as Htrace.
  assert (collect debit_call stored = []) as Hstored
    by (destruct Hs as [(_ & ->) | (_ & perr & ->)]; [| destruct perr]; reflexivity).
  cbn [collect debit_call]. rewrite collect_app, Hstored. cbn [collect debit_call app].
  rewrite collect_app, Htrace. cbn [collect debit_call app].
  destruct r as [err | receipt].
  - destruct (errors_Is err topology.ErrWantSelf).
    + destruct Hr as (w3 & tevs & Ht & ->). apply terminal_inv in Ht.
      destruct Ht as (_ & perr & rest & -> & Ht).
      cbn [collect debit_call]. rewrite collect_app. cbn [collect debit_call].
      rewrite app_nil_r.
      destruct perr as [e |].
      * destruct Ht as (-> & ->). left. split; [reflexivity | discriminate].
      * destruct Ht as (_ & _ & sres & _ & Ht). destruct sres as [e | signature].
        { destruct Ht as (-> & _ & ->). left. split; [reflexivity | discriminate]. }
        destruct Ht as (werr & _ & Ht). destruct werr as [e |].
        { destruct Ht as (-> & ->). left. split; [reflexivity | discriminate]. }
        right. exact Ht.
    + destruct Hr as (-> & ->). left. split; [reflexivity | discriminate].
  - destruct Hr as (werr & Hr). destruct werr as [e |].
    + destruct Hr as (-> & ->). left. split; [reflexivity | discriminate].
    + subst after. right. reflexivity.
Qed.

Lemma handle_accounts ctx p stream wr rd (w : W) res w' body :
  handle ext ps ctx p stream wr rd w = (res, w', body) ->
  collect full_closed body = [] /\
  ((collect debit_call body = [] /\ res <> None) \/
   exists price addr,
     collect debit_call body = [(p2p.Address p, price, res)] /\
     (ParsePriceHeader ext (p2p.stream_ResponseHeaders stream) = inr price \/
      In (EvPriceForPeer (p2p.Address p) addr price) body)).
Proof.
  intros H. apply handle_cases in H.
  destruct H as [(err & _ & -> & ->) | (d & w2 & rest & _ & H)].
  { split; [reflexivity |]. left. split; [reflexivity | discriminate]. }
  cbv zeta in H.
  destruct H as [(_ & _ & -> & _ & ->) | (price & w3 & _ & -> & Hprice & H)].
  { split; [reflexivity |]. left. split; [reflexivity | discriminate]. }
  set (chunk0 := swarm.NewChunk (swarm.NewAddress (pb.Delivery_Address d)) (pb.Data d)) in *.
  set (headers := p2p.stream_ResponseHeaders stream) in *.
  set (intake := (if cac_Valid ext chunk0 && unwrap ps then [EvGoUnwrap chunk0] else []) ++
                 EvParsePriceHeader headers (ParsePriceHeader ext headers) ::
                 match ParsePriceHeader ext headers with
                 | inr _ => []
                 | inl _ =>
                     [EvLog "warning"
                        "pushsync: peer %v no price in previously issued response headers: %v";
                      EvPriceForPeer (p2p.Address p) (swarm.chunk_Address chunk0) price]
                 end) in *.
  assert (collect full_closed intake = []) as Hfc
    by (apply intake_collect; reflexivity).
  assert (collect debit_call intake = []) as Hdc
    by (apply intake_collect; reflexivity).
  assert (ParsePriceHeader ext headers = inr price \/
          In (EvPriceForPeer (p2p.Address p) (swarm.chunk_Address chunk0) price) intake)
    as Hsource.
  { subst intake. destruct (ParsePriceHeader ext headers) as [e | hp] eqn:Hh.
    - right. apply in_or_app. right. simpl. auto.
    - left. f_equal. symmetry. now apply Hprice. }
  clearbody intake. clear Hprice.
  cbn [collect full_closed debit_call]. rewrite !collect_app, Hfc, Hdc.
  cbn [app].
  assert (collect full_closed rest = [] /\
          ((collect debit_call rest = [] /\ res <> None) \/
           collect debit_call rest = [(p2p.Address p, price, res)])) as (R1 & R2).
  { destruct (_ =? 1).
    - apply replicated_cases in H. destruct H as (_ & H1 & _ & H2).
      split; [exact H1 |].
      destruct H2 as [(H2 & ->) | H2]; [left; split; [exact H2 | discriminate] |].
      right. exact H2.
    - eapply forward_accounts; eauto. }
  split; [exact R1 |].
  destruct R2 as [R2 | R2]; [left; exact R2 |].
  right. exists price, (swarm.chunk_Address chunk0). split; [exact R2 |].
  destruct Hsource as [Hsource | Hsource]; [left; exact Hsource |].
  right. do 2 right. apply in_or_app. left. exact Hsource.
Qed.

End HandlerAccounts.

(** X15: [handler] ends with [TotalErrors] incremented and the inbound stream
    reset when it returns an error, and with the stream fully closed when it
    returns none, each followed by the cancel of its timeout; it calls
    [FullClose] once when it succeeds and never when it fails. *)
Theorem inbound_stream_is_closed_or_reset (W : Type) (ext : Externals W)
    (ps : PushSync W) (ctx : context.Context W) (p : p2p.Peer) (stream : p2p.Stream)
    (w : W) :
  let '(res, _, evs) := handler ext ps ctx p stream w in
  (exists body,
      evs = EvWithTimeout timeToLive :: body ++
            match res with
            | Some _ => [EvMetricInc "TotalErrors"; EvReset stream]
            | None => [EvFullClose stream]
            end ++ [EvCancel]) /\
  collect full_closed evs = match res with Some _ => [] | None => [stream] end.
Proof.
  destruct (handler ext ps ctx p stream w) as [[res w'] evs] eqn:E.
  apply handler_cases in E. destruct E as (w1 & body & H & ->).
  split; [now exists body |].
  apply handle_accounts in H. destruct H as (H & _).
  cbn [collect full_closed]. rewrite collect_app, H.
  destruct res; reflexivity.
Qed.

(** X16: [handler] calls [Debit] at most once, for the upstream peer and the
    price read from the stream's response headers or given by
    [PriceForPeer], and then returns what [Debit] returned; when it does
    not call [Debit] it returns an error. *)
Theorem success_is_a_debit (W : Type) (ext : Externals W)
    (ps : PushSync W) (ctx : context.Context W) (p : p2p.Peer) (stream : p2p.Stream)
    (w : W) :
  let '(res, _, evs) := handler ext ps ctx p stream w in
  (collect debit_call evs = [] /\ res <> None) \/
  exists price addr,
    collect debit_call evs = [(p2p.Address p, price, res)] /\
    (ParsePriceHeader ext (p2p.stream_ResponseHeaders stream) = inr price \/
     In (EvPriceForPeer (p2p.Address p) addr price) evs).
Proof.
  destruct (handler ext ps ctx p stream w) as [[res w'] evs] eqn:E.
  apply handler_cases in E. destruct E as (w1 & body & H & ->).
  apply handle_accounts in H. destruct H as (_ & H).
  assert (collect debit_call
            (EvWithTimeout timeToLive :: body ++
             match res with
             | Some _ => [EvMetricInc "TotalErrors"; EvReset stream]
             | None => [EvFullClose stream]
             end ++ [EvCancel]) = collect debit_call body) as ->.
  { cbn [collect debit_call]. rewrite collect_app.
    destruct res; simpl; apply app_nil_r. }
  destruct H as [H | (price & addr & H1 & H2)]; [left; exact H |].
  right. exists price, addr. split; [exact H1 |].
  destruct H2 as [H2 | H2]; [left; exact H2 |].
  right. right. apply in_or_app. left. exact H2.
Qed.

(** X20: a node that forwards a valid chunk checks the depth once, stores the
    chunk exactly when it is within depth, and calls [pushToClosest]
    whatever the store returned. *)
Theorem forwarder_stores_within_depth (W : Type) (ext : Externals W)
    (ps : PushSync W) (ctx : context.Context W) (p : p2p.Peer) (stream : p2p.Stream)
    (w : W) (res : option error) (w' : W) (evs : list Event) (d : pb.Delivery) :
  handler ext ps ctx p stream w = (res, w', evs) ->
  fst (streamer.ReadDelivery (streamer ps) (protobuf.NewReader stream) w) = inr d ->
  let chunk := swarm.NewChunk (swarm.NewAddress (pb.Delivery_Address d)) (pb.Data d) in
  cac_Valid ext chunk = true \/ soc_Valid ext chunk = true ->
  DistanceCmp ext (swarm.Bytes (swarm.chunk_Address chunk))
    (swarm.Bytes (p2p.Address p)) (swarm.Bytes (address ps)) <> 1 ->
  exists pre r post within,
    evs = pre ++ EvForwarded chunk r :: post /\
    collect depth_checked pre = [(swarm.chunk_Address chunk, within)] /\
    collect stored pre = (if within then [chunk] else []).
Proof.
  intros H Hread chunk Hvalid Hcmp.
  pose proof H as Hcases.
  apply handler_cases in Hcases. destruct Hcases as (w1 & body & Hb & Hevs).
  apply handle_cases in Hb.
  destruct Hb as [(e & Hr & _) | (d0 & w2 & rest & Hr & Hb)];
    rewrite Hr in Hread; simpl in Hread; [discriminate |].
  inversion Hread; subst d0. cbv zeta in Hb. fold chunk in Hb.
  destruct Hb as [(Hc & Hs & _) | (price & w3 & _ & Hbody & _ & Hb)].
  { rewrite Hc, Hs in Hvalid. destruct Hvalid; discriminate. }
  apply Z.eqb_neq in Hcmp. rewrite Hcmp in Hb.
  apply forward_cases in Hb.
  destruct Hb as (within & storing & log & r & after & w4 & w5 & Hrest & _).
  subst rest body.
  match type of Hevs with
  | evs = EvWithTimeout ?t :: (?a :: ?b :: ?i ++ ?x :: ?s ++ ?y :: ?l ++ ?f :: ?z) ++ ?c =>
      assert (evs = (EvWithTimeout t :: a :: b :: i ++ x :: s ++ y :: l) ++ f :: (z ++ c))
        as Hsplit
        by (rewrite Hevs; simpl; rewrite <- !app_assoc; simpl; do 4 f_equal;
            rewrite <- !app_assoc; simpl; do 2 f_equal; now rewrite <- !app_assoc)
  end.
  eapply handler_forwarded in H; [| exact Hsplit].
  destruct H as (_ & _ & _ & _ & _ & _ & _ & _ & _ & (within' & H1 & H2) & _).
  do 3 eexists. exists within'. split; [exact Hsplit |]. split; assumption.
Qed.

Lemma forwarder_stores_within_depth_witness :
  exists pre r post within,
    snd (handler (Mock.ext Mock.happy) (Mock.ps Mock.happy)
           Mock.ctx Mock.from_upstream Mock.inbound O) =
      pre ++ EvForwarded Mock.chunk r :: post /\
    collect depth_checked pre = [(Mock.chunkAddress, within)] /\
    collect stored pre = (if within then [Mock.chunk] else []).
Proof.
  destruct (handler (Mock.ext Mock.happy) (Mock.ps Mock.happy)
              Mock.ctx Mock.from_upstream Mock.inbound O) as [[res w'] evs] eqn:E.
  apply (forwarder_stores_within_depth _ _ _ _ _ _ _ _ _ _ Mock.delivery E eq_refl).
  - left. reflexivity.
  - discriminate.
Defined.

(** X19: [handler] starts the unwrap function at most once, and exactly when
    one is set and the delivery read is a valid content-addressed chunk; it
    is given that chunk. *)
Theorem unwrap_sees_valid_chunks_only (W : Type) (ext : Externals W)
    (ps : PushSync W) (ctx : context.Context W) (p : p2p.Peer) (stream : p2p.Stream)
    (w : W) :
  let '(_, _, evs) := handler ext ps ctx p stream w in
  match fst (streamer.ReadDelivery (streamer ps) (protobuf.NewReader stream) w) with
  | inl _ => collect unwrapped evs = []
  | inr d =>
      let chunk := swarm.NewChunk (swarm.NewAddress (pb.Delivery_Address d)) (pb.Data d) in
      collect unwrapped evs = if cac_Valid ext chunk && unwrap ps then [chunk] else []
  end.
Proof.
  destruct (handler ext ps ctx p stream w) as [[res w'] evs] eqn:E.
  apply handler_cases in E. destruct E as (w1 & body & H & ->).
  assert (collect unwrapped
            (EvWithTimeout timeToLive :: body ++
             match res with
             | Some _ => [EvMetricInc "TotalErrors"; EvReset stream]
             | None => [EvFullClose stream]
             end ++ [EvCancel]) = collect unwrapped body) as ->.
  { cbn [collect unwrapped]. rewrite collect_app.
    destruct res; simpl; apply app_nil_r. }
  apply handle_cases in H.
  destruct H as [(e & Hr & _ & ->) | (d & w2 & rest & Hr & H)]; rewrite Hr; simpl fst;
    cbv iota; [reflexivity |].
  cbv zeta in *.
  destruct H as [(Hc & _ & _ & _ & ->) | (price & w3 & _ & -> & _ & H)].
  { rewrite Hc. reflexivity. }
  assert (collect unwrapped rest = []) as Hrest.
  { destruct (_ =? 1).
    - unfold replicated in H. run_inv; reflexivity.
    - eapply forward_quiet; [| | | | | | | | | exact H]; try reflexivity. push_none. }
  cbn [collect unwrapped]. rewrite !collect_app, Hrest, app_nil_r.
  destruct (cac_Valid ext _ && unwrap ps);
    destruct (ParsePriceHeader ext (p2p.stream_ResponseHeaders stream)); reflexivity.
Qed.

(* ================================================================== *)
(** ** Properties of the replication goroutine *)

Lemma events_app (a b : list GoEvent) : events (a ++ b) = events a ++ events b.
Proof.
  induction a as [| g a IH]; [reflexivity |]. destruct g; simpl; now rewrite IH.
Qed.

Lemma closes_app (a b : list GoEvent) : closes (a ++ b) = closes a ++ closes b.
Proof.
  induction a as [| g a IH]; [reflexivity |]. destruct g; simpl; now rewrite IH.
Qed.

Lemma events_Go (evs : list Event) : events (map Go evs) = evs.
Proof. induction evs as [| e evs IH]; [reflexivity |]. simpl. now rewrite IH. Qed.

Lemma closes_Go (evs : list Event) : closes (map Go evs) = [].
Proof. induction evs as [| e evs IH]; [reflexivity |]. exact IH. Qed.

Lemma events_count (err : option error) :
  events (replicate_count err) =
  match err with
  | Some _ => [EvLog "trace" "pushsync replication: %v";
               EvMetricInc "TotalReplicatedError"]
  | None => [EvMetricInc "TotalReplicated"]
  end.
Proof. destruct err; reflexivity. Qed.

Section ReplicationProofs.

Variable W : Type.
Variable ext : Externals W.
Variable ps : PushSync W.
Variable Close : p2p.Stream -> W -> W.

Lemma replicate_inv chunk peer (w : W) err w' log :
  replicate ext ps Close chunk peer w = (err, w', log) ->
  exists s w1 opening,
    replicate_open ext ps chunk peer w = (s, w1, opening) /\
    match s with
    | inl e => err = Some e /\ w' = w1 /\ log = map Go opening ++ replicate_count err
    | inr streamer_ =>
        exists w2 sending,
          replicate_priced ext ps chunk peer streamer_ w1 = (err, w2, sending) /\
          w' = Close streamer_ w2 /\
          log = map Go opening ++ map Go sending ++ [GoClose streamer_] ++
                replicate_count err
    end.
Proof.
  unfold replicate.
  destruct (replicate_open ext ps chunk peer w) as [[s w1] opening].
  intros H. exists s, w1, opening. split; [reflexivity |].
  destruct s as [e | streamer_].
  - inversion H; subst. auto.
  - destruct (replicate_priced ext ps chunk peer streamer_ w1) as [[err' w2] sending].
    inversion H; subst. exists w2, sending. auto.
Qed.

Lemma replicate_open_inv chunk peer (w : W) s w1 opening :
  replicate_open ext ps chunk peer w = (s, w1, opening) ->
  collect headers_made opening = [(0, swarm.chunk_Address chunk)] /\
  collect opened opening = match s with inr streamer_ => [streamer_] | inl _ => [] end /\
  (length (collect dialed opening) <= 1)%nat /\
  (forall e, In e opening ->
             match e with
             | EvMakePricingHeaders _ _ _ | EvNewStream _ _ _ => True
             | _ => False
             end).
Proof.
  unfold replicate_open. intros H. run_inv; simpl; repeat split; auto;
    intros ev Hev; in_cases; subst; exact I.
Qed.

Lemma replicate_priced_inv chunk peer streamer_ (w : W) err w' sending :
  replicate_priced ext ps chunk peer streamer_ w = (err, w', sending) ->
  exists parsed rest,
    sending = EvParsePricingResponseHeaders (p2p.stream_Headers streamer_) parsed :: rest /\
    match parsed with
    | inl e =>
        err = Some (fmt_Errorf_w "push price headers read returned: %w" [] e) /\
        rest = []
    | inr (_, returnedPrice, returnedIndex) =>
        if returnedPrice =? 0 then
          exists werr,
            rest = EvWithTimeout timeToWaitForPushsyncToNeighbor ::
                   EvWriteDelivery streamer_ (delivery_of chunk) werr ::
                   match werr with Some _ => [EvReset streamer_] | None => [] end ++
                   [EvCancel] /\
            err = werr
        else
          rest = [EvNotifyPeerPrice peer returnedPrice returnedIndex err]
    end.
Proof.
  unfold replicate_priced, replicate_send, protobuf.NewWriter. intros H. run_inv.
  all: do 2 eexists; (split; [reflexivity |]).
  all: cbv beta iota.
  all: try match goal with
       | E : negb (?a =? ?b) = _ |- _ =>
           destruct (a =? b) eqn:?; simpl in E; try discriminate
       end.
  all: try (split; reflexivity).
  all: try reflexivity.
  all: first [exists None; split; reflexivity | eexists (Some _); split; reflexivity].
Qed.

End ReplicationProofs.

Ltac replicate_cases E :=
  apply replicate_inv in E;
  destruct E as (s & w1 & opening & Ho & E);
  apply replicate_open_inv in Ho; destruct Ho as (O1 & O2 & O3 & O4);
  destruct s as [e | streamer_];
  [ destruct E as (-> & -> & ->)
  | destruct E as (w2 & sending & Hp & -> & ->);
    apply replicate_priced_inv in Hp; destruct Hp as (parsed & rest & -> & Hp);
    destruct parsed as [e | [[target returnedPrice] returnedIndex]];
    [ destruct Hp as (-> & ->)
    | destruct (returnedPrice =? 0) eqn:Hprice;
      [ destruct Hp as (werr & -> & ->) | subst rest ] ] ].

Lemma opening_collect {A : Type} (f : Event -> option A) (opening : list Event) :
  (forall price addr r, f (EvMakePricingHeaders price addr r) = None) ->
  (forall peer headers r, f (EvNewStream peer headers r) = None) ->
  (forall e, In e opening ->
             match e with
             | EvMakePricingHeaders _ _ _ | EvNewStream _ _ _ => True
             | _ => False
             end) ->
  collect f opening = [].
Proof.
  intros F1 F2 H. apply collect_nil. intros e He. apply H in He.
  destruct e; try contradiction; auto.
Qed.

Ltac replicate_log :=
  rewrite ?events_app, ?closes_app, ?events_Go, ?closes_Go, ?events_count, ?collect_app;
  cbn [events closes app].

(** X23: the replication goroutine proposes the price 0 for the chunk, dials
    at most once, sends nothing but the delivery of the chunk, awaits no
    receipt and never calls [Reserve], [Release], [Credit] or [Debit]. *)
Theorem replication_is_free (W : Type) (ext : Externals W) (ps : PushSync W)
    (Close : p2p.Stream -> W -> W) (chunk : swarm.Chunk) (peer : swarm.Address)
    (w : W) :
  let '(_, _, log) := replicate ext ps Close chunk peer w in
  collect headers_made (events log) = [(0, swarm.chunk_Address chunk)] /\
  collect reserve_call (events log) = [] /\
  collect released (events log) = [] /\
  collect credit_call (events log) = [] /\
  collect debit_call (events log) = [] /\
  collect receipt_read (events log) = [] /\
  (length (collect dialed (events log)) <= 1)%nat /\
  (forall d, In d (collect delivered (events log)) -> d = delivery_of chunk).
Proof.
  destruct (replicate ext ps Close chunk peer w) as [[err w'] log] eqn:E.
  replicate_cases E; replicate_log;
    rewrite O1,
      (opening_collect reserve_call opening ltac:(reflexivity) ltac:(reflexivity) O4),
      (opening_collect released opening ltac:(reflexivity) ltac:(reflexivity) O4),
      (opening_collect credit_call opening ltac:(reflexivity) ltac:(reflexivity) O4),
      (opening_collect debit_call opening ltac:(reflexivity) ltac:(reflexivity) O4),
      (opening_collect receipt_read opening ltac:(reflexivity) ltac:(reflexivity) O4),
      (opening_collect delivered opening ltac:(reflexivity) ltac:(reflexivity) O4);
    try (destruct werr); try (destruct err); simpl; rewrite ?app_nil_r;
    repeat (split; [reflexivity || lia |]);
    intros d Hd; in_cases; auto.
Qed.

(** X24: when the neighbour answers a price other than 0, the goroutine
    notifies the pricer and sends no delivery; it counts the replication as
    done when the notification succeeded and as failed otherwise. *)
Theorem unexpected_price_stops_replication (W : Type) (ext : Externals W)
    (ps : PushSync W) (Close : p2p.Stream -> W -> W) (chunk : swarm.Chunk)
    (peer : swarm.Address) (w : W) (err : option error) (w' : W) (log : list GoEvent)
    (headers : p2p.Headers) (addr : swarm.Address) (price index : Z) :
  replicate ext ps Close chunk peer w = (err, w', log) ->
  In (EvParsePricingResponseHeaders headers (inr (addr, price, index))) (events log) ->
  price <> 0 ->
  collect notified (events log) = [(peer, price, index, err)] /\
  collect delivered (events log) = [] /\
  collect counted (events log) =
    [match err with Some _ => "TotalReplicatedError" | None => "TotalReplicated" end].
Proof.
  intros E Hin Hne.
  replicate_cases E; revert Hin; replicate_log; intros Hin;
    rewrite
      (opening_collect notified opening ltac:(reflexivity) ltac:(reflexivity) O4),
      (opening_collect delivered opening ltac:(reflexivity) ltac:(reflexivity) O4),
      (opening_collect counted opening ltac:(reflexivity) ltac:(reflexivity) O4).
  all: repeat (apply in_app_or in Hin; destruct Hin as [Hin | Hin]).
  all: try (apply O4 in Hin; contradiction).
  all: try (destruct werr); try (destruct err); simpl in Hin; in_cases.
  all: try match goal with
       | H : EvParsePricingResponseHeaders _ _ = EvParsePricingResponseHeaders _ _ |- _ =>
           inversion H; subst; clear H
       end.
  all: try (apply Z.eqb_eq in Hprice; contradiction).
  all: repeat split; reflexivity.
Qed.

Lemma unexpected_price_stops_replication_witness :
  let '(err, _, log) := replicate (Mock.ext Mock.happy) (Mock.ps Mock.happy)
                          Faults.Close Mock.chunk Mock.peerA O in
  err = None /\
  collect notified (events log) = [(Mock.peerA, 7, 0, None)] /\
  collect delivered (events log) = [] /\
  collect counted (events log) = ["TotalReplicated"] /\
  closes log = [Mock.stream_to Mock.peerA].
Proof.
  destruct (replicate (Mock.ext Mock.happy) (Mock.ps Mock.happy)
              Faults.Close Mock.chunk Mock.peerA O) as [[err w'] log] eqn:E.
  pose proof E as E'. vm_compute in E'. inversion E'; subst err w' log; clear E'.
  destruct (unexpected_price_stops_replication _ _ _ _ _ _ _ _ _ _
              [("price", swarm.Bytes Mock.peerA)] Mock.chunkAddress 7 0 E)
    as (H1 & H2 & H3).
  - in_list.
  - discriminate.
  - split; [reflexivity |]. split; [exact H1 |]. split; [exact H2 |].
    split; [exact H3 | reflexivity].
Defined.

(** X25: the goroutine closes exactly the stream it opened, after everything
    else it does on it and before it counts [TotalReplicated] or
    [TotalReplicatedError] (the latter exactly when it ends with an error);
    it resets the stream exactly when the write failed. *)
Theorem replication_stream_is_closed (W : Type) (ext : Externals W)
    (ps : PushSync W) (Close : p2p.Stream -> W -> W) (chunk : swarm.Chunk)
    (peer : swarm.Address) (w : W) :
  let '(err, _, log) := replicate ext ps Close chunk peer w in
  closes log = collect opened (events log) /\
  collect reset (events log) = collect failed_io (events log) /\
  length (collect cancelled (events log)) = length (collect timeouts (events log)) /\
  collect counted (events log) =
    [match err with Some _ => "TotalReplicatedError" | None => "TotalReplicated" end] /\
  exists before,
    log = before ++ map GoClose (closes log) ++ replicate_count err /\
    closes before = [] /\
    collect counted (events before) = [].
Proof.
  destruct (replicate ext ps Close chunk peer w) as [[err w'] log] eqn:E.
  replicate_cases E.
  all: match goal with
       | |- context [map Go ?o ++ map Go ?sending ++ _ ++ _] =>
           assert (exists before, before = map Go o ++ map Go sending)
             as (before & Hb) by (eexists; reflexivity)
       | |- context [map Go ?o ++ _] =>
           assert (exists before, before = map Go o)
             as (before & Hb) by (eexists; reflexivity)
       end.
  all: replicate_log.
  all: rewrite ?O2,
         (opening_collect reset opening ltac:(reflexivity) ltac:(reflexivity) O4),
         (opening_collect failed_io opening ltac:(reflexivity) ltac:(reflexivity) O4),
         (opening_collect cancelled opening ltac:(reflexivity) ltac:(reflexivity) O4),
         (opening_collect timeouts opening ltac:(reflexivity) ltac:(reflexivity) O4),
         (opening_collect counted opening ltac:(reflexivity) ltac:(reflexivity) O4).
  all: try (destruct werr); try (destruct err); simpl; rewrite ?app_nil_r.
  all: repeat (split; [reflexivity |]).
  all: exists before; subst before; replicate_log.
  all: rewrite ?(opening_collect counted opening ltac:(reflexivity) ltac:(reflexivity) O4).
  all: simpl; rewrite <- ?app_assoc; repeat split; reflexivity.
Qed.

(* ================================================================== *)
(** ** Reading messages *)

Section Messages.

Variable St Msg : Type.
Variable ReadMsg : St -> (error + option Msg) * St.

Lemma ReadMessages_Yields (s s' : St) (msgs : list Msg) :
  Yields ReadMsg s msgs s' ->
  forall fuel m,
    protobuf.ReadMessages ReadMsg (length msgs + fuel) s m =
    protobuf.ReadMessages ReadMsg fuel s' (m ++ msgs).
Proof.
  induction 1 as [s | s s1 s2 msg msgs Hread _ IH]; intros fuel m.
  - now rewrite app_nil_r.
  - simpl. rewrite Hread, IH, <- app_assoc. reflexivity.
Qed.

End Messages.

Lemma scripted_Yields {Msg : Type} (msgs : list Msg) (rest : list (error + Msg)) :
  Yields scripted (map inr msgs ++ rest) msgs rest.
Proof.
  induction msgs as [| msg msgs IH]; simpl.
  - constructor.
  - econstructor; [reflexivity | exact IH].
Qed.

(** X26: [ReadMessages] returns the messages the reader yields before
    [io.EOF], all of them and in the order read, and no error. *)
Theorem ReadMessages_reads_until_EOF (St Msg : Type)
    (ReadMsg : St -> (error + option Msg) * St) (s s' : St) (msgs : list Msg)
    (fuel : nat) :
  Yields ReadMsg s msgs s' ->
  fst (ReadMsg s') = inr None ->
  (length msgs < fuel)%nat ->
  protobuf.ReadMessages ReadMsg fuel s [] = Some (inr msgs).
Proof.
  intros Hy Heof Hfuel.
  replace fuel with (length msgs + S (fuel - S (length msgs)))%nat by lia.
  rewrite (ReadMessages_Yields _ _ _ _ _ _ Hy). simpl.
  destruct (ReadMsg s') as [r s'']. simpl in Heof. subst r. reflexivity.
Qed.

Lemma ReadMessages_reads_until_EOF_witness :
  protobuf.ReadMessages scripted 4 [inr 1%nat; inr 2%nat; inr 3%nat] [] =
    Some (inr [1%nat; 2%nat; 3%nat]).
Proof.
  apply (ReadMessages_reads_until_EOF _ _ scripted _ [] [1%nat; 2%nat; 3%nat] 4).
  - exact (scripted_Yields [1%nat; 2%nat; 3%nat] []).
  - reflexivity.
  - simpl. lia.
Defined.

(** X27: when the reader fails with an error other than [io.EOF],
    [ReadMessages] returns that error and none of the messages read before
    it. *)
Theorem ReadMessages_drops_all_on_error (St Msg : Type)
    (ReadMsg : St -> (error + option Msg) * St) (s s' : St) (msgs : list Msg)
    (err : error) (fuel : nat) :
  Yields ReadMsg s msgs s' ->
  fst (ReadMsg s') = inl err ->
  (length msgs < fuel)%nat ->
  protobuf.ReadMessages ReadMsg fuel s [] = Some (inl err).
Proof.
  intros Hy Herr Hfuel.
  replace fuel with (length msgs + S (fuel - S (length msgs)))%nat by lia.
  rewrite (ReadMessages_Yields _ _ _ _ _ _ Hy). simpl.
  destruct (ReadMsg s') as [r s'']. simpl in Herr. subst r. reflexivity.
Qed.

Lemma ReadMessages_drops_all_on_error_witness :
  protobuf.ReadMessages scripted 5
    [inr 1%nat; inr 2%nat; inl (errors_New "boom"); inr 3%nat] [] =
    Some (inl (errors_New "boom")).
Proof.
  apply (ReadMessages_drops_all_on_error _ _ scripted _
           [inl (errors_New "boom"); inr 3%nat] [1%nat; 2%nat] (errors_New "boom") 5).
  - exact (scripted_Yields [1%nat; 2%nat] [inl (errors_New "boom"); inr 3%nat]).
  - reflexivity.
  - simpl. lia.
Defined.
